(** * walletd: chain-update applier/reverter and funding engine

    A shallow embedding of [wallet/update.go] (ApplyChainUpdates,
    RevertChainUpdate) and of the wallet handlers of [api/server.go]
    (walletsHandlerPOST, walletsFundHandler, walletsFundSFHandler), with the
    properties of the specification proved or refuted on the embedding;
    then of walletsReserveHandler, walletsReleaseHandler and
    txpoolBroadcastHandler, with further properties of the code: how the
    applier and the reverter pass on the errors of the store, the order of
    the reverter's calls, the balances they read, and what the funding
    closures select, reserve and leave behind.

    Conventions.
    - Unsigned integers are [N]; a [uint64] operation writes out its
      wrap-around modulo 2^64, a [types.Currency] (u128) operation panics
      out of range as [Currency.Add] and [Currency.Sub] do.
    - 32-byte hashes (addresses, output ids, block ids) are [N].
    - Go maps are [gmap]s; [map[K]bool] is read through [getb], which gives
      the zero value [false] for a missing key.
    - A Go function that returns an [error] and may panic is a computation
      with an [outcome]: [Val] (nil error), [Err] or [Panic] with the value
      it panics with. *)

From stdpp Require Import base option list gmap strings.

Set Warnings "-clear-no-such-hyp".

Local Open Scope N_scope.

(** ** Errors and outcomes *)

(** [errors.New(msg)] and [fmt.Errorf(msg + ": %w", err)]. *)
Inductive error : Type :=
| errorString (msg : string)
| wrapError (msg : string) (err : error).

Inductive outcome (A : Type) : Type :=
| Val (a : A)
| Err (e : error)
| Panic (v : error).
Arguments Val {A} a.
Arguments Err {A} e.
Arguments Panic {A} v.

Definition obind {A B} (o : outcome A) (f : A -> outcome B) : outcome B :=
  match o with
  | Val a => f a
  | Err e => Err e
  | Panic p => Panic p
  end.

#[global] Instance outcome_ret : MRet outcome := @Val.
#[global] Instance outcome_bind : MBind outcome := fun A B f o => obind o f.

(** Lookup in a [map[K]bool]: the zero value for a missing key. *)
Definition getb `{Countable K} (m : gmap K bool) (k : K) : bool :=
  default false (m !! k).

(** ** go.sia.tech/core/types, as far as the wallet uses it *)
Module types.

Abbreviation Hash256 := N (only parsing).
Abbreviation Address := N (only parsing).
Abbreviation BlockID := N (only parsing).
Abbreviation SiacoinOutputID := N (only parsing).
Abbreviation SiafundOutputID := N (only parsing).
Abbreviation Currency := N (only parsing).
Abbreviation uint64 := N (only parsing).

Definition VoidAddress : Address := 0.

(** [uint64] arithmetic wraps. *)
Definition u64 : N := 2 ^ 64.
Definition add64 (a b : uint64) : uint64 := (a + b) mod u64.
Definition sub64 (a b : uint64) : uint64 := (a + u64 - b mod u64) mod u64.

(** [Currency] is a 128-bit unsigned integer whose [Add] and [Sub] panic on
    overflow and underflow. *)
Definition MaxCurrency : Currency := 2 ^ 128 - 1.
Definition wfCurrency (c : Currency) : Prop := c <= MaxCurrency.

Definition Currency_Add (c v : Currency) : outcome Currency :=
  if decide (c + v <= MaxCurrency) then Val (c + v) else Panic (errorString "overflow").
Definition Currency_Sub (c v : Currency) : outcome Currency :=
  if decide (v <= c) then Val (c - v) else Panic (errorString "underflow").
Definition Currency_IsZero (c : Currency) : bool := bool_decide (c = 0).

Record ChainIndex := { Height : uint64; ci_ID : BlockID }.

Record StateElement := {
  ID : Hash256;
  LeafIndex : uint64;
  MerkleProof : list Hash256 }.

Record SiacoinOutput := { sco_Value : Currency; sco_Address : Address }.
Record SiafundOutput := { sfo_Value : uint64; sfo_Address : Address }.

Record SiacoinElement := {
  sce_StateElement : StateElement;
  sce_SiacoinOutput : SiacoinOutput;
  MaturityHeight : uint64 }.

Record SiafundElement := {
  sfe_StateElement : StateElement;
  sfe_SiafundOutput : SiafundOutput;
  ClaimStart : Currency }.

Record UnlockConditions := {
  Timelock : uint64;
  PublicKeys : list N;
  SignaturesRequired : uint64 }.
Definition noUnlockConditions : UnlockConditions :=
  {| Timelock := 0; PublicKeys := []; SignaturesRequired := 0 |}.

Record SiacoinInput := {
  sci_ParentID : SiacoinOutputID;
  sci_UnlockConditions : UnlockConditions }.

Record SiafundInput := {
  sfi_ParentID : SiafundOutputID;
  sfi_UnlockConditions : UnlockConditions;
  sfi_ClaimAddress : Address }.

(** A v1 transaction. [txn_Rest] stands for the fields the wallet code never
    reads (file contracts, fees, arbitrary data, signatures). *)
Record Transaction := {
  SiacoinInputs : list SiacoinInput;
  SiacoinOutputs : list SiacoinOutput;
  SiafundInputs : list SiafundInput;
  SiafundOutputs : list SiafundOutput;
  txn_Rest : N }.

(** A v2 transaction: inputs carry their parent element, and the ids of the
    outputs it creates are listed with them. *)
Record V2Transaction := {
  v2_SiacoinInputs : list SiacoinElement;
  v2_SiacoinOutputs : list (SiacoinOutputID * SiacoinOutput);
  v2_SiafundInputs : list SiafundElement;
  v2_SiafundOutputs : list (SiafundOutputID * SiafundOutput) }.

Record Block := {
  ParentID : BlockID;
  Timestamp : N;
  Transactions : list Transaction;
  V2 : option (list V2Transaction) }.

Definition setSiacoinOutputs (txn : Transaction) (l : list SiacoinOutput) : Transaction :=
  {| SiacoinInputs := SiacoinInputs txn; SiacoinOutputs := l;
     SiafundInputs := SiafundInputs txn; SiafundOutputs := SiafundOutputs txn;
     txn_Rest := txn_Rest txn |}.
Definition setSiacoinInputs (txn : Transaction) (l : list SiacoinInput) : Transaction :=
  {| SiacoinInputs := l; SiacoinOutputs := SiacoinOutputs txn;
     SiafundInputs := SiafundInputs txn; SiafundOutputs := SiafundOutputs txn;
     txn_Rest := txn_Rest txn |}.
Definition setSiafundOutputs (txn : Transaction) (l : list SiafundOutput) : Transaction :=
  {| SiacoinInputs := SiacoinInputs txn; SiacoinOutputs := SiacoinOutputs txn;
     SiafundInputs := SiafundInputs txn; SiafundOutputs := l;
     txn_Rest := txn_Rest txn |}.
Definition setSiafundInputs (txn : Transaction) (l : list SiafundInput) : Transaction :=
  {| SiacoinInputs := SiacoinInputs txn; SiacoinOutputs := SiacoinOutputs txn;
     SiafundInputs := l; SiafundOutputs := SiafundOutputs txn;
     txn_Rest := txn_Rest txn |}.

End types.
Import types.

(** ** api/server.go: the funding closures *)
Module api.

Definition errInsufficientBalance : error := errorString "insufficient balance".
Definition errChangeAddress : error := errorString "change address must be specified".

(** The result of a funding closure: what it returns, and the transaction
    and the reservation map [s.used] as it leaves them. *)
Record FundResult := {
  fr_ret : outcome (list Hash256);
  fr_txn : Transaction;
  fr_used : gmap N bool }.

(** [inPool]: the parent ids of the siacoin inputs of the pool. *)
Definition scInPool (pool : list Transaction) : gmap N bool :=
  foldl (fun m ptxn =>
           foldl (fun m i => <[sci_ParentID i := true]> m) m (SiacoinInputs ptxn))
        ∅ pool.

Definition sfInPool (pool : list Transaction) : gmap N bool :=
  foldl (fun m ptxn =>
           foldl (fun m i => <[sfi_ParentID i := true]> m) m (SiafundInputs ptxn))
        ∅ pool.

(** The selection loop of [walletsFundHandler], from the running
    [outputSum] and [fundingElements]. *)
Fixpoint scScan (used inPool : gmap N bool) (amount : Currency)
    (utxos : list SiacoinElement)
    (outputSum : Currency) (fundingElements : list SiacoinElement)
    : outcome (Currency * list SiacoinElement) :=
  match utxos with
  | [] => Val (outputSum, fundingElements)
  | sce :: rest =>
      if getb used (ID (sce_StateElement sce)) || getb inPool (ID (sce_StateElement sce))
      then scScan used inPool amount rest outputSum fundingElements
      else
        let fundingElements := fundingElements ++ [sce] in
        obind (Currency_Add outputSum (sco_Value (sce_SiacoinOutput sce)))
          (fun outputSum =>
             if decide (amount <= outputSum)
             then Val (outputSum, fundingElements)
             else scScan used inPool amount rest outputSum fundingElements)
  end.

(** The final loop: one input per funding element, its id signed for and
    reserved. *)
Definition scSign (st : list Hash256 * Transaction * gmap N bool) (sce : SiacoinElement)
    : list Hash256 * Transaction * gmap N bool :=
  let '(toSign, txn, used) := st in
  let id := ID (sce_StateElement sce) in
  (toSign ++ [id],
   setSiacoinInputs txn
     (SiacoinInputs txn ++
        [{| sci_ParentID := id; sci_UnlockConditions := noUnlockConditions |}]),
   <[id := true]> used).

(** [fundTxn] of [walletsFundHandler]. The body runs with [s.mu] held, so it
    is one atomic step on [s.used]. [shuffle] is the permutation
    [frand.Shuffle] draws for this call. *)
Definition fundTxn (shuffle : list SiacoinElement -> list SiacoinElement)
    (used : gmap N bool) (txn : Transaction) (amount : Currency)
    (utxos : list SiacoinElement) (changeAddr : Address) (pool : list Transaction)
    : FundResult :=
  if Currency_IsZero amount then
    {| fr_ret := Val []; fr_txn := txn; fr_used := used |}
  else
    let inPool := scInPool pool in
    let utxos := shuffle utxos in
    match scScan used inPool amount utxos 0 [] with
    | Panic p => {| fr_ret := Panic p; fr_txn := txn; fr_used := used |}
    | Err e => {| fr_ret := Err e; fr_txn := txn; fr_used := used |}
    | Val (outputSum, fundingElements) =>
        if decide (outputSum < amount) then
          {| fr_ret := Err errInsufficientBalance; fr_txn := txn; fr_used := used |}
        else
          let withChange :=
            if decide (amount < outputSum) then
              if decide (changeAddr = VoidAddress) then Err errChangeAddress
              else
                match Currency_Sub outputSum amount with
                | Val change =>
                    Val (setSiacoinOutputs txn
                           (SiacoinOutputs txn ++
                              [{| sco_Value := change; sco_Address := changeAddr |}]))
                | Err e => Err e
                | Panic p => Panic p
                end
            else Val txn in
          match withChange with
          | Panic p => {| fr_ret := Panic p; fr_txn := txn; fr_used := used |}
          | Err e => {| fr_ret := Err e; fr_txn := txn; fr_used := used |}
          | Val txn1 =>
              let '(toSign, txn2, used2) :=
                foldl scSign ([], txn1, used) fundingElements in
              {| fr_ret := Val toSign; fr_txn := txn2; fr_used := used2 |}
          end
    end.

(** The selection loop of [walletsFundSFHandler]: [outputSum] is a
    [uint64] and [+=] wraps. *)
Fixpoint sfScan (used inPool : gmap N bool) (amount : uint64)
    (utxos : list SiafundElement)
    (outputSum : uint64) (fundingElements : list SiafundElement)
    : uint64 * list SiafundElement :=
  match utxos with
  | [] => (outputSum, fundingElements)
  | sfe :: rest =>
      if getb used (ID (sfe_StateElement sfe)) || getb inPool (ID (sfe_StateElement sfe))
      then sfScan used inPool amount rest outputSum fundingElements
      else
        let fundingElements := fundingElements ++ [sfe] in
        let outputSum := add64 outputSum (sfo_Value (sfe_SiafundOutput sfe)) in
        if decide (amount <= outputSum)
        then (outputSum, fundingElements)
        else sfScan used inPool amount rest outputSum fundingElements
  end.

Definition sfSign (claimAddr : Address)
    (st : list Hash256 * Transaction * gmap N bool) (sfe : SiafundElement)
    : list Hash256 * Transaction * gmap N bool :=
  let '(toSign, txn, used) := st in
  let id := ID (sfe_StateElement sfe) in
  (toSign ++ [id],
   setSiafundInputs txn
     (SiafundInputs txn ++
        [{| sfi_ParentID := id; sfi_UnlockConditions := noUnlockConditions;
            sfi_ClaimAddress := claimAddr |}]),
   <[id := true]> used).

(** [fundTxn] of [walletsFundSFHandler]. *)
Definition fundTxnSF (shuffle : list SiafundElement -> list SiafundElement)
    (used : gmap N bool) (txn : Transaction) (amount : uint64)
    (utxos : list SiafundElement) (changeAddr claimAddr : Address)
    (pool : list Transaction) : FundResult :=
  if bool_decide (amount = 0) then
    {| fr_ret := Val []; fr_txn := txn; fr_used := used |}
  else
    let inPool := sfInPool pool in
    let utxos := shuffle utxos in
    let '(outputSum, fundingElements) := sfScan used inPool amount utxos 0 [] in
    if decide (outputSum < amount) then
      {| fr_ret := Err errInsufficientBalance; fr_txn := txn; fr_used := used |}
    else
      let withChange :=
        if decide (amount < outputSum) then
          if decide (changeAddr = VoidAddress) then Err errChangeAddress
          else Val (setSiafundOutputs txn
                      (SiafundOutputs txn ++
                         [{| sfo_Value := sub64 outputSum amount;
                             sfo_Address := changeAddr |}]))
        else Val txn in
      match withChange with
      | Panic p => {| fr_ret := Panic p; fr_txn := txn; fr_used := used |}
      | Err e => {| fr_ret := Err e; fr_txn := txn; fr_used := used |}
      | Val txn1 =>
          let '(toSign, txn2, used2) :=
            foldl (sfSign claimAddr) ([], txn1, used) fundingElements in
          {| fr_ret := Val toSign; fr_txn := txn2; fr_used := used2 |}
      end.

(** *** The handlers *)

(** [wallet.Wallet]; the handler fills [Name], [Description] and [Metadata]
    and leaves the rest at its zero value. *)
Record Wallet := {
  w_ID : N;
  w_Name : string;
  w_Description : string;
  w_DateCreated : N;
  w_LastUpdated : N;
  w_Metadata : string }.

Record WalletUpdateRequest := {
  wur_Name : string;
  wur_Description : string;
  wur_Metadata : string }.
Definition zeroWalletUpdateRequest : WalletUpdateRequest :=
  {| wur_Name := EmptyString; wur_Description := EmptyString; wur_Metadata := EmptyString |}.

Record WalletFundRequest := {
  wfr_Transaction : Transaction;
  wfr_Amount : Currency;
  wfr_ChangeAddress : Address }.

Record WalletFundSFRequest := {
  wfsr_Transaction : Transaction;
  wfsr_Amount : uint64;
  wfsr_ChangeAddress : Address;
  wfsr_ClaimAddress : Address }.

Record WalletFundResponse := {
  resp_Transaction : Transaction;
  resp_ToSign : list Hash256;
  resp_DependsOn : list Transaction }.

(** The methods of the [WalletManager] interface that these handlers call,
    over the manager's state [W]. Reads leave the state alone; offsets and
    limits are Go [int]s. *)
Record WalletManager (W : Type) := {
  AddWallet : Wallet -> W -> (error + Wallet) * W;
  UnspentSiacoinOutputs : N -> Z -> Z -> W -> error + list SiacoinElement;
  UnspentSiafundOutputs : N -> Z -> Z -> W -> error + list SiafundElement }.
Arguments AddWallet {W} _ _ _.
Arguments UnspentSiacoinOutputs {W} _ _ _ _ _.
Arguments UnspentSiafundOutputs {W} _ _ _ _ _.

Record ChainManager := {
  PoolTransactions : list Transaction;
  UnconfirmedParents : Transaction -> list Transaction }.

(** A request as [jape.Context] presents it: the raw [:id] parameter and the
    raw body. *)
Record Context := { jc_id : string; jc_body : string }.

(** What a handler writes: nothing but the decoder's own error reply, an
    error with its status code, or an encoded value; or it panics. *)
Inductive Response :=
| DecodeFailed
| Panicked (v : error)
| RespError (e : error) (code : N)
| RespWallet (w : Wallet)
| RespFund (r : WalletFundResponse).

(** [jc.Check(msg, err)] replies 500 with the wrapped error. *)
Definition check (msg : string) (e : error) : Response :=
  RespError (wrapError msg e) 500.

Section handlers.
Context {W : Type} (wm : WalletManager W) (cm : ChainManager).
(** The decoders of [jape]: [DecodeParam] for a wallet id and [Decode] for
    the JSON bodies. *)
Context (decodeID : string -> option N)
        (decodeFund : string -> option WalletFundRequest)
        (decodeFundSF : string -> option WalletFundSFRequest).

(** [walletsHandlerPOST]. [req] is declared and never decoded into. *)
Definition walletsHandlerPOST (jc : Context) (st : W) : Response * W :=
  let req := zeroWalletUpdateRequest in
  let w := {| w_ID := 0; w_Name := wur_Name req;
              w_Description := wur_Description req;
              w_DateCreated := 0; w_LastUpdated := 0;
              w_Metadata := wur_Metadata req |} in
  match AddWallet wm w st with
  | (inl err, st) => (check "couldn't add wallet" err, st)
  | (inr w, st) => (RespWallet w, st)
  end.

(** [walletsFundHandler], on the server's [used] map. *)
Definition walletsFundHandler (shuffle : list SiacoinElement -> list SiacoinElement)
    (jc : Context) (used : gmap N bool) (st : W) : Response * gmap N bool :=
  match decodeID (jc_id jc), decodeFund (jc_body jc) with
  | Some id, Some wfr =>
      match UnspentSiacoinOutputs wm id 0 1000 st with
      | inl err => (check "couldn't get utxos to fund transaction" err, used)
      | inr utxos =>
          let txn := wfr_Transaction wfr in
          let r := fundTxn shuffle used txn (wfr_Amount wfr) utxos
                     (wfr_ChangeAddress wfr) (PoolTransactions cm) in
          match fr_ret r with
          | Val toSign =>
              (RespFund {| resp_Transaction := fr_txn r; resp_ToSign := toSign;
                           resp_DependsOn := UnconfirmedParents cm (fr_txn r) |},
               fr_used r)
          | Err err => (check "couldn't fund transaction" err, fr_used r)
          | Panic p => (Panicked p, fr_used r)
          end
      end
  | _, _ => (DecodeFailed, used)
  end.

(** [walletsFundSFHandler]. *)
Definition walletsFundSFHandler (shuffle : list SiafundElement -> list SiafundElement)
    (jc : Context) (used : gmap N bool) (st : W) : Response * gmap N bool :=
  match decodeID (jc_id jc), decodeFundSF (jc_body jc) with
  | Some id, Some wfr =>
      match UnspentSiafundOutputs wm id 0 1000 st with
      | inl err => (check "couldn't get utxos to fund transaction" err, used)
      | inr utxos =>
          let txn := wfsr_Transaction wfr in
          let r := fundTxnSF shuffle used txn (wfsr_Amount wfr) utxos
                     (wfsr_ChangeAddress wfr) (wfsr_ClaimAddress wfr)
                     (PoolTransactions cm) in
          match fr_ret r with
          | Val toSign =>
              (RespFund {| resp_Transaction := fr_txn r; resp_ToSign := toSign;
                           resp_DependsOn := UnconfirmedParents cm (fr_txn r) |},
               fr_used r)
          | Err err => (check "couldn't fund transaction" err, fr_used r)
          | Panic p => (Panicked p, fr_used r)
          end
      end
  | _, _ => (DecodeFailed, used)
  end.
End handlers.

End api.

(** ** wallet/update.go *)
Module wallet.

Record Balance := {
  Siacoins : Currency;
  ImmatureSiacoins : Currency;
  Siafunds : uint64 }.
Definition zeroBalance : Balance :=
  {| Siacoins := 0; ImmatureSiacoins := 0; Siafunds := 0 |}.

(** The struct [AddressBalance]; the name is left to the method of [UpdateTx]. *)
Record AddrBalance := { ab_Address : Address; ab_Balance : Balance }.

(** Modelled from the spec: [wallet.Event] is declared outside the sources;
    the spec gives it an id, the index of its block, a timestamp, the
    relevant addresses and a payload. *)
Record Event := {
  ev_ID : Hash256;
  ev_Index : ChainIndex;
  ev_Timestamp : N;
  ev_Relevant : list Address;
  ev_Data : N }.

(** [consensus.State], of which the wallet reads the index. *)
Record State := { Index : ChainIndex }.

(** [chain.ApplyUpdate] and [chain.RevertUpdate] as the wallet sees them: the
    state ([cau.State] is the state after the block, [cru.State] the state
    the revert goes back to), the block, the elements that
    [ForEachSiacoinElement] and [ForEachSiafundElement] pass to their
    callback, in order, and the Merkle proof [UpdateElementProof] writes
    into an element. *)
Record ApplyUpdate := {
  au_State : State;
  au_Block : Block;
  au_SiacoinElements : list (SiacoinElement * bool);
  au_SiafundElements : list (SiafundElement * bool);
  au_proof : StateElement -> list Hash256 }.

Record RevertUpdate := {
  ru_State : State;
  ru_Block : Block;
  ru_SiacoinElements : list (SiacoinElement * bool);
  ru_SiafundElements : list (SiafundElement * bool);
  ru_proof : StateElement -> list Hash256 }.

Definition setProof (e : StateElement) (p : list Hash256) : StateElement :=
  {| ID := ID e; LeafIndex := LeafIndex e; MerkleProof := p |}.
Definition au_UpdateElementProof (cau : ApplyUpdate) (e : StateElement) : StateElement :=
  setProof e (au_proof cau e).
Definition ru_UpdateElementProof (cru : RevertUpdate) (e : StateElement) : StateElement :=
  setProof e (ru_proof cru e).

Definition sce_refresh (f : StateElement -> StateElement) (ele : SiacoinElement)
    : SiacoinElement :=
  {| sce_StateElement := f (sce_StateElement ele);
     sce_SiacoinOutput := sce_SiacoinOutput ele;
     MaturityHeight := MaturityHeight ele |}.
Definition sfe_refresh (f : StateElement -> StateElement) (ele : SiafundElement)
    : SiafundElement :=
  {| sfe_StateElement := f (sfe_StateElement ele);
     sfe_SiafundOutput := sfe_SiafundOutput ele;
     ClaimStart := ClaimStart ele |}.

(** What [AppliedEvents] can do with its [relevant] callback: ask about
    addresses, one after the other, and in the end give its events. *)
Inductive EventQuery :=
| Events (evs : list Event)
| Relevant (addr : Address) (k : bool -> EventQuery).

(** Code the sources call and do not contain: the hashes of [core/types]
    and the event extractor [AppliedEvents] of this package. *)
Class Env := {
  Block_ID : Block -> BlockID;
  txn_SiacoinOutputID : Transaction -> nat -> SiacoinOutputID;
  txn_SiafundOutputID : Transaction -> nat -> SiafundOutputID;
  AppliedEvents : State -> Block -> ApplyUpdate -> EventQuery }.

(** *** The store transactions *)

(** A call of a store method, with its arguments. *)
Inductive Call :=
| CSiacoinStateElements
| CUpdateSiacoinStateElements (l : list StateElement)
| CSiafundStateElements
| CUpdateSiafundStateElements (l : list StateElement)
| CAddSiacoinElements (l : list SiacoinElement)
| CRemoveSiacoinElements (l : list SiacoinOutputID)
| CAddSiafundElements (l : list SiafundElement)
| CRemoveSiafundElements (l : list SiafundOutputID)
| CMaturedSiacoinElements (index : ChainIndex)
| CAddressRelevant (addr : Address)
| CAddressBalance (addr : Address)
| CUpdateBalances (l : list AddrBalance)
| CAddEvents (l : list Event)
| CRevertEvents (index : ChainIndex).

(** The interfaces [UpdateTx], [ApplyTx] and [RevertTx], over the state [S]
    of the store behind them. A method returns its value or its error, and
    the store as it leaves it. *)
Record UpdateTx (S : Type) := {
  SiacoinStateElements : S -> (error + list StateElement) * S;
  UpdateSiacoinStateElements : list StateElement -> S -> option error * S;
  SiafundStateElements : S -> (error + list StateElement) * S;
  UpdateSiafundStateElements : list StateElement -> S -> option error * S;
  AddSiacoinElements : list SiacoinElement -> S -> option error * S;
  RemoveSiacoinElements : list SiacoinOutputID -> S -> option error * S;
  AddSiafundElements : list SiafundElement -> S -> option error * S;
  RemoveSiafundElements : list SiafundOutputID -> S -> option error * S;
  MaturedSiacoinElements : ChainIndex -> S -> (error + list SiacoinElement) * S;
  AddressRelevant : Address -> S -> (error + bool) * S;
  AddressBalance : Address -> S -> (error + Balance) * S;
  UpdateBalances : list AddrBalance -> S -> option error * S }.
Arguments SiacoinStateElements {S} _ _.
Arguments UpdateSiacoinStateElements {S} _ _ _.
Arguments SiafundStateElements {S} _ _.
Arguments UpdateSiafundStateElements {S} _ _ _.
Arguments AddSiacoinElements {S} _ _ _.
Arguments RemoveSiacoinElements {S} _ _ _.
Arguments AddSiafundElements {S} _ _ _.
Arguments RemoveSiafundElements {S} _ _ _.
Arguments MaturedSiacoinElements {S} _ _ _.
Arguments AddressRelevant {S} _ _ _.
Arguments AddressBalance {S} _ _ _.
Arguments UpdateBalances {S} _ _ _.

Record ApplyTx (S : Type) := {
  apply_UpdateTx :> UpdateTx S;
  AddEvents : list Event -> S -> option error * S }.
Arguments apply_UpdateTx {S} _.
Arguments AddEvents {S} _ _ _.

Record RevertTx (S : Type) := {
  revert_UpdateTx :> UpdateTx S;
  RevertEvents : ChainIndex -> S -> option error * S }.
Arguments revert_UpdateTx {S} _.
Arguments RevertEvents {S} _ _ _.

(** *** Computations on a store

    A computation takes the store and gives its outcome, the store as it
    leaves it, and the calls it made with the error each returned. *)
Definition errorOf {A} (r : error + A) : option error :=
  match r with inl e => Some e | inr _ => None end.

Definition M (S A : Type) : Type := S -> outcome A * S * list (Call * option error).

Definition ret {S A} (a : A) : M S A := fun s => (Val a, s, []).
Definition bind {S A B} (m : M S A) (f : A -> M S B) : M S B :=
  fun s =>
    match m s with
    | (Val a, s1, t1) => let '(o, s2, t2) := f a s1 in (o, s2, t1 ++ t2)
    | (Err e, s1, t1) => (Err e, s1, t1)
    | (Panic p, s1, t1) => (Panic p, s1, t1)
    end.
(** [return err] out of the function, and [panic(v)]. *)
Definition fail {S A} (e : error) : M S A := fun s => (Err e, s, []).
Definition panic {S A} (v : error) : M S A := fun s => (Panic v, s, []).
(** A pure step that may panic. *)
Definition lift {S A} (o : outcome A) : M S A := fun s => (o, s, []).
(** A method that returns a value and an error. *)
Definition callV {S A} (c : Call) (f : S -> (error + A) * S) : M S (error + A) :=
  fun s => let '(r, s1) := f s in (Val r, s1, [(c, errorOf r)]).
(** A method that returns an error only. *)
Definition callE {S} (c : Call) (f : S -> option error * S) : M S (option error) :=
  fun s => let '(r, s1) := f s in (Val r, s1, [(c, r)]).

#[global] Instance M_ret {S} : MRet (M S) := fun A a => ret a.
#[global] Instance M_bind {S} : MBind (M S) := fun A B f m => bind m f.

(** [if err != nil { return fmt.Errorf(msg + ": %w", err) }] *)
Definition orReturn {S A} (msg : string) (r : error + A) : M S A :=
  match r with
  | inl err => fail (wrapError msg err)
  | inr a => ret a
  end.
Definition orReturnE {S} (msg : string) (r : option error) : M S unit :=
  match r with
  | Some err => fail (wrapError msg err)
  | None => ret tt
  end.

(** A [for ... range] loop over a slice, or a [ForEach...] callback run on
    each element, threading the variables it assigns. *)
Fixpoint forEach {S A V} (body : V -> A -> M S V) (l : list A) (v : V) : M S V :=
  match l with
  | [] => ret v
  | a :: l => v ← body v a; forEach body l v
  end.

(** *** Ephemeral elements *)
Section ephemeral.
Context `{Env}.

(** One round of the loop over [Block.Transactions], on [created] and
    [ephemeral]. *)
Definition markTransaction (ce : gmap N bool * gmap N bool) (txn : Transaction)
    : gmap N bool * gmap N bool :=
  let '(created, ephemeral) := ce in
  let created :=
    foldl (fun c i => <[txn_SiacoinOutputID txn i := true]> c) created
          (seq 0 (length (SiacoinOutputs txn))) in
  let ephemeral :=
    foldl (fun e input => <[sci_ParentID input := getb created (sci_ParentID input)]> e)
          ephemeral (SiacoinInputs txn) in
  let created :=
    foldl (fun c i => <[txn_SiafundOutputID txn i := true]> c) created
          (seq 0 (length (SiafundOutputs txn))) in
  let ephemeral :=
    foldl (fun e input => <[sfi_ParentID input := getb created (sfi_ParentID input)]> e)
          ephemeral (SiafundInputs txn) in
  (created, ephemeral).

Definition ephemeralElements (b : Block) : gmap N bool :=
  snd (foldl markTransaction (∅, ∅) (Transactions b)).
End ephemeral.

(** *** ApplyChainUpdates and RevertChainUpdate *)

Definition setSiacoins (b : Balance) (v : Currency) : Balance :=
  {| Siacoins := v; ImmatureSiacoins := ImmatureSiacoins b; Siafunds := Siafunds b |}.
Definition setImmatureSiacoins (b : Balance) (v : Currency) : Balance :=
  {| Siacoins := Siacoins b; ImmatureSiacoins := v; Siafunds := Siafunds b |}.
Definition setSiafunds (b : Balance) (v : uint64) : Balance :=
  {| Siacoins := Siacoins b; ImmatureSiacoins := ImmatureSiacoins b; Siafunds := v |}.

Definition scAddr (se : SiacoinElement) : Address := sco_Address (sce_SiacoinOutput se).
Definition scValue (se : SiacoinElement) : Currency := sco_Value (sce_SiacoinOutput se).
Definition sfAddr (se : SiafundElement) : Address := sfo_Address (sfe_SiafundOutput se).
Definition sfValue (se : SiafundElement) : uint64 := sfo_Value (sfe_SiafundOutput se).

(** The functions the closures hand to [updateBalance]; each assigns the
    fields of [*b] in the order of the source. *)

(** apply, a matured element *)
Definition applyMaturedFn (se : SiacoinElement) (b : Balance) : outcome Balance :=
  im ← Currency_Sub (ImmatureSiacoins b) (scValue se);
  let b := setImmatureSiacoins b im in
  sc ← Currency_Add (Siacoins b) (scValue se);
  Val (setSiacoins b sc).

(** apply, a siacoin element at height [height] *)
Definition applySiacoinFn (height : uint64) (se : SiacoinElement) (spent : bool)
    (b : Balance) : outcome Balance :=
  if decide (height < MaturityHeight se) then
    im ← Currency_Add (ImmatureSiacoins b) (scValue se); Val (setImmatureSiacoins b im)
  else if spent then
    sc ← Currency_Sub (Siacoins b) (scValue se); Val (setSiacoins b sc)
  else
    sc ← Currency_Add (Siacoins b) (scValue se); Val (setSiacoins b sc).

(** apply, a siafund element *)
Definition applySiafundFn (se : SiafundElement) (spent : bool) (b : Balance)
    : outcome Balance :=
  if spent then
    if decide (Siafunds b < sfValue se)
    then Panic (errorString "negative siafund balance")
    else Val (setSiafunds b (sub64 (Siafunds b) (sfValue se)))
  else Val (setSiafunds b (add64 (Siafunds b) (sfValue se))).

(** revert, a matured element *)
Definition revertMaturedFn (se : SiacoinElement) (b : Balance) : outcome Balance :=
  im ← Currency_Add (ImmatureSiacoins b) (scValue se);
  let b := setImmatureSiacoins b im in
  sc ← Currency_Sub (Siacoins b) (scValue se);
  Val (setSiacoins b sc).

(** revert, a siacoin element; [height] is that of the state reverted to *)
Definition revertSiacoinFn (height : uint64) (se : SiacoinElement) (spent : bool)
    (b : Balance) : outcome Balance :=
  if decide (height < MaturityHeight se) then
    im ← Currency_Sub (ImmatureSiacoins b) (scValue se); Val (setImmatureSiacoins b im)
  else if spent then
    sc ← Currency_Add (Siacoins b) (scValue se); Val (setSiacoins b sc)
  else
    sc ← Currency_Sub (Siacoins b) (scValue se); Val (setSiacoins b sc).

(** revert, a siafund element: plain [uint64] arithmetic *)
Definition revertSiafundFn (se : SiafundElement) (spent : bool) (b : Balance)
    : outcome Balance :=
  if spent then Val (setSiafunds b (add64 (Siafunds b) (sfValue se)))
  else Val (setSiafunds b (sub64 (Siafunds b) (sfValue se))).

(** The variables of [ApplyChainUpdates] that live across the batch. *)
Record batch := {
  events : list Event;
  balances : gmap N Balance;
  newSiacoinElements : gmap N SiacoinElement;
  newSiafundElements : gmap N SiafundElement;
  spentSiacoinElements : gmap N bool;
  spentSiafundElements : gmap N bool;
  siacoinStateElements : list StateElement;
  siafundStateElements : list StateElement }.

Definition toBalanceChanges (balances : gmap N Balance) : list AddrBalance :=
  (fun ab => {| ab_Address := ab.1; ab_Balance := ab.2 |}) <$> map_to_list balances.

Section update.
Context `{Env} {S : Type}.

(** The closure [updateBalance], on the map [balances] it captures. It
    returns its error and leaves the map as it is when the store fails. *)
Definition updateBalance (tx : UpdateTx S) (balances : gmap N Balance)
    (addr : Address) (fn : Balance -> outcome Balance)
    : M S (option error * gmap N Balance) :=
  match balances !! addr with
  | Some balance =>
      balance ← lift (fn balance);
      mret (None, <[addr := balance]> balances)
  | None =>
      r ← callV (CAddressBalance addr) (AddressBalance tx addr);
      match r with
      | inl err =>
          mret (Some (wrapError "failed to get address balance" err), balances)
      | inr balance =>
          balance ← lift (fn balance);
          mret (None, <[addr := balance]> balances)
      end
  end.

(** The loop over the matured elements, of apply and of revert. *)
Definition maturedElement (tx : UpdateTx S)
    (fn : SiacoinElement -> Balance -> outcome Balance)
    (balances : gmap N Balance) (se : SiacoinElement) : M S (gmap N Balance) :=
  '(err, balances) ← updateBalance tx balances (scAddr se) (fn se);
  match err with
  | Some err => fail (wrapError "failed to update address balance" err)
  | None => mret balances
  end.

(** The callback given to [cau.ForEachSiacoinElement]. *)
Definition applySiacoinElement (tx : UpdateTx S) (ephemeral : gmap N bool)
    (height : uint64)
    (v : gmap N Balance * gmap N SiacoinElement * gmap N bool * option error)
    (x : SiacoinElement * bool)
    : M S (gmap N Balance * gmap N SiacoinElement * gmap N bool * option error) :=
  let '(balances, newSiacoinElements, spentSiacoinElements, siacoinElementErr) := v in
  let '(se, spent) := x in
  let id := ID (sce_StateElement se) in
  if siacoinElementErr is Some _ then mret v
  else if getb ephemeral id then mret v
  else
    r ← callV (CAddressRelevant (scAddr se)) (AddressRelevant tx (scAddr se));
    match r with
    | inl err =>
        mret (balances, newSiacoinElements, spentSiacoinElements,
              Some (wrapError "failed to check if address is relevant" err))
    | inr false => mret v
    | inr true =>
        let '(newSiacoinElements, spentSiacoinElements) :=
          if spent
          then (delete id newSiacoinElements, <[id := true]> spentSiacoinElements)
          else (<[id := se]> newSiacoinElements, spentSiacoinElements) in
        '(err, balances) ←
          updateBalance tx balances (scAddr se) (applySiacoinFn height se spent);
        match err with
        | Some err =>
            mret (balances, newSiacoinElements, spentSiacoinElements,
                  Some (wrapError "failed to update address balance" err))
        | None =>
            mret (balances, newSiacoinElements, spentSiacoinElements, None)
        end
    end.

(** The callback given to [cau.ForEachSiafundElement]. *)
Definition applySiafundElement (tx : UpdateTx S) (ephemeral : gmap N bool)
    (v : gmap N Balance * gmap N SiafundElement * gmap N bool * option error)
    (x : SiafundElement * bool)
    : M S (gmap N Balance * gmap N SiafundElement * gmap N bool * option error) :=
  let '(balances, newSiafundElements, spentSiafundElements, siafundElementErr) := v in
  let '(se, spent) := x in
  let id := ID (sfe_StateElement se) in
  if siafundElementErr is Some _ then mret v
  else if getb ephemeral id then mret v
  else
    r ← callV (CAddressRelevant (sfAddr se)) (AddressRelevant tx (sfAddr se));
    match r with
    | inl err =>
        mret (balances, newSiafundElements, spentSiafundElements,
              Some (wrapError "failed to check if address is relevant" err))
    | inr false => mret v
    | inr true =>
        let '(newSiafundElements, spentSiafundElements) :=
          if spent
          then (delete id newSiafundElements, <[id := true]> spentSiafundElements)
          else (<[id := se]> newSiafundElements, spentSiafundElements) in
        '(err, balances) ←
          updateBalance tx balances (sfAddr se) (applySiafundFn se spent);
        match err with
        | Some err =>
            mret (balances, newSiafundElements, spentSiafundElements,
                  Some (wrapError "failed to update address balance" err))
        | None =>
            mret (balances, newSiafundElements, spentSiafundElements, None)
        end
    end.

(** [AppliedEvents] run with the closure [relevant], which asks the store
    and panics on its error. *)
Fixpoint runEventQuery (tx : UpdateTx S) (q : EventQuery) : M S (list Event) :=
  match q with
  | Events evs => mret evs
  | Relevant addr k =>
      r ← callV (CAddressRelevant addr) (AddressRelevant tx addr);
      match r with
      | inl err => panic (wrapError "failed to check if address is relevant" err)
      | inr relevant => runEventQuery tx (k relevant)
      end
  end.

(** The body of the loop over [updates]. *)
Definition applyUpdate (tx : UpdateTx S) (v : batch) (cau : ApplyUpdate) : M S batch :=
  let index := Index (au_State cau) in
  r ← callV (CMaturedSiacoinElements index) (MaturedSiacoinElements tx index);
  matured ← orReturn "failed to get matured siacoin elements" r;
  balances ← forEach (maturedElement tx applyMaturedFn) matured (balances v);
  let ephemeral := ephemeralElements (au_Block cau) in
  '(balances, newSiacoinElements, spentSiacoinElements, siacoinElementErr) ←
    forEach (applySiacoinElement tx ephemeral (Height index))
      (au_SiacoinElements cau)
      (balances, newSiacoinElements v, spentSiacoinElements v, None);
  match siacoinElementErr with
  | Some err => fail (wrapError "failed to add siacoin elements" err)
  | None => mret tt
  end;;
  '(balances, newSiafundElements, spentSiafundElements, siafundElementErr) ←
    forEach (applySiafundElement tx ephemeral)
      (au_SiafundElements cau)
      (balances, newSiafundElements v, spentSiafundElements v, None);
  (* [siafundElementErr] is not read again. The [err] the source tests
     next is the one declared with [matured], which is nil here. *)
  evs ← runEventQuery tx (AppliedEvents (au_State cau) (au_Block cau) cau);
  let refresh := au_UpdateElementProof cau in
  mret {| events := events v ++ evs;
          balances := balances;
          newSiacoinElements := sce_refresh refresh <$> newSiacoinElements;
          newSiafundElements := sfe_refresh refresh <$> newSiafundElements;
          spentSiacoinElements := spentSiacoinElements;
          spentSiafundElements := spentSiafundElements;
          siacoinStateElements := refresh <$> siacoinStateElements v;
          siafundStateElements := refresh <$> siafundStateElements v |}.

(** The writes at the end of [ApplyChainUpdates]. A [range] over a Go map
    visits it in an unspecified order; [map_to_list] fixes one. *)
Definition flush (tx : ApplyTx S) (v : batch) : M S unit :=
  let balanceChanges := toBalanceChanges (balances v) in
  r ← callE (CUpdateBalances balanceChanges) (UpdateBalances tx balanceChanges);
  orReturnE "failed to update address balance" r;;
  let siacoinElements := (map_to_list (newSiacoinElements v)).*2 in
  r ← callE (CAddSiacoinElements siacoinElements) (AddSiacoinElements tx siacoinElements);
  orReturnE "failed to add siacoin elements" r;;
  let siacoinOutputIDs := (map_to_list (spentSiacoinElements v)).*1 in
  r ← callE (CRemoveSiacoinElements siacoinOutputIDs)
            (RemoveSiacoinElements tx siacoinOutputIDs);
  orReturnE "failed to remove siacoin elements" r;;
  let siafundElements := (map_to_list (newSiafundElements v)).*2 in
  r ← callE (CAddSiafundElements siafundElements) (AddSiafundElements tx siafundElements);
  orReturnE "failed to add siafund elements" r;;
  let siafundOutputIDs := (map_to_list (spentSiafundElements v)).*1 in
  r ← callE (CRemoveSiafundElements siafundOutputIDs)
            (RemoveSiafundElements tx siafundOutputIDs);
  orReturnE "failed to remove siafund elements" r;;
  r ← callE (CAddEvents (events v)) (AddEvents tx (events v));
  orReturnE "failed to add events" r;;
  let filteredStateElements :=
    filter (fun se => spentSiacoinElements v !! ID se = None) (siacoinStateElements v) in
  r ← callE (CUpdateSiacoinStateElements filteredStateElements)
            (UpdateSiacoinStateElements tx filteredStateElements);
  orReturnE "failed to update siacoin state elements" r;;
  let filteredStateElements :=
    filter (fun se => spentSiafundElements v !! ID se = None) (siafundStateElements v) in
  r ← callE (CUpdateSiafundStateElements filteredStateElements)
            (UpdateSiafundStateElements tx filteredStateElements);
  orReturnE "failed to update siafund state elements" r.

(** The reads at the start and the loop over the updates. *)
Definition gather (tx : UpdateTx S) (updates : list ApplyUpdate) : M S batch :=
  r ← callV CSiacoinStateElements (SiacoinStateElements tx);
  siacoinStateElements ← orReturn "failed to get siacoin state elements" r;
  r ← callV CSiafundStateElements (SiafundStateElements tx);
  siafundStateElements ← orReturn "failed to get siafund state elements" r;
  forEach (applyUpdate tx) updates
    {| events := []; balances := ∅;
       newSiacoinElements := ∅; newSiafundElements := ∅;
       spentSiacoinElements := ∅; spentSiafundElements := ∅;
       siacoinStateElements := siacoinStateElements;
       siafundStateElements := siafundStateElements |}.

Definition ApplyChainUpdates (tx : ApplyTx S) (updates : list ApplyUpdate) : M S unit :=
  v ← gather tx updates;
  flush tx v.

(** The callback given to [cru.ForEachSiacoinElement]. *)
Definition revertSiacoinElement (tx : UpdateTx S) (ephemeral : gmap N bool)
    (height : uint64)
    (v : gmap N Balance * list SiacoinElement * list SiacoinOutputID * option error)
    (x : SiacoinElement * bool)
    : M S (gmap N Balance * list SiacoinElement * list SiacoinOutputID * option error) :=
  let '(balances, addedSiacoinElements, deletedSiacoinElements, siacoinElementErr) := v in
  let '(se, spent) := x in
  let id := ID (sce_StateElement se) in
  if siacoinElementErr is Some _ then mret v
  else
    r ← callV (CAddressRelevant (scAddr se)) (AddressRelevant tx (scAddr se));
    match r with
    | inl err =>
        mret (balances, addedSiacoinElements, deletedSiacoinElements,
              Some (wrapError "failed to check if address is relevant" err))
    | inr false => mret v
    | inr true =>
        if getb ephemeral id then mret v
        else
          let '(addedSiacoinElements, deletedSiacoinElements) :=
            if spent
            then (addedSiacoinElements ++ [se], deletedSiacoinElements)
            else (addedSiacoinElements, deletedSiacoinElements ++ [id]) in
          '(err, balances) ←
            updateBalance tx balances (scAddr se) (revertSiacoinFn height se spent);
          mret (balances, addedSiacoinElements, deletedSiacoinElements, err)
    end.

(** The callback given to [cru.ForEachSiafundElement]. On an error of
    [AddressRelevant] it assigns [siacoinElementErr], not
    [siafundElementErr]. *)
Definition revertSiafundElement (tx : UpdateTx S) (ephemeral : gmap N bool)
    (v : gmap N Balance * list SiafundElement * list SiafundOutputID
         * option error * option error)
    (x : SiafundElement * bool)
    : M S (gmap N Balance * list SiafundElement * list SiafundOutputID
           * option error * option error) :=
  let '(balances, addedSiafundElements, deletedSiafundElements,
        siacoinElementErr, siafundElementErr) := v in
  let '(se, spent) := x in
  let id := ID (sfe_StateElement se) in
  if siafundElementErr is Some _ then mret v
  else
    r ← callV (CAddressRelevant (sfAddr se)) (AddressRelevant tx (sfAddr se));
    match r with
    | inl err =>
        mret (balances, addedSiafundElements, deletedSiafundElements,
              Some (wrapError "failed to check if address is relevant" err),
              siafundElementErr)
    | inr false => mret v
    | inr true =>
        if getb ephemeral id then mret v
        else
          let '(addedSiafundElements, deletedSiafundElements) :=
            if spent
            then (addedSiafundElements ++ [se], deletedSiafundElements)
            else (addedSiafundElements, deletedSiafundElements ++ [id]) in
          '(err, balances) ←
            updateBalance tx balances (sfAddr se) (revertSiafundFn se spent);
          mret (balances, addedSiafundElements, deletedSiafundElements,
                siacoinElementErr, err)
    end.

Definition revertedIndexOf (cru : RevertUpdate) : ChainIndex :=
  {| Height := add64 (Height (Index (ru_State cru))) 1;
     ci_ID := Block_ID (ru_Block cru) |}.

Definition RevertChainUpdate (tx : RevertTx S) (cru : RevertUpdate) : M S unit :=
  let ephemeral := ephemeralElements (ru_Block cru) in
  let revertedIndex := revertedIndexOf cru in
  r ← callV (CMaturedSiacoinElements revertedIndex)
            (MaturedSiacoinElements tx revertedIndex);
  matured ← orReturn "failed to get matured siacoin elements" r;
  balances ← forEach (maturedElement tx revertMaturedFn) matured ∅;
  '(balances, addedSiacoinElements, deletedSiacoinElements, siacoinElementErr) ←
    forEach (revertSiacoinElement tx ephemeral (Height (Index (ru_State cru))))
      (ru_SiacoinElements cru) (balances, [], [], None);
  match siacoinElementErr with
  | Some err => fail (wrapError "failed to update address balance" err)
  | None => mret tt
  end;;
  '(balances, addedSiafundElements, deletedSiafundElements,
    siacoinElementErr, siafundElementErr) ←
    forEach (revertSiafundElement tx ephemeral)
      (ru_SiafundElements cru) (balances, [], [], siacoinElementErr, None);
  match siafundElementErr with
  | Some err => fail (wrapError "failed to update address balance" err)
  | None => mret tt
  end;;
  let balanceChanges := toBalanceChanges balances in
  r ← callE (CUpdateBalances balanceChanges) (UpdateBalances tx balanceChanges);
  orReturnE "failed to update address balance" r;;
  r ← callE (CAddSiacoinElements addedSiacoinElements)
            (AddSiacoinElements tx addedSiacoinElements);
  orReturnE "failed to add siacoin elements" r;;
  r ← callE (CRemoveSiacoinElements deletedSiacoinElements)
            (RemoveSiacoinElements tx deletedSiacoinElements);
  orReturnE "failed to remove siacoin elements" r;;
  r ← callV CSiacoinStateElements (SiacoinStateElements tx);
  siacoinElements ← orReturn "failed to get siacoin state elements" r;
  (* the proofs are updated in this slice, which is not used again *)
  let siacoinElements := ru_UpdateElementProof cru <$> siacoinElements in
  r ← callE (CAddSiafundElements addedSiafundElements)
            (AddSiafundElements tx addedSiafundElements);
  orReturnE "failed to add siafund elements" r;;
  r ← callE (CRemoveSiafundElements deletedSiafundElements)
            (RemoveSiafundElements tx deletedSiafundElements);
  orReturnE "failed to remove siafund elements" r;;
  r ← callV CSiafundStateElements (SiafundStateElements tx);
  siafundElements ← orReturn "failed to get siafund state elements" r;
  let siafundElements := ru_UpdateElementProof cru <$> siafundElements in
  r ← callE (CRevertEvents revertedIndex) (RevertEvents tx revertedIndex);
  match r with
  | Some err => fail err
  | None => mret tt
  end.
End update.

End wallet.

(** ** A store and a wallet manager to run the code on *)
Module memstore.
Import wallet.

#[global] Instance ChainIndex_eq_dec : EqDecision ChainIndex.
Proof. solve_decision. Defined.

(** Modelled from the spec: the store behind [UpdateTx], [ApplyTx] and
    [RevertTx] (persist/sqlite) is not among the sources. This is the store
    contract of the specification, section 4.1, in memory: the tracked
    state elements are those of the stored outputs; [Update...StateElements]
    replaces the proofs of ids that exist and fails on another;
    [MaturedSiacoinElements] gives the outputs whose maturity height is that
    of the index; an unknown address has the zero balance; [UpdateBalances]
    overwrites; [RevertEvents] deletes the events at the index. *)
Record Store := {
  relevant : list Address;
  balanceRows : gmap N Balance;
  siacoinRows : gmap N SiacoinElement;
  siafundRows : gmap N SiafundElement;
  eventRows : list Event }.

(** Assignments to one table of the store. *)
Definition setBalanceRows (s : Store) (m : gmap N Balance) : Store :=
  {| relevant := relevant s; balanceRows := m; siacoinRows := siacoinRows s;
     siafundRows := siafundRows s; eventRows := eventRows s |}.
Definition setSiacoinRows (s : Store) (m : gmap N SiacoinElement) : Store :=
  {| relevant := relevant s; balanceRows := balanceRows s; siacoinRows := m;
     siafundRows := siafundRows s; eventRows := eventRows s |}.
Definition setSiafundRows (s : Store) (m : gmap N SiafundElement) : Store :=
  {| relevant := relevant s; balanceRows := balanceRows s; siacoinRows := siacoinRows s;
     siafundRows := m; eventRows := eventRows s |}.
Definition setEventRows (s : Store) (l : list Event) : Store :=
  {| relevant := relevant s; balanceRows := balanceRows s; siacoinRows := siacoinRows s;
     siafundRows := siafundRows s; eventRows := l |}.

Definition errNotTracked : error := errorString "state element not found".

(** Modelled from the spec: [SiacoinStateElements] and [SiafundStateElements]
    of the absent store give the state elements of the stored outputs. *)
Definition memSiacoinStateElements (s : Store) : (error + list StateElement) * Store :=
  (inr (sce_StateElement <$> (map_to_list (siacoinRows s)).*2), s).
Definition memSiafundStateElements (s : Store) : (error + list StateElement) * Store :=
  (inr (sfe_StateElement <$> (map_to_list (siafundRows s)).*2), s).

(** Modelled from the spec: [Update...StateElements] of the absent store
    replaces the state element of each id given, and ids must exist. *)
Definition memUpdateSiacoinStateElements (l : list StateElement) (s : Store)
    : option error * Store :=
  if forallb (fun se => bool_decide (is_Some (siacoinRows s !! ID se))) l
  then (None, setSiacoinRows s
                (foldl (fun m se => alter (sce_refresh (fun _ => se)) (ID se) m)
                       (siacoinRows s) l))
  else (Some errNotTracked, s).
Definition memUpdateSiafundStateElements (l : list StateElement) (s : Store)
    : option error * Store :=
  if forallb (fun se => bool_decide (is_Some (siafundRows s !! ID se))) l
  then (None, setSiafundRows s
                (foldl (fun m se => alter (sfe_refresh (fun _ => se)) (ID se) m)
                       (siafundRows s) l))
  else (Some errNotTracked, s).

(** Modelled from the spec: [Add...Elements] and [Remove...Elements] of the
    absent store insert rows by id and delete the rows of the ids. *)
Definition memAddSiacoinElements (l : list SiacoinElement) (s : Store)
    : option error * Store :=
  (None, setSiacoinRows s
           (foldl (fun m ele => <[ID (sce_StateElement ele) := ele]> m) (siacoinRows s) l)).
Definition memRemoveSiacoinElements (l : list SiacoinOutputID) (s : Store)
    : option error * Store :=
  (None, setSiacoinRows s (foldl (fun m id => delete id m) (siacoinRows s) l)).
Definition memAddSiafundElements (l : list SiafundElement) (s : Store)
    : option error * Store :=
  (None, setSiafundRows s
           (foldl (fun m ele => <[ID (sfe_StateElement ele) := ele]> m) (siafundRows s) l)).
Definition memRemoveSiafundElements (l : list SiafundOutputID) (s : Store)
    : option error * Store :=
  (None, setSiafundRows s (foldl (fun m id => delete id m) (siafundRows s) l)).

(** Modelled from the spec: the reads of the absent store, by maturity
    height, by membership of the registered addresses, and of the balance
    row (zero when there is none); [UpdateBalances] overwrites rows;
    [AddEvents] appends and [RevertEvents] deletes the events of the index. *)
Definition memMaturedSiacoinElements (index : ChainIndex) (s : Store)
    : (error + list SiacoinElement) * Store :=
  (inr (filter (fun ele => MaturityHeight ele = Height index)
               (map_to_list (siacoinRows s)).*2), s).
Definition memAddressRelevant (addr : Address) (s : Store) : (error + bool) * Store :=
  (inr (bool_decide (addr ∈ relevant s)), s).
Definition memAddressBalance (addr : Address) (s : Store) : (error + Balance) * Store :=
  (inr (default zeroBalance (balanceRows s !! addr)), s).
Definition memUpdateBalances (l : list AddrBalance) (s : Store) : option error * Store :=
  (None, setBalanceRows s
           (foldl (fun m ab => <[ab_Address ab := ab_Balance ab]> m) (balanceRows s) l)).
Definition memAddEvents (l : list Event) (s : Store) : option error * Store :=
  (None, setEventRows s (eventRows s ++ l)).
Definition memRevertEvents (index : ChainIndex) (s : Store) : option error * Store :=
  (None, setEventRows s (filter (fun ev => ev_Index ev <> index) (eventRows s))).

(** Modelled from the spec: the three transactions of the absent store. *)
Definition memUpdateTx : UpdateTx Store :=
  {| SiacoinStateElements := memSiacoinStateElements;
     UpdateSiacoinStateElements := memUpdateSiacoinStateElements;
     SiafundStateElements := memSiafundStateElements;
     UpdateSiafundStateElements := memUpdateSiafundStateElements;
     AddSiacoinElements := memAddSiacoinElements;
     RemoveSiacoinElements := memRemoveSiacoinElements;
     AddSiafundElements := memAddSiafundElements;
     RemoveSiafundElements := memRemoveSiafundElements;
     MaturedSiacoinElements := memMaturedSiacoinElements;
     AddressRelevant := memAddressRelevant;
     AddressBalance := memAddressBalance;
     UpdateBalances := memUpdateBalances |}.
Definition memApplyTx : ApplyTx Store :=
  {| apply_UpdateTx := memUpdateTx; AddEvents := memAddEvents |}.
Definition memRevertTx : RevertTx Store :=
  {| revert_UpdateTx := memUpdateTx; RevertEvents := memRevertEvents |}.

(** A store whose [AddressRelevant] fails as long as a budget of faults
    lasts, and that is [tx] otherwise. *)
Definition errBusy : error := errorString "database is locked".

(** A method of [tx] run on the store next to the budget. *)
Definition onStore {S A} (f : S -> A * S) (sn : S * nat) : A * (S * nat) :=
  let '(r, s) := f sn.1 in (r, (s, sn.2)).

(** [tx] with the faults injected into [AddressRelevant]. *)
Definition faultyUpdateTx {S} (tx : UpdateTx S) : UpdateTx (S * nat) :=
  {| SiacoinStateElements := onStore (SiacoinStateElements tx);
     UpdateSiacoinStateElements := fun l => onStore (UpdateSiacoinStateElements tx l);
     SiafundStateElements := onStore (SiafundStateElements tx);
     UpdateSiafundStateElements := fun l => onStore (UpdateSiafundStateElements tx l);
     AddSiacoinElements := fun l => onStore (AddSiacoinElements tx l);
     RemoveSiacoinElements := fun l => onStore (RemoveSiacoinElements tx l);
     AddSiafundElements := fun l => onStore (AddSiafundElements tx l);
     RemoveSiafundElements := fun l => onStore (RemoveSiafundElements tx l);
     MaturedSiacoinElements := fun i => onStore (MaturedSiacoinElements tx i);
     AddressRelevant := fun addr sn =>
       match sn.2 with
       | O => onStore (AddressRelevant tx addr) sn
       | Datatypes.S n => (inl errBusy, (sn.1, n))
       end;
     AddressBalance := fun addr => onStore (AddressBalance tx addr);
     UpdateBalances := fun l => onStore (UpdateBalances tx l) |}.
Definition faultyApplyTx {S} (tx : ApplyTx S) : ApplyTx (S * nat) :=
  {| apply_UpdateTx := faultyUpdateTx tx;
     AddEvents := fun l => onStore (AddEvents tx l) |}.
Definition faultyRevertTx {S} (tx : RevertTx S) : RevertTx (S * nat) :=
  {| revert_UpdateTx := faultyUpdateTx tx;
     RevertEvents := fun i => onStore (RevertEvents tx i) |}.

End memstore.

Module manager.
Import api.

(** Modelled from the spec: [wallet.Manager] is not among the sources. Of
    the specification, section 4.5: [AddWallet] assigns the id and the
    timestamps and fails only on an error of its store; the reads of the
    unspent outputs are paginated by [offset] and [limit]. *)
Record State := {
  storeError : option error;
  clock : N;
  nextID : N;
  wallets : list Wallet;
  siacoinOutputs : N -> list SiacoinElement;
  siafundOutputs : N -> list SiafundElement }.

(** Modelled from the spec: [AddWallet] of the absent [wallet.Manager]
    assigns id and timestamps and fails only on a store error. *)
Definition AddWallet (w : Wallet) (st : State) : (error + Wallet) * State :=
  match storeError st with
  | Some err => (inl err, st)
  | None =>
      let w := {| w_ID := nextID st; w_Name := w_Name w;
                  w_Description := w_Description w;
                  w_DateCreated := clock st; w_LastUpdated := clock st;
                  w_Metadata := w_Metadata w |} in
      (inr w, {| storeError := storeError st; clock := clock st;
                 nextID := nextID st + 1; wallets := wallets st ++ [w];
                 siacoinOutputs := siacoinOutputs st;
                 siafundOutputs := siafundOutputs st |})
  end.

(** Modelled from the spec: the paginated reads of the absent
    [wallet.Manager] give [limit] outputs from [offset] on. *)
Definition page {A} (offset limit : Z) (l : list A) : list A :=
  take (Z.to_nat limit) (drop (Z.to_nat offset) l).

Definition UnspentSiacoinOutputs (id : N) (offset limit : Z) (st : State)
    : error + list SiacoinElement :=
  inr (page offset limit (siacoinOutputs st id)).
Definition UnspentSiafundOutputs (id : N) (offset limit : Z) (st : State)
    : error + list SiafundElement :=
  inr (page offset limit (siafundOutputs st id)).

(** Modelled from the spec: the absent [wallet.Manager] behind the
    [WalletManager] interface of the handlers. *)
Definition walletManager : WalletManager State :=
  {| api.AddWallet := AddWallet;
     api.UnspentSiacoinOutputs := UnspentSiacoinOutputs;
     api.UnspentSiafundOutputs := UnspentSiafundOutputs |}.

End manager.

(** ** Concrete chains and stores *)
Module examples.
Import wallet memstore.

Fixpoint askAll (addrs : list Address) (acc : list Address)
    (k : list Address -> EventQuery) : EventQuery :=
  match addrs with
  | [] => k acc
  | addr :: addrs =>
      Relevant addr (fun r => askAll addrs (if r then acc ++ [addr] else acc) k)
  end.

(** Stand-ins for the hashes, and an extractor that asks about the address
    of every element of the update and gives one event for the block when
    one of them is relevant. *)
#[global] Instance env : Env :=
  {| Block_ID := fun b => ParentID b + 1;
     txn_SiacoinOutputID := fun txn i => 1000 * txn_Rest txn + N.of_nat i;
     txn_SiafundOutputID := fun txn i => 1000 * txn_Rest txn + 500 + N.of_nat i;
     AppliedEvents := fun cs b cau =>
       askAll ((fun x => scAddr x.1) <$> au_SiacoinElements cau)
              [] (fun l1 =>
       askAll ((fun x => sfAddr x.1) <$> au_SiafundElements cau)
              l1 (fun l2 =>
       Events (if l2 is [] then []
               else [{| ev_ID := ParentID b + 1; ev_Index := Index cs;
                        ev_Timestamp := Timestamp b; ev_Relevant := l2;
                        ev_Data := 0 |}]))) |}.

Definition addrA : Address := 1.

Definition emptyBlock (parent : BlockID) : Block :=
  {| ParentID := parent; Timestamp := 0; Transactions := []; V2 := None |}.

(** The revert update of the block of [cau], back to the index [parent],
    with [proof] to take the Merkle proofs back. *)
Definition revertOf (cau : ApplyUpdate) (parent : ChainIndex)
    (proof : StateElement -> list Hash256) : RevertUpdate :=
  {| ru_State := {| Index := parent |};
     ru_Block := au_Block cau;
     ru_SiacoinElements := au_SiacoinElements cau;
     ru_SiafundElements := au_SiafundElements cau;
     ru_proof := proof |}.

(** A store that tracks one output of [addrA], and a block that touches no
    address of the wallet: only the Merkle proofs move. *)
Definition tracked : SiacoinElement :=
  {| sce_StateElement := {| ID := 10; LeafIndex := 0; MerkleProof := [100] |};
     sce_SiacoinOutput := {| sco_Value := 5; sco_Address := addrA |};
     MaturityHeight := 0 |}.

Definition store1 : Store :=
  {| relevant := [addrA];
     balanceRows := {[ addrA := {| Siacoins := 5; ImmatureSiacoins := 0; Siafunds := 0 |} ]};
     siacoinRows := {[ 10 := tracked ]};
     siafundRows := ∅;
     eventRows := [] |}.

Definition quietUpdate : ApplyUpdate :=
  {| au_State := {| Index := {| Height := 1; ci_ID := 1 |} |};
     au_Block := emptyBlock 0;
     au_SiacoinElements := [];
     au_SiafundElements := [];
     au_proof := fun e => 7 :: MerkleProof e |}.

Definition quietRevert : RevertUpdate :=
  revertOf quietUpdate {| Height := 0; ci_ID := 0 |} (fun e => tail (MerkleProof e)).

(** A block that creates a siafund output of one siafund for [addrA], seen
    by a store that took [addrA] in after the block was applied. *)
Definition fundOutput : SiafundElement :=
  {| sfe_StateElement := {| ID := 20; LeafIndex := 3; MerkleProof := [] |};
     sfe_SiafundOutput := {| sfo_Value := 1; sfo_Address := addrA |};
     ClaimStart := 0 |}.

Definition fundBlock : Block :=
  {| ParentID := 0; Timestamp := 0;
     Transactions :=
       [{| SiacoinInputs := []; SiacoinOutputs := [];
           SiafundInputs :=
             [{| sfi_ParentID := 19; sfi_UnlockConditions := noUnlockConditions;
                 sfi_ClaimAddress := 2 |}];
           SiafundOutputs := [{| sfo_Value := 1; sfo_Address := addrA |}];
           txn_Rest := 0 |}];
     V2 := None |}.

Definition fundUpdate : ApplyUpdate :=
  {| au_State := {| Index := {| Height := 1; ci_ID := 1 |} |};
     au_Block := fundBlock;
     au_SiacoinElements := [];
     au_SiafundElements := [(fundOutput, false)];
     au_proof := MerkleProof |}.

Definition fundRevert : RevertUpdate :=
  revertOf fundUpdate {| Height := 0; ci_ID := 0 |} MerkleProof.

Definition store2 : Store :=
  {| relevant := [addrA]; balanceRows := ∅; siacoinRows := ∅; siafundRows := ∅;
     eventRows := [] |}.


(** A block whose two v2 transactions create and spend output 30 of
    [addrA]; the update lists it once, as spent. *)
Definition v2Output : SiacoinElement :=
  {| sce_StateElement := {| ID := 30; LeafIndex := 0; MerkleProof := [] |};
     sce_SiacoinOutput := {| sco_Value := 10; sco_Address := addrA |};
     MaturityHeight := 0 |}.

Definition v2Block : Block :=
  {| ParentID := 0; Timestamp := 0; Transactions := [];
     V2 := Some
       [{| v2_SiacoinInputs := [];
           v2_SiacoinOutputs := [(30, {| sco_Value := 10; sco_Address := addrA |})];
           v2_SiafundInputs := []; v2_SiafundOutputs := [] |};
        {| v2_SiacoinInputs := [v2Output]; v2_SiacoinOutputs := [];
           v2_SiafundInputs := []; v2_SiafundOutputs := [] |}] |}.

Definition v2Update : ApplyUpdate :=
  {| au_State := {| Index := {| Height := 1; ci_ID := 1 |} |};
     au_Block := v2Block;
     au_SiacoinElements := [(v2Output, true)];
     au_SiafundElements := [];
     au_proof := MerkleProof |}.

Definition store3 : Store :=
  {| relevant := [addrA];
     balanceRows :=
       {[ addrA := {| Siacoins := 100; ImmatureSiacoins := 0; Siafunds := 0 |} ]};
     siacoinRows := ∅; siafundRows := ∅; eventRows := [] |}.

(** A store that tracks the siafund output 20 of [addrA], and a block whose
    transaction spends it to an address that is not of the wallet. *)
Definition store4 : Store :=
  {| relevant := [addrA];
     balanceRows := {[ addrA := {| Siacoins := 0; ImmatureSiacoins := 0; Siafunds := 1 |} ]};
     siacoinRows := ∅;
     siafundRows := {[ 20 := fundOutput ]};
     eventRows := [] |}.

Definition spendBlock : Block :=
  {| ParentID := 1; Timestamp := 0;
     Transactions :=
       [{| SiacoinInputs := []; SiacoinOutputs := [];
           SiafundInputs :=
             [{| sfi_ParentID := 20; sfi_UnlockConditions := noUnlockConditions;
                 sfi_ClaimAddress := addrA |}];
           SiafundOutputs := [{| sfo_Value := 1; sfo_Address := 2 |}];
           txn_Rest := 3 |}];
     V2 := None |}.

Definition spendUpdate : ApplyUpdate :=
  {| au_State := {| Index := {| Height := 2; ci_ID := 2 |} |};
     au_Block := spendBlock;
     au_SiacoinElements := [];
     au_SiafundElements := [(fundOutput, true)];
     au_proof := fun e => 7 :: MerkleProof e |}.

(** The same for the tracked siacoin output 10 of [store1]. *)
Definition spendCoinUpdate : ApplyUpdate :=
  {| au_State := {| Index := {| Height := 2; ci_ID := 2 |} |};
     au_Block := emptyBlock 1;
     au_SiacoinElements := [(tracked, true)];
     au_SiafundElements := [];
     au_proof := fun e => 7 :: MerkleProof e |}.

(** [memApplyTx] behind a registry of addresses that the transaction does
    not see as part of the store: [AddressRelevant] answers for the one
    address [addrA] of the wallet. *)
Definition walletUpdateTx : UpdateTx Store :=
  {| SiacoinStateElements := memSiacoinStateElements;
     UpdateSiacoinStateElements := memUpdateSiacoinStateElements;
     SiafundStateElements := memSiafundStateElements;
     UpdateSiafundStateElements := memUpdateSiafundStateElements;
     AddSiacoinElements := memAddSiacoinElements;
     RemoveSiacoinElements := memRemoveSiacoinElements;
     AddSiafundElements := memAddSiafundElements;
     RemoveSiafundElements := memRemoveSiafundElements;
     MaturedSiacoinElements := memMaturedSiacoinElements;
     AddressRelevant := fun addr s => (inr (bool_decide (addr = addrA)), s);
     AddressBalance := memAddressBalance;
     UpdateBalances := memUpdateBalances |}.
Definition walletApplyTx : ApplyTx Store :=
  {| apply_UpdateTx := walletUpdateTx; AddEvents := memAddEvents |}.

(** The same output created and spent by two v1 transactions. *)
Definition v1Creator : Transaction :=
  {| SiacoinInputs := []; 
     SiacoinOutputs := [{| sco_Value := 10; sco_Address := addrA |}];
     SiafundInputs := []; SiafundOutputs := []; txn_Rest := 7 |}.
Definition v1Spender : Transaction :=
  {| SiacoinInputs :=
       [{| sci_ParentID := 7000; sci_UnlockConditions := noUnlockConditions |}];
     SiacoinOutputs := []; SiafundInputs := []; SiafundOutputs := []; txn_Rest := 8 |}.
Definition v1Block : Block :=
  {| ParentID := 0; Timestamp := 0; Transactions := [v1Creator; v1Spender];
     V2 := None |}.

End examples.

(** ** The notions the properties of the funding engine are stated with *)
Module fundingSpec.
Import api.

(** An output is a funding candidate when it is neither reserved in [used]
    nor spent by a siacoin input of a pool transaction. *)
Definition scSpentInPool (pool : list Transaction) (id : Hash256) : Prop :=
  Exists (fun ptxn => Exists (fun i => sci_ParentID i = id) (SiacoinInputs ptxn)) pool.
Definition sfSpentInPool (pool : list Transaction) (id : Hash256) : Prop :=
  Exists (fun ptxn => Exists (fun i => sfi_ParentID i = id) (SiafundInputs ptxn)) pool.

Definition scCandidate (used : gmap N bool) (pool : list Transaction)
    (sce : SiacoinElement) : Prop :=
  getb used (ID (sce_StateElement sce)) = false /\
  ~ scSpentInPool pool (ID (sce_StateElement sce)).
Definition sfCandidate (used : gmap N bool) (pool : list Transaction)
    (sfe : SiafundElement) : Prop :=
  getb used (ID (sfe_StateElement sfe)) = false /\
  ~ sfSpentInPool pool (ID (sfe_StateElement sfe)).

#[global] Instance scCandidate_dec used pool sce : Decision (scCandidate used pool sce).
Proof. unfold scCandidate, scSpentInPool. apply _. Defined.
#[global] Instance sfCandidate_dec used pool sfe : Decision (sfCandidate used pool sfe).
Proof. unfold sfCandidate, sfSpentInPool. apply _. Defined.

(** The worth of a list of outputs. *)
Definition scTotal (l : list SiacoinElement) : N :=
  foldr (fun sce acc => sco_Value (sce_SiacoinOutput sce) + acc) 0 l.

(** The id of an output, and the input a funding closure appends for it. *)
Definition scID (sce : SiacoinElement) : Hash256 := ID (sce_StateElement sce).
Definition sfID (sfe : SiafundElement) : Hash256 := ID (sfe_StateElement sfe).

Definition scInputOf (id : Hash256) : SiacoinInput :=
  {| sci_ParentID := id; sci_UnlockConditions := noUnlockConditions |}.
Definition sfInputOf (claimAddr : Address) (id : Hash256) : SiafundInput :=
  {| sfi_ParentID := id; sfi_UnlockConditions := noUnlockConditions;
     sfi_ClaimAddress := claimAddr |}.

(** [used] with [ids] marked. *)
Definition reserve (used : gmap N bool) (ids : list Hash256) : gmap N bool :=
  foldl (fun u id => <[id := true]> u) used ids.

(** A call of one of the two funding closures, with its arguments, and its
    run on the reservation map. *)
Inductive FundCall :=
| Fund (shuffle : list SiacoinElement -> list SiacoinElement) (txn : Transaction)
       (amount : Currency) (utxos : list SiacoinElement) (changeAddr : Address)
       (pool : list Transaction)
| FundSF (shuffle : list SiafundElement -> list SiafundElement) (txn : Transaction)
         (amount : uint64) (utxos : list SiafundElement) (changeAddr claimAddr : Address)
         (pool : list Transaction).

Definition runFund (used : gmap N bool) (c : FundCall) : FundResult :=
  match c with
  | Fund shuffle txn amount utxos changeAddr pool =>
      fundTxn shuffle used txn amount utxos changeAddr pool
  | FundSF shuffle txn amount utxos changeAddr claimAddr pool =>
      fundTxnSF shuffle used txn amount utxos changeAddr claimAddr pool
  end.

(** The inputs of the transaction the call leaves are those it was given
    and then one input for each id of [toSign], in order. *)
Definition inputsAppended (c : FundCall) (toSign : list Hash256) (after : Transaction)
    : Prop :=
  match c with
  | Fund _ txn _ _ _ _ =>
      SiacoinInputs after = SiacoinInputs txn ++ (scInputOf <$> toSign) /\
      SiafundInputs after = SiafundInputs txn
  | FundSF _ txn _ _ _ claimAddr _ =>
      SiafundInputs after = SiafundInputs txn ++ (sfInputOf claimAddr <$> toSign) /\
      SiacoinInputs after = SiacoinInputs txn
  end.

(** The selection in the words of the specification: take candidates in the
    order of the list until their sum is at least [amount]. *)
Fixpoint greedyFrom (amount sum : N) (cands : list SiacoinElement)
    : list SiacoinElement :=
  match cands with
  | [] => []
  | c :: rest =>
      c :: (if decide (amount <= sum + sco_Value (sce_SiacoinOutput c)) then []
            else greedyFrom amount (sum + sco_Value (sce_SiacoinOutput c)) rest)
  end.
Definition greedy (amount : N) (cands : list SiacoinElement) : list SiacoinElement :=
  greedyFrom amount 0 cands.

(** The worth of a list of siafund outputs. *)
Definition sfTotal (l : list SiafundElement) : N :=
  foldr (fun sfe acc => sfo_Value (sfe_SiafundOutput sfe) + acc) 0 l.

(** A wallet of [n] outputs worth one each. *)
Definition unitSiacoinOutputs (n : nat) : list SiacoinElement :=
  (fun i => {| sce_StateElement :=
                 {| ID := N.of_nat i; LeafIndex := N.of_nat i; MerkleProof := [] |};
               sce_SiacoinOutput := {| sco_Value := 1; sco_Address := 1 |};
               MaturityHeight := 0 |}) <$> seq 1 n.
Definition unitSiafundOutputs (n : nat) : list SiafundElement :=
  (fun i => {| sfe_StateElement :=
                 {| ID := N.of_nat i; LeafIndex := N.of_nat i; MerkleProof := [] |};
               sfe_SiafundOutput := {| sfo_Value := 1; sfo_Address := 1 |};
               ClaimStart := 0 |}) <$> seq 1 n.

(** A manager whose every wallet holds 1001 outputs worth one each, an
    empty transaction and a chain manager with an empty pool. *)
Definition bigWallet : manager.State :=
  {| manager.storeError := None; manager.clock := 0; manager.nextID := 1;
     manager.wallets := [];
     manager.siacoinOutputs := fun _ => unitSiacoinOutputs 1001;
     manager.siafundOutputs := fun _ => unitSiafundOutputs 1001 |}.

Definition emptyTransaction : Transaction :=
  {| SiacoinInputs := []; SiacoinOutputs := []; SiafundInputs := [];
     SiafundOutputs := []; txn_Rest := 0 |}.

Definition emptyPool : ChainManager :=
  {| PoolTransactions := []; UnconfirmedParents := fun _ => [] |}.

(** An output of address 1. *)
Definition exOutput (id value : N) : SiacoinElement :=
  {| sce_StateElement := {| ID := id; LeafIndex := id; MerkleProof := [] |};
     sce_SiacoinOutput := {| sco_Value := value; sco_Address := 1 |};
     MaturityHeight := 0 |}.

(** Three outputs, of which 12 is reserved; the pool spends an output that
    is not of the wallet; the shuffle reverses the list. *)
Definition exUtxos : list SiacoinElement :=
  [exOutput 11 30; exOutput 12 25; exOutput 13 50].
Definition exUsed : gmap N bool := {[ 12 := true ]}.
Definition exPool : list Transaction :=
  [{| SiacoinInputs := [scInputOf 14]; SiacoinOutputs := []; SiafundInputs := [];
      SiafundOutputs := []; txn_Rest := 0 |}].
Definition exCall : FundCall := Fund reverse emptyTransaction 60 exUtxos 9 exPool.

(** The wallet [walletsHandlerPOST] builds: every field at its zero value. *)
Definition blankWallet : Wallet :=
  {| w_ID := 0; w_Name := EmptyString; w_Description := EmptyString; w_DateCreated := 0;
     w_LastUpdated := 0; w_Metadata := EmptyString |}.

End fundingSpec.

(** ** The notions the properties of the applier and the reverter are stated with *)
Module updateSpec.
Import wallet.

(** The calls, the outcome and the store of a run. *)
Definition traceOf {S A} (r : outcome A * S * list (Call * option error))
    : list (Call * option error) := r.2.
Definition outcomeOf {S A} (r : outcome A * S * list (Call * option error))
    : outcome A := r.1.1.
Definition storeAfter {S A} (r : outcome A * S * list (Call * option error))
    : S := r.1.2.

(** Every call that [m] makes, from any store, satisfies [P]. *)
Definition callsOnly {S A} (P : Call -> Prop) (m : M S A) : Prop :=
  forall s, Forall (fun e => P e.1) (traceOf (m s)).

(** The methods that read the store. *)
Definition isRead (c : Call) : Prop :=
  match c with
  | CSiacoinStateElements | CSiafundStateElements | CMaturedSiacoinElements _
  | CAddressRelevant _ | CAddressBalance _ => True
  | _ => False
  end.

(** The name of the method called, and the order of the writes of a flush. *)
Definition methodOf (c : Call) : string :=
  match c with
  | CSiacoinStateElements => "SiacoinStateElements"
  | CUpdateSiacoinStateElements _ => "UpdateSiacoinStateElements"
  | CSiafundStateElements => "SiafundStateElements"
  | CUpdateSiafundStateElements _ => "UpdateSiafundStateElements"
  | CAddSiacoinElements _ => "AddSiacoinElements"
  | CRemoveSiacoinElements _ => "RemoveSiacoinElements"
  | CAddSiafundElements _ => "AddSiafundElements"
  | CRemoveSiafundElements _ => "RemoveSiafundElements"
  | CMaturedSiacoinElements _ => "MaturedSiacoinElements"
  | CAddressRelevant _ => "AddressRelevant"
  | CAddressBalance _ => "AddressBalance"
  | CUpdateBalances _ => "UpdateBalances"
  | CAddEvents _ => "AddEvents"
  | CRevertEvents _ => "RevertEvents"
  end.

Definition flushOrder : list string :=
  ["UpdateBalances"; "AddSiacoinElements"; "RemoveSiacoinElements";
   "AddSiafundElements"; "RemoveSiafundElements"; "AddEvents";
   "UpdateSiacoinStateElements"; "UpdateSiafundStateElements"].

(** The calls of a completed flush of the batch [v]. *)
Definition flushCalls (v : batch) : list Call :=
  [CUpdateBalances (toBalanceChanges (balances v));
   CAddSiacoinElements (map_to_list (newSiacoinElements v)).*2;
   CRemoveSiacoinElements (map_to_list (spentSiacoinElements v)).*1;
   CAddSiafundElements (map_to_list (newSiafundElements v)).*2;
   CRemoveSiafundElements (map_to_list (spentSiafundElements v)).*1;
   CAddEvents (events v);
   CUpdateSiacoinStateElements
     (filter (fun se => spentSiacoinElements v !! ID se = None) (siacoinStateElements v));
   CUpdateSiafundStateElements
     (filter (fun se => spentSiafundElements v !! ID se = None) (siafundStateElements v))].

(** When [m] returns a value, from any store, the value satisfies [Q]. *)
Definition ensures {S A} (Q : A -> Prop) (m : M S A) : Prop :=
  forall s a, outcomeOf (m s) = Val a -> Q a.

(** [m] makes the calls of [cs] in order, stops at the first that fails and
    returns its error, and does not panic. *)
Definition writesInOrder {S} (cs : list Call) (m : M S unit) : Prop :=
  forall s,
    (traceOf (m s)).*1 `prefix_of` cs /\
    (outcomeOf (m s) = Val tt -> (traceOf (m s)).*1 = cs) /\
    (forall p, outcomeOf (m s) <> Panic p).

(** The proofs of a list of state elements after the updates of a batch. *)
Definition refreshAll (updates : list ApplyUpdate) (l : list StateElement)
    : list StateElement :=
  foldl (fun l cau => au_UpdateElementProof cau <$> l) l updates.

(** The call does not add or remove the element [id]. *)
Definition leavesAlone (id : Hash256) (c : Call) : Prop :=
  match c with
  | CAddSiacoinElements l => id ∉ ((fun e => ID (sce_StateElement e)) <$> l)
  | CRemoveSiacoinElements l => id ∉ l
  | CAddSiafundElements l => id ∉ ((fun e => ID (sfe_StateElement e)) <$> l)
  | CRemoveSiafundElements l => id ∉ l
  | _ => True
  end.

(** The update lists an element [id]. *)
Definition mentions (cau : ApplyUpdate) (id : Hash256) : Prop :=
  id ∈ (fun x => ID (sce_StateElement x.1)) <$> au_SiacoinElements cau \/
  id ∈ (fun x => ID (sfe_StateElement x.1)) <$> au_SiafundElements cau.

(** Nothing pending names [id]: neither an element waiting to be added nor
    an id waiting to be removed. *)
Definition scPendingFree (id : Hash256) (new : gmap N SiacoinElement)
    (spent : gmap N bool) : Prop :=
  map_Forall (fun _ e => ID (sce_StateElement e) <> id) new /\ spent !! id = None.
Definition sfPendingFree (id : Hash256) (new : gmap N SiafundElement)
    (spent : gmap N bool) : Prop :=
  map_Forall (fun _ e => ID (sfe_StateElement e) <> id) new /\ spent !! id = None.
Definition batchFree (id : Hash256) (v : batch) : Prop :=
  scPendingFree id (newSiacoinElements v) (spentSiacoinElements v) /\
  sfPendingFree id (newSiafundElements v) (spentSiafundElements v).

Section blocks.
Context `{Env}.

(** [t] creates the output [id]; [t] spends the output [id]. *)
Definition createdBy (t : Transaction) (id : Hash256) : Prop :=
  (exists k, (k < length (SiacoinOutputs t))%nat /\ txn_SiacoinOutputID t k = id) \/
  (exists k, (k < length (SiafundOutputs t))%nat /\ txn_SiafundOutputID t k = id).
Definition spentBy (t : Transaction) (id : Hash256) : Prop :=
  (exists i, i ∈ SiacoinInputs t /\ sci_ParentID i = id) \/
  (exists i, i ∈ SiafundInputs t /\ sfi_ParentID i = id).

(** The output [id] is created by a v1 transaction of the block and spent by
    a later one. *)
Definition ephemeralV1 (b : Block) (id : Hash256) : Prop :=
  exists pre t1 mid t2 post,
    Transactions b = pre ++ t1 :: mid ++ t2 :: post /\
    createdBy t1 id /\ spentBy t2 id.

(** The same of the v2 transactions of the block. *)
Definition ephemeralV2 (b : Block) (id : Hash256) : Prop :=
  exists txns pre t1 mid t2 post,
    V2 b = Some txns /\ txns = pre ++ t1 :: mid ++ t2 :: post /\
    (id ∈ (v2_SiacoinOutputs t1).*1 \/ id ∈ (v2_SiafundOutputs t1).*1) /\
    (id ∈ (fun e => ID (sce_StateElement e)) <$> v2_SiacoinInputs t2 \/
     id ∈ (fun e => ID (sfe_StateElement e)) <$> v2_SiafundInputs t2).

(** The output [id] is created and spent inside the block. *)
Definition createdAndSpentInBlock (b : Block) (id : Hash256) : Prop :=
  ephemeralV1 b id \/ ephemeralV2 b id.

End blocks.

End updateSpec.

(** ** The notions the further properties of update.go are stated with *)
Module traceSpec.
Import wallet updateSpec.

(** [errors.Is]-style unwrapping: [e] is [inner] or wraps it, through any
    number of [fmt.Errorf("...: %w", ...)]. *)
Fixpoint wraps (inner e : error) : Prop :=
  e = inner \/
  match e with
  | errorString _ => False
  | wrapError _ e' => wraps inner e'
  end.

(** The queries about an address: [AddressRelevant] and [AddressBalance]. *)
Definition isAddressQuery (c : Call) : Prop :=
  match c with
  | CAddressRelevant _ | CAddressBalance _ => True
  | _ => False
  end.

(** No call of the trace failed, but for queries about an address. *)
Definition clean (t : list (Call * option error)) : Prop :=
  Forall (fun x => x.2 = None \/ isAddressQuery x.1) t.

(** The last call of the trace failed, with an error that [e] is or wraps,
    and before it no call failed but for queries about an address. *)
Definition stoppedAt (t : list (Call * option error)) (e : error) : Prop :=
  exists t' c err, t = t' ++ [(c, Some err)] /\ wraps err e /\ clean t'.

(** The variables of a loop after the calls [t]: no call has failed but for
    queries about an address, and the error variable, when set, is of the
    call made last. *)
Definition tracked (t : list (Call * option error)) (err : option error) : Prop :=
  clean t /\ forall e, err = Some e -> stoppedAt t e.

(** Run after the calls [t0], from any store, [m] leaves a trace and an
    outcome that satisfy [Q]. *)
Definition wp {S A} (m : M S A) (Q : list (Call * option error) -> outcome A -> Prop)
    (t0 : list (Call * option error)) : Prop :=
  forall s, Q (t0 ++ traceOf (m s)) (outcomeOf (m s)).

(** A postcondition by cases of the outcome. *)
Definition post {A} (QV : list (Call * option error) -> A -> Prop)
    (QE QP : list (Call * option error) -> error -> Prop)
    (t : list (Call * option error)) (o : outcome A) : Prop :=
  match o with
  | Val a => QV t a
  | Err e => QE t e
  | Panic p => QP t p
  end.

(** How a function deals with the errors of the store: when it returns an
    error, the call it made last had failed and the error is or wraps the
    error of that call; when it returns nil or panics, no call has failed
    but for queries about an address. *)
Definition propagates {A} (t : list (Call * option error)) (o : outcome A) : Prop :=
  match o with
  | Err e => stoppedAt t e
  | _ => clean t
  end.

(** The balance functions of the closures return a balance or panic. *)
Definition noErr {A} (fn : A -> outcome A) : Prop := forall b e, fn b <> Err e.

(** A balance whose fields fit their types. *)
Definition wfBalance (b : Balance) : Prop :=
  wfCurrency (Siacoins b) /\ wfCurrency (ImmatureSiacoins b) /\ Siafunds b < u64.

(** Every call of the trace is a read. *)
Definition readsOnly (t : list (Call * option error)) : Prop :=
  Forall (fun x => isRead x.1) t.

(** The calls of [RevertChainUpdate] from its first write on, and their
    methods. *)
Definition revertCalls `{Env} (cru : RevertUpdate) (balanceChanges : list AddrBalance)
    (addedSC : list SiacoinElement) (removedSC : list SiacoinOutputID)
    (addedSF : list SiafundElement) (removedSF : list SiafundOutputID) : list Call :=
  [CUpdateBalances balanceChanges;
   CAddSiacoinElements addedSC; CRemoveSiacoinElements removedSC;
   CSiacoinStateElements;
   CAddSiafundElements addedSF; CRemoveSiafundElements removedSF;
   CSiafundStateElements;
   CRevertEvents (revertedIndexOf cru)].

Definition revertOrder : list string :=
  ["UpdateBalances"; "AddSiacoinElements"; "RemoveSiacoinElements";
   "SiacoinStateElements"; "AddSiafundElements"; "RemoveSiafundElements";
   "SiafundStateElements"; "RevertEvents"].

(** Of the elements of an update, each with its [spent] flag: [added] holds
    only elements the block spent, and [removed] only ids of elements it
    created. *)
Definition reAdds {E} (elements : list (E * bool)) (added : list E) : Prop :=
  Forall (fun e => (e, true) ∈ elements) added.
Definition removesCreated {E} (idOf : E -> Hash256) (elements : list (E * bool))
    (removed : list Hash256) : Prop :=
  Forall (fun id => exists e, (e, false) ∈ elements /\ idOf e = id) removed.

(** After the reads [reads], the calls made are a prefix of [full], and all
    of [full] when the outcome is nil. *)
Definition seqPost (reads full : list Call) (t : list (Call * option error))
    (o : outcome unit) : Prop :=
  exists tail, t.*1 = reads ++ tail /\ tail `prefix_of` full /\ (o = Val tt -> tail = full).

(** The calls of a run of the reverter: reads, then the calls of
    [revertCalls] in order, all of them when it returns nil. *)
Definition revertShape `{Env} (cru : RevertUpdate) (t : list (Call * option error))
    (o : outcome unit) : Prop :=
  exists reads tail,
    t.*1 = reads ++ tail /\ Forall isRead reads /\
    methodOf <$> tail `prefix_of` revertOrder /\
    (o = Val tt ->
     exists balanceChanges addedSC removedSC addedSF removedSF,
       tail = revertCalls cru balanceChanges addedSC removedSC addedSF removedSF /\
       reAdds (ru_SiacoinElements cru) addedSC /\
       removesCreated (fun e => ID (sce_StateElement e)) (ru_SiacoinElements cru) removedSC /\
       reAdds (ru_SiafundElements cru) addedSF /\
       removesCreated (fun e => ID (sfe_StateElement e)) (ru_SiafundElements cru) removedSF).

(** The address of a successful [AddressBalance] call, and the addresses
    whose balance a run has read from the store, in order. *)
Definition balanceRead (x : Call * option error) : option Address :=
  match x with
  | (CAddressBalance addr, None) => Some addr
  | _ => None
  end.
Definition balanceReads (t : list (Call * option error)) : list Address :=
  omap balanceRead t.

(** The map [balances] holds exactly the addresses whose balance has been
    read from the store, each read once. *)
Definition cached (t : list (Call * option error)) (balances : gmap N Balance) : Prop :=
  balanceReads t ≡ₚ (map_to_list balances).*1.

Definition notBalanceCall (c : Call) : Prop :=
  match c with
  | CAddressBalance _ => False
  | _ => True
  end.

(** No balance is read twice; and a run that returns nil has called
    [UpdateBalances] with one row for each address whose balance it read. *)
Definition readOnce (t : list (Call * option error)) (o : outcome unit) : Prop :=
  NoDup (balanceReads t) /\
  (o = Val tt ->
   exists balanceChanges,
     CUpdateBalances balanceChanges ∈ t.*1 /\
     ab_Address <$> balanceChanges ≡ₚ balanceReads t).

(** The store answers [AddressRelevant addr] with true, in whatever state
    it is asked; and its two queries about an address never fail. *)
Definition answersRelevant {S} (tx : UpdateTx S) (addr : Address) : Prop :=
  forall s, (AddressRelevant tx addr s).1 = inr true.
Definition answersQueries {S} (tx : UpdateTx S) : Prop :=
  (forall addr s, exists b, (AddressRelevant tx addr s).1 = inr b) /\
  (forall addr s, exists b, (AddressBalance tx addr s).1 = inr b).

(** An update of the batch lists an element of id [id] as spent. *)
Definition scSpentInBatch (updates : list ApplyUpdate) (id : Hash256) : Prop :=
  exists cau se, cau ∈ updates /\ (se, true) ∈ au_SiacoinElements cau /\
                 ID (sce_StateElement se) = id.
Definition sfSpentInBatch (updates : list ApplyUpdate) (id : Hash256) : Prop :=
  exists cau se, cau ∈ updates /\ (se, true) ∈ au_SiafundElements cau /\
                 ID (sfe_StateElement se) = id.

(** The variables of the two element loops of apply: a loop that has not
    set its error holds [id] as spent; and: the loop has not set its error
    and holds [id] as spent. *)
Definition marked (id : Hash256) {E} (v : gmap N Balance * gmap N E * gmap N bool * option error)
    : Prop :=
  v.2 = None -> is_Some (v.1.2 !! id).
Definition markedNoError (id : Hash256) {E}
    (v : gmap N Balance * gmap N E * gmap N bool * option error) : Prop :=
  v.2 = None /\ is_Some (v.1.2 !! id).

End traceSpec.

(** ** Further handlers of api/server.go *)
Module server.
Import api.

(** [WalletReleaseRequest]. *)
Record WalletReleaseRequest := {
  wrr_SiacoinOutputs : list SiacoinOutputID;
  wrr_SiafundOutputs : list SiafundOutputID }.

(** [TxpoolBroadcastRequest]. *)
Record TxpoolBroadcastRequest := {
  tbr_Transactions : list Transaction;
  tbr_V2Transactions : list V2Transaction }.

(** What these handlers write: the decoder's own error reply, an error with
    its status code, or nothing. *)
Inductive Reply :=
| ReplyDecodeFailed
| ReplyError (e : error) (code : N)
| ReplyNothing.

(** [jc.Check(msg, err)] with an error: a reply of 500 with the wrapped
    error. *)
Definition replyCheck (msg : string) (e : error) : Reply :=
  ReplyError (wrapError msg e) 500.

(** [walletsReleaseHandler], on the server's [used] map. It runs with [s.mu]
    held. [decodeName] is [jc.DecodeParam("name", &name)] on the request;
    the name is not used. *)
Definition walletsReleaseHandler (decodeName : Context -> option string)
    (decodeRelease : string -> option WalletReleaseRequest)
    (jc : Context) (used : gmap N bool) : Reply * gmap N bool :=
  match decodeName jc with
  | None => (ReplyDecodeFailed, used)
  | Some name =>
      match decodeRelease (jc_body jc) with
      | None => (ReplyDecodeFailed, used)
      | Some wrr =>
          let used := foldl (fun u id => delete id u) used (wrr_SiacoinOutputs wrr) in
          let used := foldl (fun u id => delete id u) used (wrr_SiafundOutputs wrr) in
          (ReplyNothing, used)
      end
  end.

(** [WalletReserveRequest]; the duration is a [time.Duration]. *)
Record WalletReserveRequest := {
  wrsv_SiacoinOutputs : list SiacoinOutputID;
  wrsv_SiafundOutputs : list SiafundOutputID;
  wrsv_Duration : Z }.

(** [walletsReserveHandler], with the server's [used] map and the wallet
    manager's state; [reserve] is [s.wm.Reserve]. *)
Definition walletsReserveHandler {W} (reserve : list Hash256 -> Z -> W -> option error * W)
    (decodeReserve : string -> option WalletReserveRequest)
    (jc : Context) (used : gmap N bool) (st : W) : Reply * gmap N bool * W :=
  match decodeReserve (jc_body jc) with
  | None => (ReplyDecodeFailed, used, st)
  | Some wrr =>
      let ids := foldl (fun ids id => ids ++ [id]) [] (wrsv_SiacoinOutputs wrr) in
      let ids := foldl (fun ids id => ids ++ [id]) ids (wrsv_SiafundOutputs wrr) in
      match reserve ids (wrsv_Duration wrr) st with
      | (Some err, st) => (replyCheck "couldn't reserve outputs" err, used, st)
      | (None, st) => (ReplyNothing, used, st)
      end
  end.

(** The methods of the [ChainManager] interface that
    [txpoolBroadcastHandler] calls, over the manager's state [C];
    [TipIndex] is [TipState().Index]. *)
Record PoolManager (C : Type) := {
  TipIndex : C -> ChainIndex;
  AddPoolTransactions : list Transaction -> C -> (bool * option error) * C;
  AddV2PoolTransactions :
    ChainIndex -> list V2Transaction -> C -> (bool * option error) * C }.
Arguments TipIndex {C} _ _.
Arguments AddPoolTransactions {C} _ _ _.
Arguments AddV2PoolTransactions {C} _ _ _ _.

(** What the handler tells the syncer to relay. *)
Inductive Broadcast :=
| BroadcastTransactionSet (txns : list Transaction)
| BroadcastV2TransactionSet (index : ChainIndex) (txns : list V2Transaction).

(** [txpoolBroadcastHandler]: the reply, the chain manager after it, and the
    calls made on the syncer, in order. *)
Definition txpoolBroadcastHandler {C} (cm : PoolManager C)
    (decodeBroadcast : string -> option TxpoolBroadcastRequest)
    (jc : Context) (c : C) : Reply * C * list Broadcast :=
  match decodeBroadcast (jc_body jc) with
  | None => (ReplyDecodeFailed, c, [])
  | Some tbr =>
      let '(failed, c, sent) :=
        if decide (length (tbr_Transactions tbr) <> 0%nat) then
          match AddPoolTransactions cm (tbr_Transactions tbr) c with
          | (_, Some err, c) => (Some err, c, [])
          | (_, None, c) => (None, c, [BroadcastTransactionSet (tbr_Transactions tbr)])
          end
        else (None, c, []) in
      match failed with
      | Some err => (replyCheck "invalid transaction set" err, c, sent)
      | None =>
          if decide (length (tbr_V2Transactions tbr) <> 0%nat) then
            let index := TipIndex cm c in
            match AddV2PoolTransactions cm index (tbr_V2Transactions tbr) c with
            | (_, Some err, c) => (replyCheck "invalid v2 transaction set" err, c, sent)
            | (_, None, c) =>
                (ReplyNothing, c,
                 sent ++ [BroadcastV2TransactionSet index (tbr_V2Transactions tbr)])
            end
          else (ReplyNothing, c, sent)
      end
  end.

End server.

(** ** The notions the further properties of the funding closures are stated with *)
Module selectionSpec.
Import api fundingSpec.

(** The selection of siafund outputs: take candidates in the order of the
    list until their sum is at least [amount]. *)
Fixpoint sfGreedyFrom (amount sum : N) (cands : list SiafundElement)
    : list SiafundElement :=
  match cands with
  | [] => []
  | c :: rest =>
      c :: (if decide (amount <= sum + sfo_Value (sfe_SiafundOutput c)) then []
            else sfGreedyFrom amount (sum + sfo_Value (sfe_SiafundOutput c)) rest)
  end.
Definition sfGreedy (amount : N) (cands : list SiafundElement) : list SiafundElement :=
  sfGreedyFrom amount 0 cands.

(** The transaction a call was given. *)
Definition txnOf (c : FundCall) : Transaction :=
  match c with
  | Fund _ txn _ _ _ _ => txn
  | FundSF _ txn _ _ _ _ _ => txn
  end.

(** The ids of the outputs a call has to choose from, in the order in which
    it scans them. *)
Definition utxoIDs (c : FundCall) : list Hash256 :=
  match c with
  | Fund shuffle _ _ utxos _ _ => scID <$> shuffle utxos
  | FundSF shuffle _ _ utxos _ _ _ => sfID <$> shuffle utxos
  end.

(** The worth of a list of siacoin outputs of a transaction. *)
Definition outputsTotal (l : list SiacoinOutput) : N :=
  foldr (fun o acc => sco_Value o + acc) 0 l.

(** A siafund output of address 1. *)
Definition exFund (id value : N) : SiafundElement :=
  {| sfe_StateElement := {| ID := id; LeafIndex := id; MerkleProof := [] |};
     sfe_SiafundOutput := {| sfo_Value := value; sfo_Address := 1 |};
     ClaimStart := 0 |}.
Definition exFunds : list SiafundElement := [exFund 21 30; exFund 22 25; exFund 23 50].

End selectionSpec.

(** * Properties of the funding engine *)
Module funding.
Import api fundingSpec.

Lemma getb_insert_true (m : gmap N bool) (i j : N) :
  getb (<[i := true]> m) j = true <-> i = j \/ getb m j = true.
Proof.
  unfold getb. destruct (decide (i = j)) as [->|Hne].
  - rewrite lookup_insert_eq. naive_solver.
  - rewrite lookup_insert_ne by done. naive_solver.
Qed.

Lemma scInPool_inner (ins : list SiacoinInput) (m : gmap N bool) (id : N) :
  getb (foldl (fun m i => <[sci_ParentID i := true]> m) m ins) id = true <->
  getb m id = true \/ Exists (fun i => sci_ParentID i = id) ins.
Proof.
  revert m. induction ins as [|i ins IH]; intros m; simpl.
  - rewrite Exists_nil. tauto.
  - rewrite IH, getb_insert_true, Exists_cons. tauto.
Qed.

Lemma scInPool_acc (pool : list Transaction) (m : gmap N bool) (id : N) :
  getb (foldl (fun m ptxn =>
                 foldl (fun m i => <[sci_ParentID i := true]> m) m (SiacoinInputs ptxn))
              m pool) id = true <->
  getb m id = true \/ scSpentInPool pool id.
Proof.
  unfold scSpentInPool. revert m. induction pool as [|p pool IH]; intros m; simpl.
  - rewrite Exists_nil. tauto.
  - rewrite IH, scInPool_inner, Exists_cons. tauto.
Qed.

Lemma scInPool_spec (pool : list Transaction) (id : N) :
  getb (scInPool pool) id = true <-> scSpentInPool pool id.
Proof.
  unfold scInPool. rewrite scInPool_acc. unfold getb at 1.
  rewrite lookup_empty. simpl. naive_solver.
Qed.

Lemma sfInPool_inner (ins : list SiafundInput) (m : gmap N bool) (id : N) :
  getb (foldl (fun m i => <[sfi_ParentID i := true]> m) m ins) id = true <->
  getb m id = true \/ Exists (fun i => sfi_ParentID i = id) ins.
Proof.
  revert m. induction ins as [|i ins IH]; intros m; simpl.
  - rewrite Exists_nil. tauto.
  - rewrite IH, getb_insert_true, Exists_cons. tauto.
Qed.

Lemma sfInPool_acc (pool : list Transaction) (m : gmap N bool) (id : N) :
  getb (foldl (fun m ptxn =>
                 foldl (fun m i => <[sfi_ParentID i := true]> m) m (SiafundInputs ptxn))
              m pool) id = true <->
  getb m id = true \/ sfSpentInPool pool id.
Proof.
  unfold sfSpentInPool. revert m. induction pool as [|p pool IH]; intros m; simpl.
  - rewrite Exists_nil. tauto.
  - rewrite IH, sfInPool_inner, Exists_cons. tauto.
Qed.

Lemma sfInPool_spec (pool : list Transaction) (id : N) :
  getb (sfInPool pool) id = true <-> sfSpentInPool pool id.
Proof.
  unfold sfInPool. rewrite sfInPool_acc. unfold getb at 1.
  rewrite lookup_empty. simpl. naive_solver.
Qed.

(** The test of the scan loop is the negation of candidacy. *)
Lemma scSkip_spec used pool sce :
  getb used (scID sce) || getb (scInPool pool) (scID sce) = false <->
  scCandidate used pool sce.
Proof.
  unfold scCandidate, scID. rewrite orb_false_iff.
  rewrite <- scInPool_spec. destruct (getb (scInPool pool) _); naive_solver.
Qed.

Lemma sfSkip_spec used pool sfe :
  getb used (sfID sfe) || getb (sfInPool pool) (sfID sfe) = false <->
  sfCandidate used pool sfe.
Proof.
  unfold sfCandidate, sfID. rewrite orb_false_iff.
  rewrite <- sfInPool_spec. destruct (getb (sfInPool pool) _); naive_solver.
Qed.

Lemma scTotal_app l1 l2 : scTotal (l1 ++ l2) = scTotal l1 + scTotal l2.
Proof. induction l1 as [|x l1 IH]; simpl; [done|]. rewrite IH. lia. Qed.

Lemma scTotal_perm l1 l2 : l1 ≡ₚ l2 -> scTotal l1 = scTotal l2.
Proof. induction 1; simpl; lia. Qed.

Section scan.
Context (used : gmap N bool) (pool : list Transaction) (amount : N).

Local Abbreviation cand := (scCandidate used pool).

Lemma scScan_step_skip sce rest s0 f0 :
  ~ cand sce ->
  scScan used (scInPool pool) amount (sce :: rest) s0 f0 =
  scScan used (scInPool pool) amount rest s0 f0.
Proof.
  intros Hn. simpl.
  destruct (getb used _ || getb (scInPool pool) _) eqn:E; [done|].
  exfalso. apply Hn, scSkip_spec, E.
Qed.

Lemma scScan_step_take sce rest s0 f0 :
  cand sce ->
  scScan used (scInPool pool) amount (sce :: rest) s0 f0 =
  obind (Currency_Add s0 (sco_Value (sce_SiacoinOutput sce)))
    (fun s1 => if decide (amount <= s1) then Val (s1, f0 ++ [sce])
               else scScan used (scInPool pool) amount rest s1 (f0 ++ [sce])).
Proof.
  intros Hc. apply scSkip_spec in Hc. unfold scID in Hc. simpl. by rewrite Hc.
Qed.

(** What a completed scan has selected: the candidates of a prefix of the
    list, in order; their sum; the whole list when the sum stayed short;
    and no more than needed when it did not. *)
Lemma scScan_val utxos : forall s0 f0 s f,
  scScan used (scInPool pool) amount utxos s0 f0 = Val (s, f) ->
  exists k,
    f = f0 ++ filter cand (take k utxos) /\
    s = s0 + scTotal (filter cand (take k utxos)) /\
    (s < amount -> filter cand (take k utxos) = filter cand utxos) /\
    (s0 < amount -> amount <= s ->
     exists pre last, filter cand (take k utxos) = pre ++ [last] /\
                      s0 + scTotal pre < amount).
Proof.
  induction utxos as [|sce rest IH]; intros s0 f0 s f Hs.
  - simpl in Hs. injection Hs as <- <-. exists 0%nat. simpl.
    rewrite filter_nil, app_nil_r. simpl. split_and!; [done|lia|done|lia].
  - destruct (decide (cand sce)) as [Hc|Hn].
    + rewrite scScan_step_take in Hs by done.
      unfold Currency_Add in Hs. case_decide; simpl in Hs; [|done].
      case_decide.
      * injection Hs as <- <-. exists 1%nat. simpl. rewrite take_0.
        rewrite filter_cons_True by done. rewrite filter_nil. simpl.
        repeat split; [lia|lia|]. intros ? _. exists [], sce. simpl. split; [done|lia].
      * destruct (IH _ _ _ _ Hs) as (k & -> & -> & H3 & H4).
        exists (S k). simpl. rewrite !filter_cons_True by done. simpl.
        rewrite <- app_assoc. simpl. repeat split; [lia| |].
        -- intros Hlt. by rewrite H3.
        -- intros _ Hge. destruct H4 as (pre & last & Hsel & Hpre); [lia|lia|].
           exists (sce :: pre), last. rewrite Hsel. simpl. split; [done|lia].
    + rewrite scScan_step_skip in Hs by done.
      destruct (IH _ _ _ _ Hs) as (k & -> & -> & H3 & H4).
      exists (S k). simpl. rewrite !filter_cons_False by done. done.
Qed.

(** The scan never returns an error; it can only panic in [Currency.Add]. *)
Lemma scScan_no_err utxos : forall s0 f0 e,
  scScan used (scInPool pool) amount utxos s0 f0 <> Err e.
Proof.
  induction utxos as [|sce rest IH]; intros s0 f0 e; [done|].
  destruct (decide (cand sce)) as [Hc|Hn].
  - rewrite scScan_step_take by done. unfold Currency_Add.
    case_decide; simpl; [|done]. case_decide; [done|apply IH].
  - rewrite scScan_step_skip by done. apply IH.
Qed.

(** When the candidates do not add up to [amount], the scan takes all of
    them and completes. *)
Lemma scScan_short utxos : forall s0 f0,
  amount <= MaxCurrency ->
  s0 + scTotal (filter cand utxos) < amount ->
  scScan used (scInPool pool) amount utxos s0 f0 =
  Val (s0 + scTotal (filter cand utxos), f0 ++ filter cand utxos).
Proof.
  induction utxos as [|sce rest IH]; intros s0 f0 Hmax Hlt.
  - simpl. rewrite app_nil_r. f_equal. f_equal. lia.
  - destruct (decide (cand sce)) as [Hc|Hn].
    + rewrite scScan_step_take by done.
      rewrite filter_cons_True in * by done. simpl in *.
      unfold Currency_Add. rewrite decide_True by lia. simpl.
      rewrite decide_False by lia. rewrite IH by lia.
      rewrite <- app_assoc. simpl. f_equal. f_equal. lia.
    + rewrite scScan_step_skip by done.
      rewrite filter_cons_False in * by done. by apply IH.
Qed.

(** A scan that needs no more than [MaxCurrency] in all does not panic. *)
Lemma scScan_no_panic utxos : forall s0 f0,
  s0 + scTotal (filter cand utxos) <= MaxCurrency ->
  exists s f, scScan used (scInPool pool) amount utxos s0 f0 = Val (s, f).
Proof.
  induction utxos as [|sce rest IH]; intros s0 f0 Hmax.
  - simpl. eauto.
  - destruct (decide (cand sce)) as [Hc|Hn].
    + rewrite scScan_step_take by done.
      rewrite filter_cons_True in * by done. simpl in *.
      unfold Currency_Add. rewrite decide_True by lia. simpl.
      case_decide; [eauto|]. apply IH. lia.
    + rewrite scScan_step_skip by done.
      rewrite filter_cons_False in * by done. by apply IH.
Qed.
End scan.

(** *** The signing loop *)

Lemma getb_reserve used ids j :
  getb (reserve used ids) j = true <-> j ∈ ids \/ getb used j = true.
Proof.
  unfold reserve. revert used. induction ids as [|i ids IH]; intros used; simpl.
  - rewrite elem_of_nil. tauto.
  - rewrite IH, getb_insert_true, elem_of_cons. intuition congruence.
Qed.

Lemma scSign_fold sel : forall ts txn used,
  foldl scSign (ts, txn, used) sel =
  (ts ++ (scID <$> sel),
   setSiacoinInputs txn (SiacoinInputs txn ++ (scInputOf <$> (scID <$> sel))),
   reserve used (scID <$> sel)).
Proof.
  induction sel as [|sce sel IH]; intros ts txn used.
  - simpl. rewrite !app_nil_r. by destruct txn.
  - simpl. rewrite IH. simpl. by rewrite <- !app_assoc.
Qed.

Lemma sfSign_fold claimAddr sel : forall ts txn used,
  foldl (sfSign claimAddr) (ts, txn, used) sel =
  (ts ++ (sfID <$> sel),
   setSiafundInputs txn (SiafundInputs txn ++ (sfInputOf claimAddr <$> (sfID <$> sel))),
   reserve used (sfID <$> sel)).
Proof.
  induction sel as [|sfe sel IH]; intros ts txn used.
  - simpl. rewrite !app_nil_r. by destruct txn.
  - simpl. rewrite IH. simpl. by rewrite <- !app_assoc.
Qed.

(** What the siafund scan has selected: candidates of a prefix of the list. *)
Lemma sfScan_sel used pool amount utxos : forall s0 f0 s f,
  sfScan used (sfInPool pool) amount utxos s0 f0 = (s, f) ->
  exists k, f = f0 ++ filter (sfCandidate used pool) (take k utxos).
Proof.
  induction utxos as [|sfe rest IH]; intros s0 f0 s f Hs; simpl in Hs.
  - injection Hs as <- <-. exists 0%nat. simpl. by rewrite filter_nil, app_nil_r.
  - destruct (getb used _ || getb (sfInPool pool) _) eqn:E.
    + destruct (IH _ _ _ _ Hs) as (k & ->). exists (Datatypes.S k). simpl.
      rewrite filter_cons_False; [done|].
      intros Hc. apply sfSkip_spec in Hc. unfold sfID in Hc. congruence.
    + apply (sfSkip_spec used pool sfe) in E.
      case_decide.
      * injection Hs as <- <-. exists 1%nat. simpl. rewrite take_0.
        by rewrite filter_cons_True, filter_nil by done.
      * destruct (IH _ _ _ _ Hs) as (k & ->). exists (Datatypes.S k). simpl.
        rewrite filter_cons_True by done. by rewrite <- app_assoc.
Qed.

(** A successful siacoin funding: the ids signed for are those of selected
    candidates, they are what is reserved, and each has its input. *)
Lemma fundTxn_success shuffle used txn amount utxos changeAddr pool toSign :
  fr_ret (fundTxn shuffle used txn amount utxos changeAddr pool) = Val toSign ->
  exists sel,
    toSign = scID <$> sel /\
    Forall (scCandidate used pool) sel /\
    fr_used (fundTxn shuffle used txn amount utxos changeAddr pool) = reserve used toSign /\
    SiacoinInputs (fr_txn (fundTxn shuffle used txn amount utxos changeAddr pool)) =
      SiacoinInputs txn ++ (scInputOf <$> toSign) /\
    SiafundInputs (fr_txn (fundTxn shuffle used txn amount utxos changeAddr pool)) =
      SiafundInputs txn.
Proof.
  unfold fundTxn. destruct (Currency_IsZero amount).
  { simpl. intros [= <-]. exists []. simpl. by rewrite app_nil_r. }
  destruct (scScan used (scInPool pool) amount (shuffle utxos) 0 [])
    as [[s sel]|e|p] eqn:Hscan; simpl; [|done|done].
  apply scScan_val in Hscan as (k & -> & _ & _ & _). simpl.
  case_decide; simpl; [done|].
  assert (Hcand : Forall (scCandidate used pool)
                    (filter (scCandidate used pool) (take k (shuffle utxos)))).
  { apply Forall_forall. intros x Hx. by apply list_elem_of_filter in Hx as [? _]. }
  case_decide; [case_decide; [done|]|].
  - unfold Currency_Sub. case_decide; [|done].
    rewrite scSign_fold. simpl. intros [= <-]. eexists. split_and!; done.
  - rewrite scSign_fold. simpl. intros [= <-]. eexists. split_and!; done.
Qed.

Lemma fundTxnSF_success shuffle used txn amount utxos changeAddr claimAddr pool toSign :
  fr_ret (fundTxnSF shuffle used txn amount utxos changeAddr claimAddr pool) = Val toSign ->
  exists sel,
    toSign = sfID <$> sel /\
    Forall (sfCandidate used pool) sel /\
    fr_used (fundTxnSF shuffle used txn amount utxos changeAddr claimAddr pool)
      = reserve used toSign /\
    SiafundInputs (fr_txn (fundTxnSF shuffle used txn amount utxos changeAddr claimAddr pool)) =
      SiafundInputs txn ++ (sfInputOf claimAddr <$> toSign) /\
    SiacoinInputs (fr_txn (fundTxnSF shuffle used txn amount utxos changeAddr claimAddr pool)) =
      SiacoinInputs txn.
Proof.
  unfold fundTxnSF. destruct (bool_decide (amount = 0)).
  { simpl. intros [= <-]. exists []. simpl. by rewrite app_nil_r. }
  destruct (sfScan used (sfInPool pool) amount (shuffle utxos) 0 [])
    as [s sel] eqn:Hscan.
  apply sfScan_sel in Hscan as (k & ->). simpl.
  case_decide; simpl; [done|].
  assert (Hcand : Forall (sfCandidate used pool)
                    (filter (sfCandidate used pool) (take k (shuffle utxos)))).
  { apply Forall_forall. intros x Hx. by apply list_elem_of_filter in Hx as [? _]. }
  case_decide; [case_decide; [done|]|].
  - rewrite sfSign_fold. simpl. intros [= <-]. eexists. split_and!; done.
  - rewrite sfSign_fold. simpl. intros [= <-]. eexists. split_and!; done.
Qed.

(** *** The two funding endpoints as calls on the reservation map *)

Lemma runFund_success used c toSign :
  fr_ret (runFund used c) = Val toSign ->
  (forall id, id ∈ toSign -> getb used id = false) /\
  fr_used (runFund used c) = reserve used toSign /\
  inputsAppended c toSign (fr_txn (runFund used c)).
Proof.
  destruct c as [sh txn amount utxos ca pool|sh txn amount utxos ca cl pool]; simpl;
    intros Hret.
  - destruct (fundTxn_success _ _ _ _ _ _ _ _ Hret) as (sel & -> & Hc & Hu & Hi & Hf).
    split_and!; try done.
    intros id (sce & -> & Hin)%list_elem_of_fmap.
    rewrite Forall_forall in Hc. by destruct (Hc _ Hin).
  - destruct (fundTxnSF_success _ _ _ _ _ _ _ _ _ Hret) as (sel & -> & Hc & Hu & Hi & Hf).
    split_and!; try done.
    intros id (sfe & -> & Hin)%list_elem_of_fmap.
    rewrite Forall_forall in Hc. by destruct (Hc _ Hin).
Qed.

(** C10. A fund or fundsf call with amount zero returns a nil [toSign] and a
    nil error; the transaction has no input or output more and the
    reservation map is as it was. *)
Theorem zero_amount_is_noop :
  (forall shuffle used txn utxos changeAddr pool,
     fundTxn shuffle used txn 0 utxos changeAddr pool =
     {| fr_ret := Val []; fr_txn := txn; fr_used := used |}) /\
  (forall shuffle used txn utxos changeAddr claimAddr pool,
     fundTxnSF shuffle used txn 0 utxos changeAddr claimAddr pool =
     {| fr_ret := Val []; fr_txn := txn; fr_used := used |}).
Proof. split; reflexivity. Qed.

(** C5. A successful fund or fundsf call signs for no id that was reserved
    when it started, leaves every id it signs for reserved (and every id
    that was), and has appended one input for each of them; so a later
    successful call, which starts from reservations that still hold the ones
    this call left, returns none of its ids. *)
Theorem funding_reserves_what_it_signs (used : gmap N bool) (c : FundCall)
    (toSign : list Hash256) :
  fr_ret (runFund used c) = Val toSign ->
  (forall id, id ∈ toSign -> getb used id = false) /\
  (forall id, id ∈ toSign -> getb (fr_used (runFund used c)) id = true) /\
  (forall id, getb used id = true -> getb (fr_used (runFund used c)) id = true) /\
  inputsAppended c toSign (fr_txn (runFund used c)) /\
  (forall used2 c2 toSign2,
     (forall id, getb (fr_used (runFund used c)) id = true -> getb used2 id = true) ->
     fr_ret (runFund used2 c2) = Val toSign2 ->
     forall id, id ∈ toSign -> id ∉ toSign2).
Proof.
  intros Hret. destruct (runFund_success _ _ _ Hret) as (Hfree & Hused & Hin).
  assert (Hres : forall id, id ∈ toSign -> getb (fr_used (runFund used c)) id = true).
  { intros id Hid. rewrite Hused. apply getb_reserve. by left. }
  split_and!; try done.
  - intros id Hid. rewrite Hused. apply getb_reserve. by right.
  - intros used2 c2 toSign2 Hkept Hret2 id Hid Hid2.
    destruct (runFund_success _ _ _ Hret2) as (Hfree2 & _ & _).
    specialize (Hfree2 _ Hid2). specialize (Hkept _ (Hres _ Hid)). congruence.
Qed.

(** *** The siacoin funding contract *)

Lemma greedyFrom_prefix amount cands : forall sum,
  exists k, greedyFrom amount sum cands = take k cands.
Proof.
  induction cands as [|c rest IH]; intros sum; simpl.
  - by exists 0%nat.
  - case_decide.
    + exists 1%nat. simpl. by rewrite take_0.
    + destruct (IH (sum + sco_Value (sce_SiacoinOutput c))) as [k Hk].
      exists (Datatypes.S k). simpl. by rewrite Hk.
Qed.

Lemma greedyFrom_minimal amount cands : forall sum pre last,
  sum < amount ->
  greedyFrom amount sum cands = pre ++ [last] -> sum + scTotal pre < amount.
Proof.
  induction cands as [|c rest IH]; intros sum pre last Hsum; simpl.
  - by destruct pre.
  - case_decide as Hge.
    + destruct pre as [|p [|q pre]]; simpl; intros [= ]; lia.
    + destruct pre as [|p pre]; simpl.
      * intros [= -> Hnil]. lia.
      * intros [= -> Hrest]. apply IH in Hrest; lia.
Qed.

Lemma greedyFrom_short amount cands : forall sum,
  sum + scTotal (greedyFrom amount sum cands) < amount ->
  greedyFrom amount sum cands = cands.
Proof.
  induction cands as [|c rest IH]; intros sum; simpl; [done|].
  case_decide; simpl; [lia|]. intros Hlt. f_equal. apply IH. lia.
Qed.

(** The scan of the handler selects what the specification says, as long as
    the sum fits in a [Currency]. *)
Lemma scScan_greedy used pool amount utxos : forall s0 f0,
  s0 + scTotal (greedyFrom amount s0 (filter (scCandidate used pool) utxos))
    <= MaxCurrency ->
  scScan used (scInPool pool) amount utxos s0 f0 =
  Val (s0 + scTotal (greedyFrom amount s0 (filter (scCandidate used pool) utxos)),
       f0 ++ greedyFrom amount s0 (filter (scCandidate used pool) utxos)).
Proof.
  induction utxos as [|sce rest IH]; intros s0 f0 Hmax.
  - simpl. rewrite ?filter_nil. simpl. rewrite app_nil_r. do 2 f_equal. lia.
  - destruct (decide (scCandidate used pool sce)) as [Hc|Hn].
    + rewrite scScan_step_take by done.
      rewrite filter_cons_True in * by done. simpl in *.
      unfold Currency_Add. case_decide as Hge; simpl in *.
      * rewrite decide_True by lia. simpl. rewrite decide_True by done.
        do 2 f_equal. lia.
      * rewrite decide_True by lia. simpl. rewrite decide_False by done.
        rewrite IH by lia. rewrite <- app_assoc. simpl. do 2 f_equal. lia.
    + rewrite scScan_step_skip by done.
      rewrite filter_cons_False in * by done. by apply IH.
Qed.

Lemma fund_insufficient_iff shuffle used txn amount utxos changeAddr pool :
  0 < amount -> amount <= MaxCurrency -> shuffle utxos ≡ₚ utxos ->
  fr_ret (fundTxn shuffle used txn amount utxos changeAddr pool)
    = Err errInsufficientBalance <->
  scTotal (filter (scCandidate used pool) utxos) < amount.
Proof.
  intros Hpos Hmax Hperm.
  assert (Htot : scTotal (filter (scCandidate used pool) (shuffle utxos)) =
                 scTotal (filter (scCandidate used pool) utxos)).
  { apply scTotal_perm. by rewrite Hperm. }
  unfold fundTxn, Currency_IsZero. rewrite bool_decide_eq_false_2 by lia.
  split.
  - destruct (scScan used (scInPool pool) amount (shuffle utxos) 0 [])
      as [[s sel]|e|p] eqn:Hscan; simpl; [| |done].
    + apply scScan_val in Hscan as (k & -> & -> & Hall & _).
      case_decide as Hlt; simpl.
      * intros _. rewrite Hall in Hlt by done. lia.
      * case_decide; [case_decide; [done|]|].
        -- unfold Currency_Sub. case_decide; [|done].
           by destruct (foldl scSign _ _) as [[? ?] ?].
        -- by destruct (foldl scSign _ _) as [[? ?] ?].
    + by apply scScan_no_err in Hscan.
  - intros Hlt. rewrite scScan_short by (simpl; lia). simpl.
    by rewrite decide_True by lia.
Qed.

(** C4. For a fund request with a positive amount: the handler selects
    candidates (outputs neither reserved nor spent in the pool) of the
    shuffled list in order until their sum is at least the amount; it fails
    with the insufficient-balance error exactly when all candidates together
    are worth less than the amount; and when the selected sum exceeds the
    amount it fails with the change-address error for the void address and
    otherwise appends one change output of the difference to the change
    address. *)
Theorem fund_contract shuffle used txn amount utxos changeAddr pool :
  0 < amount -> wfCurrency amount -> shuffle utxos ≡ₚ utxos ->
  let cands := filter (scCandidate used pool) (shuffle utxos) in
  let sel := greedy amount cands in
  let sum := scTotal sel in
  let r := fundTxn shuffle used txn amount utxos changeAddr pool in
  (exists k, sel = take k cands) /\
  (forall pre last, sel = pre ++ [last] -> scTotal pre < amount) /\
  (sum < amount -> sel = cands) /\
  (fr_ret r = Err errInsufficientBalance <->
   scTotal (filter (scCandidate used pool) utxos) < amount) /\
  (wfCurrency sum -> amount < sum ->
   (changeAddr = VoidAddress -> fr_ret r = Err errChangeAddress) /\
   (changeAddr <> VoidAddress ->
    fr_ret r = Val (scID <$> sel) /\
    SiacoinOutputs (fr_txn r) =
      SiacoinOutputs txn ++ [{| sco_Value := sum - amount; sco_Address := changeAddr |}])) /\
  (sum = amount ->
   fr_ret r = Val (scID <$> sel) /\ SiacoinOutputs (fr_txn r) = SiacoinOutputs txn).
Proof.
  intros Hpos Hmax Hperm cands sel sum r. unfold wfCurrency in *.
  assert (Hrun : sum <= MaxCurrency ->
            scScan used (scInPool pool) amount (shuffle utxos) 0 [] = Val (sum, sel)).
  { intros Hfit. by rewrite scScan_greedy by (simpl; apply Hfit). }
  split_and!.
  - apply greedyFrom_prefix.
  - intros pre last Hsel. by apply (greedyFrom_minimal amount cands 0 pre last).
  - intros Hlt. by apply greedyFrom_short.
  - by apply fund_insufficient_iff.
  - intros Hfit Hgt. subst r. unfold fundTxn, Currency_IsZero.
    rewrite bool_decide_eq_false_2 by lia. rewrite Hrun by done. simpl.
    rewrite decide_False by lia. rewrite decide_True by done. split.
    + intros ->. by rewrite decide_True by done.
    + intros Hne. rewrite decide_False by done.
      unfold Currency_Sub. rewrite decide_True by lia.
      rewrite scSign_fold. simpl. done.
  - intros Heq. subst r. unfold fundTxn, Currency_IsZero.
    rewrite bool_decide_eq_false_2 by lia. rewrite Hrun by lia. simpl.
    rewrite decide_False by lia. rewrite decide_False by lia.
    rewrite scSign_fold. simpl. done.
Qed.

(** *** The cap on the funding candidates *)

Lemma sfTotal_perm l1 l2 : l1 ≡ₚ l2 -> sfTotal l1 = sfTotal l2.
Proof. induction 1; simpl; lia. Qed.

(** When the candidates do not add up to [amount], the siafund scan takes
    all of them, and its [uint64] sum does not wrap. *)
Lemma sfScan_short used pool amount utxos : forall s0 f0,
  amount <= u64 ->
  s0 + sfTotal (filter (sfCandidate used pool) utxos) < amount ->
  sfScan used (sfInPool pool) amount utxos s0 f0 =
  (s0 + sfTotal (filter (sfCandidate used pool) utxos),
   f0 ++ filter (sfCandidate used pool) utxos).
Proof.
  induction utxos as [|sfe rest IH]; intros s0 f0 Hmax Hlt.
  - simpl. rewrite ?filter_nil. simpl. rewrite app_nil_r. f_equal. lia.
  - destruct (decide (sfCandidate used pool sfe)) as [Hc|Hn].
    + rewrite filter_cons_True in * by done. simpl in Hlt.
      pose proof Hc as Hs. apply sfSkip_spec in Hs. unfold sfID in Hs.
      simpl. rewrite Hs. unfold add64.
      rewrite N.mod_small by lia. rewrite decide_False by lia.
      rewrite IH by lia. rewrite <- app_assoc. simpl. f_equal. lia.
    + rewrite filter_cons_False in * by done.
      simpl. destruct (getb used _ || getb (sfInPool pool) _) eqn:E.
      * by apply IH.
      * exfalso. by apply Hn, sfSkip_spec.
Qed.

Lemma fundSF_insufficient shuffle used txn amount utxos changeAddr claimAddr pool :
  amount <= u64 -> shuffle utxos ≡ₚ utxos ->
  sfTotal (filter (sfCandidate used pool) utxos) < amount ->
  fundTxnSF shuffle used txn amount utxos changeAddr claimAddr pool
    = {| fr_ret := Err errInsufficientBalance; fr_txn := txn; fr_used := used |}.
Proof.
  intros Hmax Hperm Hlt.
  assert (Htot : sfTotal (filter (sfCandidate used pool) (shuffle utxos)) =
                 sfTotal (filter (sfCandidate used pool) utxos)).
  { apply sfTotal_perm. by rewrite Hperm. }
  unfold fundTxnSF. rewrite bool_decide_eq_false_2 by lia.
  rewrite sfScan_short by (simpl; lia). simpl.
  by rewrite decide_True by lia.
Qed.

Lemma fund_insufficient shuffle used txn amount utxos changeAddr pool :
  0 < amount -> amount <= MaxCurrency -> shuffle utxos ≡ₚ utxos ->
  scTotal (filter (scCandidate used pool) utxos) < amount ->
  fundTxn shuffle used txn amount utxos changeAddr pool
    = {| fr_ret := Err errInsufficientBalance; fr_txn := txn; fr_used := used |}.
Proof.
  intros Hpos Hmax Hperm Hlt.
  assert (Htot : scTotal (filter (scCandidate used pool) (shuffle utxos)) =
                 scTotal (filter (scCandidate used pool) utxos)).
  { apply scTotal_perm. by rewrite Hperm. }
  unfold fundTxn, Currency_IsZero. rewrite bool_decide_eq_false_2 by lia.
  rewrite scScan_short by (simpl; lia). simpl.
  by rewrite decide_True by lia.
Qed.

(** C9. The fund and fundsf handlers take their candidates from
    [Unspent...Outputs(id, 0, 1000)] and nowhere else; so there is a wallet
    whose unspent outputs are worth the amount asked for, and more, and for
    which both handlers fail with the insufficient-balance error, whatever
    the shuffle. *)
Theorem funding_sees_first_thousand_outputs :
  (forall W (wm : WalletManager W) cm decodeID decodeFund shuffle jc used st id wfr,
     decodeID (jc_id jc) = Some id -> decodeFund (jc_body jc) = Some wfr ->
     walletsFundHandler wm cm decodeID decodeFund shuffle jc used st =
     match UnspentSiacoinOutputs wm id 0 1000 st with
     | inl err => (check "couldn't get utxos to fund transaction" err, used)
     | inr utxos =>
         let r := fundTxn shuffle used (wfr_Transaction wfr) (wfr_Amount wfr) utxos
                    (wfr_ChangeAddress wfr) (PoolTransactions cm) in
         (match fr_ret r with
          | Val toSign =>
              RespFund {| resp_Transaction := fr_txn r; resp_ToSign := toSign;
                          resp_DependsOn := UnconfirmedParents cm (fr_txn r) |}
          | Err err => check "couldn't fund transaction" err
          | Panic p => Panicked p
          end, fr_used r)
     end) /\
  (forall W (wm : WalletManager W) cm decodeID decodeFundSF shuffle jc used st id wfr,
     decodeID (jc_id jc) = Some id -> decodeFundSF (jc_body jc) = Some wfr ->
     walletsFundSFHandler wm cm decodeID decodeFundSF shuffle jc used st =
     match UnspentSiafundOutputs wm id 0 1000 st with
     | inl err => (check "couldn't get utxos to fund transaction" err, used)
     | inr utxos =>
         let r := fundTxnSF shuffle used (wfsr_Transaction wfr) (wfsr_Amount wfr) utxos
                    (wfsr_ChangeAddress wfr) (wfsr_ClaimAddress wfr)
                    (PoolTransactions cm) in
         (match fr_ret r with
          | Val toSign =>
              RespFund {| resp_Transaction := fr_txn r; resp_ToSign := toSign;
                          resp_DependsOn := UnconfirmedParents cm (fr_txn r) |}
          | Err err => check "couldn't fund transaction" err
          | Panic p => Panicked p
          end, fr_used r)
     end) /\
  (forall st id,
     UnspentSiacoinOutputs manager.walletManager id 0 1000 st
       = inr (take 1000 (manager.siacoinOutputs st id)) /\
     UnspentSiafundOutputs manager.walletManager id 0 1000 st
       = inr (take 1000 (manager.siafundOutputs st id))) /\
  (exists (st : manager.State) (id : N) (amount : N),
     amount <= scTotal (manager.siacoinOutputs st id) /\
     amount <= sfTotal (manager.siafundOutputs st id) /\
     (forall decodeID decodeFund shuffle jc txn changeAddr,
        decodeID (jc_id jc) = Some id ->
        decodeFund (jc_body jc) =
          Some {| wfr_Transaction := txn; wfr_Amount := amount;
                  wfr_ChangeAddress := changeAddr |} ->
        (forall l, shuffle l ≡ₚ l) ->
        walletsFundHandler manager.walletManager emptyPool
          decodeID decodeFund shuffle jc ∅ st =
        (check "couldn't fund transaction" errInsufficientBalance, ∅)) /\
     (forall decodeID decodeFundSF shuffle jc txn changeAddr claimAddr,
        decodeID (jc_id jc) = Some id ->
        decodeFundSF (jc_body jc) =
          Some {| wfsr_Transaction := txn; wfsr_Amount := amount;
                  wfsr_ChangeAddress := changeAddr; wfsr_ClaimAddress := claimAddr |} ->
        (forall l, shuffle l ≡ₚ l) ->
        walletsFundSFHandler manager.walletManager emptyPool
          decodeID decodeFundSF shuffle jc ∅ st =
        (check "couldn't fund transaction" errInsufficientBalance, ∅))).
Proof.
  split_and!.
  - intros * Hid Hbody. unfold walletsFundHandler. rewrite Hid, Hbody.
    destruct (UnspentSiacoinOutputs wm id 0 1000 st) as [err|utxos]; [done|].
    cbv zeta. by destruct (fr_ret _).
  - intros * Hid Hbody. unfold walletsFundSFHandler. rewrite Hid, Hbody.
    destruct (UnspentSiafundOutputs wm id 0 1000 st) as [err|utxos]; [done|].
    cbv zeta. by destruct (fr_ret _).
  - intros st id. split; reflexivity.
  - exists bigWallet, 1, 1001. split_and!.
    + vm_compute. discriminate.
    + vm_compute. discriminate.
    + intros * Hid Hbody Hperm. unfold walletsFundHandler. rewrite Hid, Hbody.
      change (UnspentSiacoinOutputs manager.walletManager 1 0 1000 bigWallet)
        with (@inr error _ (take 1000 (unitSiacoinOutputs 1001))).
      cbv beta iota zeta.
      cbn [wfr_Transaction wfr_Amount wfr_ChangeAddress PoolTransactions emptyPool].
      rewrite fund_insufficient; [done|lia|vm_compute; discriminate|apply Hperm|].
      vm_compute. reflexivity.
    + intros * Hid Hbody Hperm. unfold walletsFundSFHandler. rewrite Hid, Hbody.
      change (UnspentSiafundOutputs manager.walletManager 1 0 1000 bigWallet)
        with (@inr error _ (take 1000 (unitSiafundOutputs 1001))).
      cbv beta iota zeta.
      cbn [wfsr_Transaction wfsr_Amount wfsr_ChangeAddress wfsr_ClaimAddress
           PoolTransactions emptyPool].
      rewrite fundSF_insufficient; [done|vm_compute; discriminate|apply Hperm|].
      vm_compute. reflexivity.
Qed.

(** *** A funding call worked out *)

Lemma fund_contract_witness :
  0 < 60 /\ wfCurrency 60 /\ reverse exUtxos ≡ₚ exUtxos /\
  fr_ret (fundTxn reverse exUsed emptyTransaction 60 exUtxos 9 exPool) = Val [13; 11] /\
  SiacoinOutputs (fr_txn (fundTxn reverse exUsed emptyTransaction 60 exUtxos 9 exPool)) =
    [{| sco_Value := 20; sco_Address := 9 |}].
Proof.
  assert (H1 : 0 < 60) by lia.
  assert (H2 : wfCurrency 60) by (vm_compute; discriminate).
  assert (H3 : reverse exUtxos ≡ₚ exUtxos) by apply reverse_Permutation.
  destruct (fund_contract reverse exUsed emptyTransaction 60 exUtxos 9 exPool H1 H2 H3)
    as (_ & _ & _ & _ & Hchange & _).
  destruct Hchange as [_ Hc]; [vm_compute; discriminate|vm_compute; reflexivity|].
  destruct Hc as [Hret Hout]; [vm_compute; discriminate|].
  split_and!; [exact H1|exact H2|exact H3|exact Hret|exact Hout].
Defined.

Lemma funding_reserves_witness :
  fr_ret (runFund exUsed exCall) = Val [13; 11] /\
  (forall id, id ∈ [13; 11] -> getb exUsed id = false) /\
  (forall id, id ∈ [13; 11] -> getb (fr_used (runFund exUsed exCall)) id = true).
Proof.
  assert (H : fr_ret (runFund exUsed exCall) = Val [13; 11]) by (vm_compute; reflexivity).
  destruct (funding_reserves_what_it_signs exUsed exCall [13; 11] H) as (H1 & H2 & _).
  split_and!; [exact H|exact H1|exact H2].
Defined.

End funding.

(** * Properties of the wallet handlers *)
Module handlers.
Import api fundingSpec.

(** C8. Whatever the request, POST /wallets hands the wallet manager a
    wallet with empty name, description and metadata, and replies with what
    [AddWallet] makes of it; and [AddWallet] fails exactly when its store
    does, and otherwise gives the wallet it was handed the next id and the
    time of the clock. *)
Theorem post_wallets_drops_the_request :
  (forall W (wm : WalletManager W) (jc : Context) (st : W),
     walletsHandlerPOST wm jc st =
     match AddWallet wm blankWallet st with
     | (inl err, st) => (check "couldn't add wallet" err, st)
     | (inr w, st) => (RespWallet w, st)
     end) /\
  (forall W (wm : WalletManager W) (jc1 jc2 : Context) (st : W),
     walletsHandlerPOST wm jc1 st = walletsHandlerPOST wm jc2 st) /\
  (forall (w : Wallet) (st : manager.State),
     match manager.AddWallet w st with
     | (inl err, st') => manager.storeError st = Some err /\ st' = st
     | (inr w', st') =>
         manager.storeError st = None /\
         w_ID w' = manager.nextID st /\
         w_DateCreated w' = manager.clock st /\
         w_LastUpdated w' = manager.clock st /\
         w_Name w' = w_Name w /\ w_Description w' = w_Description w /\
         w_Metadata w' = w_Metadata w /\
         manager.wallets st' = manager.wallets st ++ [w']
     end) /\
  (forall (jc : Context) (st : manager.State),
     match walletsHandlerPOST manager.walletManager jc st with
     | (RespWallet w, _) =>
         manager.storeError st = None /\
         w_Name w = EmptyString /\ w_Description w = EmptyString /\ w_Metadata w = EmptyString
     | (RespError e code, _) =>
         exists err, manager.storeError st = Some err /\
                     e = wrapError "couldn't add wallet" err /\ code = 500
     | _ => False
     end).
Proof.
  split_and!.
  - intros W wm jc st. reflexivity.
  - intros W wm jc1 jc2 st. reflexivity.
  - intros w st. unfold manager.AddWallet.
    destruct (manager.storeError st) as [err|]; simpl; split_and!; done.
  - intros jc st. unfold walletsHandlerPOST. simpl. unfold manager.AddWallet.
    destruct (manager.storeError st) as [err|]; simpl; [eauto|done].
Qed.

End handlers.

(** * Properties of the applier and the reverter *)
Module updates.
Import wallet updateSpec.

(** ** What a computation calls *)

Section calls.
Context {S : Type} (P : Call -> Prop).

Lemma callsOnly_ret {A} (a : A) : callsOnly P (mret a : M S A).
Proof. intros s. constructor. Qed.

Lemma callsOnly_fail {A} e : callsOnly P (fail e : M S A).
Proof. intros s. constructor. Qed.

Lemma callsOnly_panic {A} v : callsOnly P (panic v : M S A).
Proof. intros s. constructor. Qed.

Lemma callsOnly_lift {A} (o : outcome A) : callsOnly P (lift o : M S A).
Proof. intros s. constructor. Qed.

Lemma callsOnly_callV {A} c (f : S -> (error + A) * S) :
  P c -> callsOnly P (callV c f).
Proof.
  intros Hc s. unfold callV, traceOf. destruct (f s) as [r s1]. simpl.
  by repeat constructor.
Qed.

Lemma callsOnly_callE c (f : S -> option error * S) :
  P c -> callsOnly P (callE c f).
Proof.
  intros Hc s. unfold callE, traceOf. destruct (f s) as [r s1]. simpl.
  by repeat constructor.
Qed.

Lemma callsOnly_bind {A B} (m : M S A) (f : A -> M S B) :
  callsOnly P m -> (forall a, callsOnly P (f a)) -> callsOnly P (m ≫= f).
Proof.
  intros Hm Hf s. specialize (Hm s).
  unfold mbind, M_bind, bind, traceOf in *.
  destruct (m s) as [[[a|e|p] s1] t1]; simpl in *; try done.
  specialize (Hf a s1). unfold traceOf in Hf.
  destruct (f a s1) as [[o s2] t2]. simpl in *. by apply Forall_app.
Qed.

Lemma callsOnly_orReturn {A} msg (r : error + A) : callsOnly P (orReturn msg r : M S A).
Proof. destruct r; [apply callsOnly_fail|apply callsOnly_ret]. Qed.

Lemma callsOnly_orReturnE msg (r : option error) : callsOnly P (orReturnE msg r : M S unit).
Proof. destruct r; [apply callsOnly_fail|apply callsOnly_ret]. Qed.

Lemma callsOnly_forEach {A V} (body : V -> A -> M S V) (l : list A) :
  (forall v a, callsOnly P (body v a)) -> forall v, callsOnly P (forEach body l v).
Proof.
  intros Hb. induction l as [|a l IH]; intros v; simpl.
  - apply callsOnly_ret.
  - apply callsOnly_bind; [apply Hb|apply IH].
Qed.
End calls.

(** Take a computation apart along its binds, branches and loops. *)
Ltac calls_only :=
  repeat first
    [ apply callsOnly_ret | apply callsOnly_fail | apply callsOnly_panic
    | apply callsOnly_lift | apply callsOnly_orReturn | apply callsOnly_orReturnE
    | apply callsOnly_callV | apply callsOnly_callE
    | apply callsOnly_forEach; intros ? ?
    | apply callsOnly_bind; [|intros ?]
    | match goal with
      | |- callsOnly _ (match ?x with _ => _ end) => destruct x
      | |- callsOnly _ (let '(_, _) := ?x in _) => destruct x
      end ].

(** ** What a computation returns *)

Section ensures.
Context {S : Type}.

Lemma ensures_ret {A} (Q : A -> Prop) a : Q a -> ensures Q (mret a : M S A).
Proof. intros Hq s a' [= <-]. done. Qed.

Lemma ensures_fail {A} (Q : A -> Prop) e : ensures Q (fail e : M S A).
Proof. intros s a. done. Qed.

Lemma ensures_panic {A} (Q : A -> Prop) v : ensures Q (panic v : M S A).
Proof. intros s a. done. Qed.

Lemma ensures_lift {A} (Q : A -> Prop) (o : outcome A) :
  (forall a, o = Val a -> Q a) -> ensures Q (lift o : M S A).
Proof. intros Ho s a. apply Ho. Qed.

Lemma ensures_bind {A B} (Q1 : A -> Prop) (Q2 : B -> Prop) (m : M S A) (f : A -> M S B) :
  ensures Q1 m -> (forall a, Q1 a -> ensures Q2 (f a)) -> ensures Q2 (m ≫= f).
Proof.
  intros Hm Hf s b. specialize (Hm s).
  unfold mbind, M_bind, bind, outcomeOf in *.
  destruct (m s) as [[[a|e|p] s1] t1]; simpl in *; try done.
  specialize (Hf a (Hm a eq_refl) s1 b). unfold outcomeOf in Hf.
  destruct (f a s1) as [[o s2] t2]. simpl in *. done.
Qed.

Lemma ensures_any {A} (m : M S A) : ensures (fun _ => True) m.
Proof. intros s a _. done. Qed.

Lemma ensures_weaken {A} (Q1 Q2 : A -> Prop) (m : M S A) :
  ensures Q1 m -> (forall a, Q1 a -> Q2 a) -> ensures Q2 m.
Proof. intros Hm Hq s a Ha. apply Hq, (Hm s a Ha). Qed.

Lemma ensures_forEach {A V} (I : V -> Prop) (body : V -> A -> M S V) (l : list A) :
  (forall v a, a ∈ l -> I v -> ensures I (body v a)) ->
  forall v, I v -> ensures I (forEach body l v).
Proof.
  induction l as [|a l IH]; intros Hb v Hv; simpl.
  - by apply ensures_ret.
  - apply (ensures_bind I).
    + apply Hb; [left|done].
    + intros v' Hv'. apply IH; [|done]. intros v0 a0 Ha0. apply Hb. by right.
Qed.

End ensures.

(** Step over a bind whose value does not matter. *)
Ltac skip_bind :=
  apply (ensures_bind (fun _ => True)); [apply ensures_any|intros ? _].

(** ** The flush *)

Section flush.
Context `{Env} {S : Type}.

Lemma writesInOrder_last c (f : S -> option error * S) msg :
  writesInOrder [c] (callE c f ≫= orReturnE msg).
Proof.
  intros s. unfold mbind, M_bind, bind, callE, orReturnE, traceOf, outcomeOf.
  destruct (f s) as [[err|] s1]; simpl; split_and!; done.
Qed.

Lemma writesInOrder_step c (f : S -> option error * S) msg cs (k : M S unit) :
  writesInOrder cs k ->
  writesInOrder (c :: cs) (callE c f ≫= (fun r => orReturnE msg r ≫= (fun _ => k))).
Proof.
  intros Hk s. unfold mbind, M_bind, bind, callE, orReturnE, traceOf, outcomeOf.
  destruct (f s) as [[err|] s1]; simpl.
  - split_and!; [|done..]. by apply prefix_cons, prefix_nil.
  - destruct (Hk s1) as (Hp & Hv & Hn). unfold traceOf, outcomeOf in *.
    destruct (k s1) as [[o s2] t]. simpl in *. split_and!.
    + by apply prefix_cons.
    + intros Ho. f_equal. by apply Hv.
    + done.
Qed.

Lemma flush_writesInOrder (tx : ApplyTx S) (v : batch) :
  writesInOrder (flushCalls v) (flush tx v).
Proof.
  unfold flush, flushCalls.
  repeat apply writesInOrder_step. apply writesInOrder_last.
Qed.
End flush.

Section apply.
Context `{Env} {S : Type}.

Lemma updateBalance_reads (tx : UpdateTx S) balances addr fn :
  callsOnly isRead (updateBalance tx balances addr fn).
Proof. unfold updateBalance. calls_only; done. Qed.

Lemma runEventQuery_reads (tx : UpdateTx S) q : callsOnly isRead (runEventQuery tx q).
Proof.
  induction q as [evs|addr k IH]; simpl; calls_only; try done; try apply IH.
Qed.

Lemma applyUpdate_reads (tx : UpdateTx S) v cau : callsOnly isRead (applyUpdate tx v cau).
Proof.
  unfold applyUpdate, maturedElement, applySiacoinElement, applySiafundElement.
  calls_only; try done; try apply updateBalance_reads; try apply runEventQuery_reads.
Qed.

(** Before the flush, [ApplyChainUpdates] only reads the store. *)
Lemma gather_reads (tx : UpdateTx S) updates : callsOnly isRead (gather tx updates).
Proof.
  unfold gather.
  apply callsOnly_bind; [by apply callsOnly_callV|intros r1].
  apply callsOnly_bind; [apply callsOnly_orReturn|intros l1].
  apply callsOnly_bind; [by apply callsOnly_callV|intros r2].
  apply callsOnly_bind; [apply callsOnly_orReturn|intros l2].
  apply callsOnly_forEach. intros v cau. apply applyUpdate_reads.
Qed.

Lemma applyUpdate_stateElements (tx : UpdateTx S) v cau :
  ensures (fun v' =>
             siacoinStateElements v' = au_UpdateElementProof cau <$> siacoinStateElements v /\
             siafundStateElements v' = au_UpdateElementProof cau <$> siafundStateElements v)
          (applyUpdate tx v cau).
Proof.
  unfold applyUpdate. do 3 skip_bind. skip_bind. destruct a2 as [[[? ?] ?] ?].
  skip_bind. skip_bind. destruct a3 as [[[? ?] ?] ?]. skip_bind.
  by apply ensures_ret.
Qed.

Lemma forEach_applyUpdate_stateElements (tx : UpdateTx S) updates : forall v,
  ensures (fun v' =>
             siacoinStateElements v' = refreshAll updates (siacoinStateElements v) /\
             siafundStateElements v' = refreshAll updates (siafundStateElements v))
          (forEach (applyUpdate tx) updates v).
Proof.
  induction updates as [|cau updates IH]; intros v; simpl.
  - by apply ensures_ret.
  - eapply ensures_bind; [apply applyUpdate_stateElements|].
    intros v1 [H1 H2]. eapply ensures_weaken; [apply IH|].
    intros v2 [H3 H4]. simpl. by rewrite H3, H4, H1, H2.
Qed.

(** The state elements a completed [gather] holds are those the store gave
    at the start, with the proofs of every update of the batch. *)
Lemma gather_stateElements (tx : UpdateTx S) updates s v :
  outcomeOf (gather tx updates s) = Val v ->
  exists fetchedSC s1 fetchedSF s2,
    SiacoinStateElements tx s = (inr fetchedSC, s1) /\
    SiafundStateElements tx s1 = (inr fetchedSF, s2) /\
    siacoinStateElements v = refreshAll updates fetchedSC /\
    siafundStateElements v = refreshAll updates fetchedSF.
Proof.
  unfold gather, mbind, M_bind, bind, callV, orReturn, outcomeOf.
  destruct (SiacoinStateElements tx s) as [[e1|fsc] s1] eqn:E1; simpl; [done|].
  destruct (SiafundStateElements tx s1) as [[e2|fsf] s2] eqn:E2; simpl; [done|].
  intros Hv. exists fsc, s1, fsf, s2. split; [done|]. split; [done|].
  pose proof (forEach_applyUpdate_stateElements tx updates
    {| events := []; balances := ∅; newSiacoinElements := ∅; newSiafundElements := ∅;
       spentSiacoinElements := ∅; spentSiafundElements := ∅;
       siacoinStateElements := fsc; siafundStateElements := fsf |} s2 v) as Hloop.
  unfold outcomeOf in Hloop. simpl in Hloop. apply Hloop.
  destruct (forEach _ _ _ s2) as [[o s3] t3]. simpl in *. done.
Qed.

Lemma lookup_None_keys {A} (m : gmap N A) (k : N) :
  m !! k = None <-> k ∉ (map_to_list m).*1.
Proof.
  rewrite list_elem_of_fmap. split.
  - intros Hn ([k' x] & -> & Hin). apply elem_of_map_to_list in Hin. simpl in *. congruence.
  - intros Hn. destruct (m !! k) as [x|] eqn:E; [|done].
    exfalso. apply Hn. exists (k, x). split; [done|]. by apply elem_of_map_to_list.
Qed.

(** X16. Every call that [ApplyChainUpdates] makes before its writes is a
    read. Its writes are, in this order, UpdateBalances, AddSiacoinElements,
    RemoveSiacoinElements, AddSiafundElements, RemoveSiafundElements,
    AddEvents, UpdateSiacoinStateElements, UpdateSiafundStateElements: a
    prefix of these when a call fails, all eight when it returns nil. The
    state elements it then writes back are those the store gave at the
    start, with the proofs of the batch, and without every id it has just
    told the store to remove. *)
Theorem apply_flushes_in_order (tx : ApplyTx S) (updates : list ApplyUpdate) (s : S) :
  exists reads writes,
    (traceOf (ApplyChainUpdates tx updates s)).*1 = reads ++ writes /\
    Forall isRead reads /\
    methodOf <$> writes `prefix_of` flushOrder /\
    (outcomeOf (ApplyChainUpdates tx updates s) = Val tt ->
     exists fetchedSC s1 fetchedSF s2 balanceChanges addedSC removedSC addedSF removedSF evs,
       SiacoinStateElements tx s = (inr fetchedSC, s1) /\
       SiafundStateElements tx s1 = (inr fetchedSF, s2) /\
       writes =
         [CUpdateBalances balanceChanges;
          CAddSiacoinElements addedSC; CRemoveSiacoinElements removedSC;
          CAddSiafundElements addedSF; CRemoveSiafundElements removedSF;
          CAddEvents evs;
          CUpdateSiacoinStateElements
            (filter (fun se => ID se ∉ removedSC) (refreshAll updates fetchedSC));
          CUpdateSiafundStateElements
            (filter (fun se => ID se ∉ removedSF) (refreshAll updates fetchedSF))]).
Proof.
  pose proof (gather_reads tx updates s) as Hreads.
  pose proof (gather_stateElements tx updates s) as Hse.
  unfold ApplyChainUpdates, mbind, M_bind, bind, traceOf, outcomeOf in *.
  destruct (gather tx updates s) as [[[v|e|p] s1] t1]; simpl in *.
  - destruct (flush_writesInOrder tx v s1) as (Hpre & Hall & _).
    unfold traceOf, outcomeOf in *.
    destruct (flush tx v s1) as [[o s2] t2]. simpl in *.
    exists t1.*1, t2.*1. rewrite fmap_app. split_and!.
    + done.
    + by apply Forall_fmap.
    + destruct Hpre as [rest Hrest].
      exists (methodOf <$> rest).
      change flushOrder with (methodOf <$> flushCalls v).
      by rewrite Hrest, fmap_app.
    + intros ->. destruct (Hse v eq_refl) as (fsc & s3 & fsf & s4 & H1 & H2 & H3 & H4).
      rewrite (Hall eq_refl). unfold flushCalls. rewrite H3, H4.
      assert (Hf : forall (m : gmap N bool) (l : list StateElement),
                filter (fun se => m !! ID se = None) l =
                filter (fun se => ID se ∉ (map_to_list m).*1) l).
      { intros m l. apply list_filter_iff. intros se. apply lookup_None_keys. }
      rewrite !Hf.
      eexists fsc, s3, fsf, s4, _, _, _, _, _, _. split_and!; [done|done|].
      reflexivity.
  - exists t1.*1, []. rewrite app_nil_r. split_and!; [done|by apply Forall_fmap| |done].
    apply prefix_nil.
  - exists t1.*1, []. rewrite app_nil_r. split_and!; [done|by apply Forall_fmap| |done].
    apply prefix_nil.
Qed.

End apply.

(** ** Ephemeral outputs *)
Section ephemeral.
Context `{Env}.

Lemma getb_insert (m : gmap N bool) (i j : N) (v : bool) :
  getb (<[i := v]> m) j = if decide (i = j) then v else getb m j.
Proof.
  unfold getb. case_decide as E.
  - subst. by rewrite lookup_insert_eq.
  - by rewrite lookup_insert_ne.
Qed.

Lemma created_fold {I : Type} (f : I -> N) (l : list I) : forall (c : gmap N bool) id,
  getb (foldl (fun c i => <[f i := true]> c) c l) id = true <->
  getb c id = true \/ exists i, i ∈ l /\ f i = id.
Proof.
  induction l as [|i l IH]; intros c id; simpl.
  - split; [by left|]. intros [?|(i & Hi & _)]; [done|]. by apply elem_of_nil in Hi.
  - rewrite IH, getb_insert. split.
    + intros [Hc|(j & Hj & Hf)].
      * case_decide; [right; exists i; split; [left|done]|by left].
      * right. exists j. split; [by right|done].
    + intros [Hc|(j & Hj & Hf)].
      * left. by case_decide.
      * apply elem_of_cons in Hj as [->|Hj].
        -- left. by rewrite decide_True.
        -- right. by exists j.
Qed.

Lemma ephemeral_fold_keep {I : Type} (pid : I -> N) (created : gmap N bool) (l : list I) :
  forall (e : gmap N bool) id,
  getb created id = true -> getb e id = true ->
  getb (foldl (fun e inp => <[pid inp := getb created (pid inp)]> e) e l) id = true.
Proof.
  induction l as [|inp l IH]; intros e id Hc He; simpl; [done|].
  apply IH; [done|]. rewrite getb_insert. case_decide; [by subst|done].
Qed.

Lemma ephemeral_fold_hit {I : Type} (pid : I -> N) (created : gmap N bool) (l : list I) :
  forall (e : gmap N bool) id,
  getb created id = true -> (exists inp, inp ∈ l /\ pid inp = id) ->
  getb (foldl (fun e inp => <[pid inp := getb created (pid inp)]> e) e l) id = true.
Proof.
  induction l as [|inp l IH]; intros e id Hc (i & Hi & Hp); simpl.
  - by apply elem_of_nil in Hi.
  - apply elem_of_cons in Hi as [->|Hi].
    + apply ephemeral_fold_keep; [done|]. rewrite getb_insert, decide_True by done.
      by subst.
    + apply IH; [done|]. by exists i.
Qed.

Lemma mark_created t ce id :
  getb ce.1 id = true \/ createdBy t id -> getb (markTransaction ce t).1 id = true.
Proof.
  destruct ce as [created ephemeral]. simpl. intros Hc.
  apply created_fold. destruct Hc as [Hc|[(k & Hk & Hid)|(k & Hk & Hid)]].
  - left. apply created_fold. by left.
  - left. apply created_fold. right. exists k. split; [|done].
    apply elem_of_seq. lia.
  - right. exists k. split; [|done]. apply elem_of_seq. lia.
Qed.

Lemma mark_keep t ce id :
  getb ce.1 id = true -> getb ce.2 id = true ->
  getb (markTransaction ce t).2 id = true.
Proof.
  destruct ce as [created ephemeral]. simpl. intros Hc He.
  apply ephemeral_fold_keep.
  - apply created_fold. left. apply created_fold. by left.
  - apply ephemeral_fold_keep; [|done]. apply created_fold. by left.
Qed.

Lemma mark_hit t ce id :
  getb ce.1 id = true -> spentBy t id -> getb (markTransaction ce t).2 id = true.
Proof.
  destruct ce as [created ephemeral]. simpl. intros Hc [Hs|Hs].
  - apply ephemeral_fold_keep.
    + apply created_fold. left. apply created_fold. by left.
    + apply ephemeral_fold_hit; [|done]. apply created_fold. by left.
  - apply ephemeral_fold_hit; [|done].
    apply created_fold. left. apply created_fold. by left.
Qed.

Lemma fold_mark_created l : forall ce id,
  getb ce.1 id = true -> getb (foldl markTransaction ce l).1 id = true.
Proof.
  induction l as [|t l IH]; intros ce id Hc; simpl; [done|].
  apply IH, mark_created. by left.
Qed.

Lemma fold_mark_keep l : forall ce id,
  getb ce.1 id = true -> getb ce.2 id = true ->
  getb (foldl markTransaction ce l).2 id = true.
Proof.
  induction l as [|t l IH]; intros ce id Hc He; simpl; [done|].
  apply IH; [apply mark_created; by left|by apply mark_keep].
Qed.

(** The detection of the source finds every such output. *)
Lemma ephemeralV1_detected b id :
  ephemeralV1 b id -> getb (ephemeralElements b) id = true.
Proof.
  intros (pre & t1 & mid & t2 & post & Hb & Hc & Hs).
  unfold ephemeralElements. rewrite Hb.
  rewrite foldl_app. simpl. rewrite foldl_app. simpl.
  set (ce1 := markTransaction (foldl markTransaction (∅, ∅) pre) t1).
  assert (H1 : getb ce1.1 id = true) by (apply mark_created; by right).
  set (ce2 := foldl markTransaction ce1 mid).
  assert (H2 : getb ce2.1 id = true) by by apply fold_mark_created.
  apply fold_mark_keep; [apply mark_created; by left|by apply mark_hit].
Qed.

End ephemeral.

(** ** Ephemeral outputs and the store *)

Section skipped.
Context `{Env} {S : Type}.

Lemma callsOnly_weaken {A} (P1 P2 : Call -> Prop) (m : M S A) :
  callsOnly P1 m -> (forall c, P1 c -> P2 c) -> callsOnly P2 m.
Proof. intros Hm Hp s. eapply Forall_impl; [apply Hm|]. intros e. apply Hp. Qed.

Lemma callsOnly_bind_ensures {A B} (P : Call -> Prop) (Q : A -> Prop)
    (m : M S A) (f : A -> M S B) :
  callsOnly P m -> ensures Q m -> (forall a, Q a -> callsOnly P (f a)) ->
  callsOnly P (m ≫= f).
Proof.
  intros Hm Hq Hf s. specialize (Hm s). specialize (Hq s).
  unfold mbind, M_bind, bind, traceOf, outcomeOf in *.
  destruct (m s) as [[[a|e|p] s1] t1]; simpl in *; try done.
  specialize (Hf a (Hq a eq_refl) s1). unfold traceOf in Hf.
  destruct (f a s1) as [[o s2] t2]. simpl in *. by apply Forall_app.
Qed.

Lemma isRead_leavesAlone id c : isRead c -> leavesAlone id c.
Proof. by destruct c. Qed.

(** The callbacks of the applier return at once on a flagged element. *)
Lemma applySiacoinElement_skips (tx : UpdateTx S) eph h v se spent :
  getb eph (ID (sce_StateElement se)) = true ->
  applySiacoinElement tx eph h v (se, spent) = mret v.
Proof.
  intros Hf. destruct v as [[[b n] sp] [e|]]; simpl; [done|]. by rewrite Hf.
Qed.

Lemma applySiafundElement_skips (tx : UpdateTx S) eph v se spent :
  getb eph (ID (sfe_StateElement se)) = true ->
  applySiafundElement tx eph v (se, spent) = mret v.
Proof.
  intros Hf. destruct v as [[[b n] sp] [e|]]; simpl; [done|]. by rewrite Hf.
Qed.

(** Those of the reverter ask the store whether the address is relevant
    and then return, with balances and pending elements as they were. *)
Lemma revertSiacoinElement_skips (tx : UpdateTx S) eph h bal added deleted err se spent s :
  getb eph (ID (sce_StateElement se)) = true ->
  Forall (fun e => e.1 = CAddressRelevant (scAddr se))
         (traceOf (revertSiacoinElement tx eph h (bal, added, deleted, err) (se, spent) s)) /\
  exists err',
    outcomeOf (revertSiacoinElement tx eph h (bal, added, deleted, err) (se, spent) s)
    = Val (bal, added, deleted, err').
Proof.
  intros Hf. unfold revertSiacoinElement, traceOf, outcomeOf.
  destruct err as [e|]; simpl; [by eauto|].
  unfold mbind, M_bind, bind, callV.
  destruct (AddressRelevant tx (scAddr se) s) as [[e|[|]] s1]; simpl;
    rewrite ?Hf; simpl; (split; [by repeat constructor|by eauto]).
Qed.

Lemma revertSiafundElement_skips (tx : UpdateTx S) eph bal added deleted err1 err2
    se spent s :
  getb eph (ID (sfe_StateElement se)) = true ->
  Forall (fun e => e.1 = CAddressRelevant (sfAddr se))
         (traceOf (revertSiafundElement tx eph (bal, added, deleted, err1, err2)
                     (se, spent) s)) /\
  exists err1' err2',
    outcomeOf (revertSiafundElement tx eph (bal, added, deleted, err1, err2) (se, spent) s)
    = Val (bal, added, deleted, err1', err2').
Proof.
  intros Hf. unfold revertSiafundElement, traceOf, outcomeOf.
  destruct err2 as [e|]; simpl; [by eauto|].
  unfold mbind, M_bind, bind, callV.
  destruct (AddressRelevant tx (sfAddr se) s) as [[e|[|]] s1]; simpl;
    rewrite ?Hf; simpl; (split; [by repeat constructor|by eauto]).
Qed.

Lemma applySiacoinElement_free (tx : UpdateTx S) id eph h v x :
  (ID (sce_StateElement x.1) = id -> getb eph id = true) ->
  scPendingFree id v.1.1.2 v.1.2 ->
  ensures (fun v' => scPendingFree id v'.1.1.2 v'.1.2) (applySiacoinElement tx eph h v x).
Proof.
  destruct v as [[[b n] sp] err], x as [se spent]. simpl. intros Hflag [Hn Hs].
  destruct err as [e|]; [by apply ensures_ret|].
  destruct (getb eph (ID (sce_StateElement se))) eqn:E; [by apply ensures_ret|].
  assert (Hne : ID (sce_StateElement se) <> id).
  { intros Heq. rewrite Heq in E. rewrite Hflag in E by done. done. }
  skip_bind. destruct a as [e|[|]]; [by apply ensures_ret| |by apply ensures_ret].
  destruct spent.
  - skip_bind. destruct a as [[e|] b']; apply ensures_ret; simpl;
      (split; [by apply map_Forall_delete|by rewrite lookup_insert_ne]).
  - skip_bind. destruct a as [[e|] b']; apply ensures_ret; simpl;
      (split; [by apply map_Forall_insert_2|done]).
Qed.

Lemma applySiafundElement_free (tx : UpdateTx S) id eph v x :
  (ID (sfe_StateElement x.1) = id -> getb eph id = true) ->
  sfPendingFree id v.1.1.2 v.1.2 ->
  ensures (fun v' => sfPendingFree id v'.1.1.2 v'.1.2) (applySiafundElement tx eph v x).
Proof.
  destruct v as [[[b n] sp] err], x as [se spent]. simpl. intros Hflag [Hn Hs].
  destruct err as [e|]; [by apply ensures_ret|].
  destruct (getb eph (ID (sfe_StateElement se))) eqn:E; [by apply ensures_ret|].
  assert (Hne : ID (sfe_StateElement se) <> id).
  { intros Heq. rewrite Heq in E. rewrite Hflag in E by done. done. }
  skip_bind. destruct a as [e|[|]]; [by apply ensures_ret| |by apply ensures_ret].
  destruct spent.
  - skip_bind. destruct a as [[e|] b']; apply ensures_ret; simpl;
      (split; [by apply map_Forall_delete|by rewrite lookup_insert_ne]).
  - skip_bind. destruct a as [[e|] b']; apply ensures_ret; simpl;
      (split; [by apply map_Forall_insert_2|done]).
Qed.

Lemma applyUpdate_free (tx : UpdateTx S) id v cau :
  (mentions cau id -> getb (ephemeralElements (au_Block cau)) id = true) ->
  batchFree id v -> ensures (batchFree id) (applyUpdate tx v cau).
Proof.
  intros Hflag [Hsc Hsf]. unfold applyUpdate. do 3 skip_bind.
  eapply ensures_bind.
  { apply (ensures_forEach (fun v' => scPendingFree id v'.1.1.2 v'.1.2)); [|done].
    intros v' x Hx Hv'. apply applySiacoinElement_free; [|done].
    intros Hid. apply Hflag. left. apply list_elem_of_fmap. by exists x. }
  intros [[[b n] sp] e] Hsc'. simpl in Hsc'. skip_bind.
  eapply ensures_bind.
  { apply (ensures_forEach (fun v' => sfPendingFree id v'.1.1.2 v'.1.2)); [|done].
    intros v' x Hx Hv'. apply applySiafundElement_free; [|done].
    intros Hid. apply Hflag. right. apply list_elem_of_fmap. by exists x. }
  intros [[[b' n'] sp'] e'] Hsf'. simpl in Hsf'. skip_bind.
  apply ensures_ret. destruct Hsc' as [Hn1 Hs1], Hsf' as [Hn2 Hs2].
  split; (split; [|done]); simpl; by apply map_Forall_fmap.
Qed.

Lemma gather_free (tx : UpdateTx S) id updates :
  (forall cau, cau ∈ updates -> mentions cau id ->
               getb (ephemeralElements (au_Block cau)) id = true) ->
  ensures (batchFree id) (gather tx updates).
Proof.
  intros Hflag. unfold gather. do 4 skip_bind.
  apply ensures_forEach.
  - intros v cau Hcau Hv. apply applyUpdate_free; [|done]. by apply Hflag.
  - split; (split; [apply map_Forall_empty|apply lookup_empty]).
Qed.

Lemma values_free {A} (f : A -> N) id (m : gmap N A) :
  map_Forall (fun _ e => f e <> id) m -> id ∉ f <$> (map_to_list m).*2.
Proof.
  intros Hm (e & -> & ([k e'] & -> & Hin)%list_elem_of_fmap)%list_elem_of_fmap.
  apply elem_of_map_to_list in Hin. by apply (Hm k e').
Qed.

Lemma flush_free (tx : ApplyTx S) id v :
  batchFree id v -> callsOnly (leavesAlone id) (flush tx v).
Proof.
  intros [[Hn1 Hs1] [Hn2 Hs2]]. unfold flush. calls_only; simpl; try done.
  - by apply values_free.
  - by apply lookup_None_keys.
  - by apply values_free.
  - by apply lookup_None_keys.
Qed.

(** The applier does not add or remove an element that is flagged in every
    update of the batch that lists it. *)
Lemma apply_leaves_flagged_alone (tx : ApplyTx S) id updates :
  (forall cau, cau ∈ updates -> mentions cau id ->
               getb (ephemeralElements (au_Block cau)) id = true) ->
  callsOnly (leavesAlone id) (ApplyChainUpdates tx updates).
Proof.
  intros Hflag. unfold ApplyChainUpdates.
  apply (callsOnly_bind_ensures _ (batchFree id)).
  - eapply callsOnly_weaken; [apply gather_reads|apply isRead_leavesAlone].
  - by apply gather_free.
  - intros v Hv. by apply flush_free.
Qed.

(** The same of the reverter and its pending lists. *)
Lemma revertSiacoinElement_free (tx : UpdateTx S) id eph h v x :
  (ID (sce_StateElement x.1) = id -> getb eph id = true) ->
  id ∉ ((fun e => ID (sce_StateElement e)) <$> v.1.1.2) -> id ∉ v.1.2 ->
  ensures (fun v' => (id ∉ ((fun e => ID (sce_StateElement e)) <$> v'.1.1.2)) /\ id ∉ v'.1.2)
          (revertSiacoinElement tx eph h v x).
Proof.
  destruct v as [[[b a] d] err], x as [se spent]. simpl. intros Hflag Ha Hd.
  destruct err as [e|]; [by apply ensures_ret|].
  skip_bind. destruct a0 as [e|[|]]; [by apply ensures_ret| |by apply ensures_ret].
  destruct (getb eph (ID (sce_StateElement se))) eqn:E; [by apply ensures_ret|].
  assert (Hne : ID (sce_StateElement se) <> id).
  { intros Heq. rewrite Heq in E. rewrite Hflag in E by done. done. }
  destruct spent.
  - skip_bind. destruct a0 as [e' b']. apply ensures_ret. simpl. split; [|done].
    rewrite fmap_app. simpl. rewrite elem_of_app, list_elem_of_singleton.
    intros [?|?]; [done|congruence].
  - skip_bind. destruct a0 as [e' b']. apply ensures_ret. simpl. split; [done|].
    rewrite elem_of_app, list_elem_of_singleton. intros [?|?]; [done|congruence].
Qed.

Lemma revertSiafundElement_free (tx : UpdateTx S) id eph v x :
  (ID (sfe_StateElement x.1) = id -> getb eph id = true) ->
  id ∉ ((fun e => ID (sfe_StateElement e)) <$> v.1.1.1.2) -> id ∉ v.1.1.2 ->
  ensures (fun v' => (id ∉ ((fun e => ID (sfe_StateElement e)) <$> v'.1.1.1.2)) /\
                     id ∉ v'.1.1.2)
          (revertSiafundElement tx eph v x).
Proof.
  destruct v as [[[[b a] d] err1] err2], x as [se spent]. simpl. intros Hflag Ha Hd.
  destruct err2 as [e|]; [by apply ensures_ret|].
  skip_bind. destruct a0 as [e|[|]]; [by apply ensures_ret| |by apply ensures_ret].
  destruct (getb eph (ID (sfe_StateElement se))) eqn:E; [by apply ensures_ret|].
  assert (Hne : ID (sfe_StateElement se) <> id).
  { intros Heq. rewrite Heq in E. rewrite Hflag in E by done. done. }
  destruct spent.
  - skip_bind. destruct a0 as [e' b']. apply ensures_ret. simpl. split; [|done].
    rewrite fmap_app. simpl. rewrite elem_of_app, list_elem_of_singleton.
    intros [?|?]; [done|congruence].
  - skip_bind. destruct a0 as [e' b']. apply ensures_ret. simpl. split; [done|].
    rewrite elem_of_app, list_elem_of_singleton. intros [?|?]; [done|congruence].
Qed.

Lemma revert_leaves_flagged_alone (tx : RevertTx S) id cru :
  getb (ephemeralElements (ru_Block cru)) id = true ->
  callsOnly (leavesAlone id) (RevertChainUpdate tx cru).
Proof.
  intros Hflag. unfold RevertChainUpdate.
  apply callsOnly_bind; [by apply callsOnly_callV|intros r].
  apply callsOnly_bind; [apply callsOnly_orReturn|intros matured].
  apply callsOnly_bind.
  { apply callsOnly_forEach. intros b se. unfold maturedElement, updateBalance.
    calls_only; done. }
  intros balances.
  apply (callsOnly_bind_ensures _
           (fun v' => (id ∉ ((fun e => ID (sce_StateElement e)) <$> v'.1.1.2)) /\ id ∉ v'.1.2)).
  { apply callsOnly_forEach. intros v x. unfold revertSiacoinElement, updateBalance.
    calls_only; done. }
  { apply ensures_forEach.
    - intros v x _ [Ha Hd]. by apply revertSiacoinElement_free.
    - simpl. split; apply not_elem_of_nil. }
  intros [[[b addedSC] deletedSC] err] [Ha1 Hd1]. simpl in Ha1, Hd1.
  apply callsOnly_bind; [destruct err; [apply callsOnly_fail|apply callsOnly_ret]|intros _].
  apply (callsOnly_bind_ensures _
           (fun v' => (id ∉ ((fun e => ID (sfe_StateElement e)) <$> v'.1.1.1.2)) /\
                      id ∉ v'.1.1.2)).
  { apply callsOnly_forEach. intros v x. unfold revertSiafundElement, updateBalance.
    calls_only; done. }
  { apply ensures_forEach.
    - intros v x _ [Ha Hd]. by apply revertSiafundElement_free.
    - simpl. split; apply not_elem_of_nil. }
  intros [[[[b' addedSF] deletedSF] err1] err2] [Ha2 Hd2]. simpl in Ha2, Hd2.
  calls_only; done.
Qed.

(** C6, as amended. An output created by a v1 transaction of the block and
    spent by a later v1 transaction of it is flagged by the detection of the
    source. The callbacks of the applier return at once on it; those of the
    reverter ask whether its address is relevant and return: balances and
    pending elements are as they were. And no call of [ApplyChainUpdates] or
    [RevertChainUpdate] on the block adds or removes a store element with
    its id. *)
Theorem v1_ephemeral_outputs_are_skipped (b : Block) (id : Hash256) :
  ephemeralV1 b id ->
  getb (ephemeralElements b) id = true /\
  (forall (tx : UpdateTx S) h v se spent,
     ID (sce_StateElement se) = id ->
     applySiacoinElement tx (ephemeralElements b) h v (se, spent) = mret v) /\
  (forall (tx : UpdateTx S) v se spent,
     ID (sfe_StateElement se) = id ->
     applySiafundElement tx (ephemeralElements b) v (se, spent) = mret v) /\
  (forall (tx : UpdateTx S) h bal added deleted err se spent s,
     ID (sce_StateElement se) = id ->
     Forall (fun e => e.1 = CAddressRelevant (scAddr se))
            (traceOf (revertSiacoinElement tx (ephemeralElements b) h
                        (bal, added, deleted, err) (se, spent) s)) /\
     exists err',
       outcomeOf (revertSiacoinElement tx (ephemeralElements b) h
                    (bal, added, deleted, err) (se, spent) s)
       = Val (bal, added, deleted, err')) /\
  (forall (tx : UpdateTx S) bal added deleted err1 err2 se spent s,
     ID (sfe_StateElement se) = id ->
     Forall (fun e => e.1 = CAddressRelevant (sfAddr se))
            (traceOf (revertSiafundElement tx (ephemeralElements b)
                        (bal, added, deleted, err1, err2) (se, spent) s)) /\
     exists err1' err2',
       outcomeOf (revertSiafundElement tx (ephemeralElements b)
                    (bal, added, deleted, err1, err2) (se, spent) s)
       = Val (bal, added, deleted, err1', err2')) /\
  (forall (tx : ApplyTx S) updates s,
     (forall cau, cau ∈ updates -> mentions cau id -> au_Block cau = b) ->
     Forall (fun e => leavesAlone id e.1) (traceOf (ApplyChainUpdates tx updates s))) /\
  (forall (tx : RevertTx S) cru s,
     ru_Block cru = b ->
     Forall (fun e => leavesAlone id e.1) (traceOf (RevertChainUpdate tx cru s))).
Proof.
  intros Heph. pose proof (ephemeralV1_detected b id Heph) as Hflag.
  split_and!.
  - done.
  - intros tx h v se spent Hid. apply applySiacoinElement_skips. by rewrite Hid.
  - intros tx v se spent Hid. apply applySiafundElement_skips. by rewrite Hid.
  - intros tx h bal added deleted err se spent s Hid.
    apply revertSiacoinElement_skips. by rewrite Hid.
  - intros tx bal added deleted err1 err2 se spent s Hid.
    apply revertSiafundElement_skips. by rewrite Hid.
  - intros tx updates s Hb. apply apply_leaves_flagged_alone.
    intros cau Hcau Hm. by rewrite (Hb cau Hcau Hm).
  - intros tx cru s Hb. apply revert_leaves_flagged_alone. by rewrite Hb.
Qed.

End skipped.

(** ** The code run on concrete chains *)
Section runs.
Import memstore examples.

(** The proofs that [quietRevert] carries undo those of [quietUpdate]. *)
Lemma quietRevert_undoes_proofs (e : StateElement) :
  ru_UpdateElementProof quietRevert (au_UpdateElementProof quietUpdate e) = e.
Proof. by destruct e. Qed.

(** The reverter never writes state elements back. *)
Lemma revert_never_writes_proofs `{Env} {S : Type} (tx : RevertTx S) cru :
  callsOnly (fun c => methodOf c <> "UpdateSiacoinStateElements" /\
                      methodOf c <> "UpdateSiafundStateElements")
            (RevertChainUpdate tx cru).
Proof.
  unfold RevertChainUpdate, maturedElement, revertSiacoinElement, revertSiafundElement,
    updateBalance.
  calls_only; done.
Qed.

(** C1, at a failing input. [store1] tracks one output; the block of
    [quietUpdate] touches no address of the wallet. Applying it and then
    reverting it both return nil, and balances and events are as before;
    but the Merkle proof of the tracked output stays the one of the applied
    block, although the revert update would take it back. *)
Theorem revert_leaves_applied_proofs :
  let applied := ApplyChainUpdates memApplyTx [quietUpdate] store1 in
  let reverted := RevertChainUpdate memRevertTx quietRevert (storeAfter applied) in
  outcomeOf applied = Val tt /\
  outcomeOf reverted = Val tt /\
  balanceRows (storeAfter reverted) = balanceRows store1 /\
  eventRows (storeAfter reverted) = eventRows store1 /\
  (memSiacoinStateElements store1).1
    = inr [{| ID := 10; LeafIndex := 0; MerkleProof := [100] |}] /\
  (memSiacoinStateElements (storeAfter reverted)).1
    = inr [{| ID := 10; LeafIndex := 0; MerkleProof := [7; 100] |}] /\
  storeAfter reverted <> store1.
Proof.
  vm_compute. split_and!; try reflexivity. discriminate.
Qed.

(** The applier panics rather than take siafunds below zero. *)
Lemma apply_checks_siafunds se b :
  Siafunds b < sfValue se ->
  applySiafundFn se true b = Panic (errorString "negative siafund balance").
Proof. intros Hlt. unfold applySiafundFn. by rewrite decide_True. Qed.

(** The reverter has no such check: it subtracts modulo 2^64. *)
Lemma revert_wraps_siafunds se b :
  revertSiafundFn se false b = Val (setSiafunds b (sub64 (Siafunds b) (sfValue se))).
Proof. reflexivity. Qed.

(** C2, at a failing input. [store2] holds nothing for [addrA], which the
    wallet took in after the block of [fundUpdate] was applied. Reverting
    that block, which created one siafund for [addrA], returns nil and
    writes a balance of 2^64 - 1 siafunds. *)
Theorem revert_underflows_siafunds :
  let reverted := RevertChainUpdate memRevertTx fundRevert store2 in
  outcomeOf reverted = Val tt /\
  balanceRows (storeAfter reverted) !! addrA =
    Some {| Siacoins := 0; ImmatureSiacoins := 0; Siafunds := 18446744073709551615 |} /\
  18446744073709551615 = 2 ^ 64 - 1.
Proof. vm_compute. split_and!; reflexivity. Qed.

(** C3, at a failing input. The store fails the first [AddressRelevant],
    which is the one of the siafund callback. Revert and apply both return
    nil; apply even records the event of the block while it drops the
    siafund output and its balance. *)
Theorem siafund_loop_errors_are_dropped :
  let reverted :=
    RevertChainUpdate (faultyRevertTx memRevertTx) fundRevert (store2, 1%nat) in
  let applied :=
    ApplyChainUpdates (faultyApplyTx memApplyTx) [fundUpdate] (store2, 1%nat) in
  traceOf reverted !! 1%nat = Some (CAddressRelevant addrA, Some errBusy) /\
  outcomeOf reverted = Val tt /\
  traceOf applied !! 3%nat = Some (CAddressRelevant addrA, Some errBusy) /\
  outcomeOf applied = Val tt /\
  siafundRows (storeAfter applied).1 = ∅ /\
  balanceRows (storeAfter applied).1 = ∅ /\
  length (eventRows (storeAfter applied).1) = 1%nat.
Proof. vm_compute. split_and!; reflexivity. Qed.

(** C7, at a failing input. [store4] tracks the siafund output 20 of
    [addrA]; the block of [spendUpdate] spends it. On the store as it is,
    [ApplyChainUpdates] removes output 20 and writes back a siafund
    state-element list without it. When the store fails the first
    [AddressRelevant], which is the one of the siafund callback,
    [ApplyChainUpdates] still returns nil: it removes nothing and writes the
    state element of the spent output 20 back, with the proof of the block,
    and the store keeps the output and its balance. The same fault in the
    siacoin callback is returned as an error, before any write. *)
Theorem apply_writes_back_a_spent_element :
  let applied := ApplyChainUpdates memApplyTx [spendUpdate] store4 in
  let faulty :=
    ApplyChainUpdates (faultyApplyTx memApplyTx) [spendUpdate] (store4, 1%nat) in
  let sibling :=
    ApplyChainUpdates (faultyApplyTx memApplyTx) [spendCoinUpdate] (store1, 1%nat) in
  (fundOutput, true) ∈ au_SiafundElements spendUpdate /\
  sfe_StateElement <$> (map_to_list (siafundRows store4)).*2
    = [{| ID := 20; LeafIndex := 3; MerkleProof := [] |}] /\
  outcomeOf applied = Val tt /\
  (traceOf applied).*1 !! 10%nat = Some (CRemoveSiafundElements [20]) /\
  (traceOf applied).*1 !! 13%nat = Some (CUpdateSiafundStateElements []) /\
  siafundRows (storeAfter applied) = ∅ /\
  traceOf faulty !! 3%nat = Some (CAddressRelevant addrA, Some errBusy) /\
  outcomeOf faulty = Val tt /\
  (traceOf faulty).*1 !! 9%nat = Some (CRemoveSiafundElements []) /\
  (traceOf faulty).*1 !! 12%nat =
    Some (CUpdateSiafundStateElements
            [{| ID := 20; LeafIndex := 3; MerkleProof := [7] |}]) /\
  length (traceOf faulty) = 13%nat /\
  sfe_StateElement <$> siafundRows (storeAfter faulty).1 !! 20
    = Some {| ID := 20; LeafIndex := 3; MerkleProof := [7] |} /\
  balanceRows (storeAfter faulty).1 !! addrA =
    Some {| Siacoins := 0; ImmatureSiacoins := 0; Siafunds := 1 |} /\
  outcomeOf sibling =
    Err (wrapError "failed to add siacoin elements"
           (wrapError "failed to check if address is relevant" errBusy)) /\
  Forall isRead (traceOf sibling).*1.
Proof.
  vm_compute. split_and!; try reflexivity.
  - left.
  - repeat constructor.
Qed.

Lemma v1_ephemeral_outputs_witness :
  ephemeralV1 v1Block 7000 /\ getb (ephemeralElements v1Block) 7000 = true.
Proof.
  assert (Heph : ephemeralV1 v1Block 7000).
  { exists [], v1Creator, [], v1Spender, []. split_and!.
    - reflexivity.
    - left. exists 0%nat. split; [simpl; lia|reflexivity].
    - left. eexists. split; [left|reflexivity]. }
  split; [exact Heph|].
  exact (proj1 (v1_ephemeral_outputs_are_skipped (S := Store) v1Block 7000 Heph)).
Defined.

(** C6, as stated, fails. Output 30 is created and spent by the two v2
    transactions of [v2Block], which the detection does not look at. The
    applier tells the store to remove it and takes its value off the balance
    of its address; the reverter adds a row for it and puts its value on the
    balance. *)
Lemma v2_ephemeral_output_touches_the_store :
  createdAndSpentInBlock v2Block 30 /\
  getb (ephemeralElements v2Block) 30 = false /\
  (let applied := ApplyChainUpdates memApplyTx [v2Update] store3 in
   outcomeOf applied = Val tt /\
   traceOf applied !! 8%nat = Some (CRemoveSiacoinElements [30], None) /\
   ~ Forall (fun e => leavesAlone 30 e.1) (traceOf applied) /\
   Siacoins <$> balanceRows store3 !! addrA = Some 100 /\
   Siacoins <$> balanceRows (storeAfter applied) !! addrA = Some 90) /\
  (let reverted :=
     RevertChainUpdate memRevertTx
       (revertOf v2Update {| Height := 0; ci_ID := 0 |} MerkleProof) store3 in
   outcomeOf reverted = Val tt /\
   siacoinRows store3 !! 30 = None /\
   siacoinRows (storeAfter reverted) !! 30 = Some v2Output /\
   Siacoins <$> balanceRows (storeAfter reverted) !! addrA = Some 110).
Proof.
  split_and!.
  - right. eexists _, [], _, [], _, []. split_and!; [reflexivity|reflexivity| |].
    + left. simpl. left.
    + left. simpl. left.
  - vm_compute. reflexivity.
  - cbv zeta.
    assert (Ht : traceOf (ApplyChainUpdates memApplyTx [v2Update] store3) !! 8%nat
                 = Some (CRemoveSiacoinElements [30], None))
      by (vm_compute; reflexivity).
    split_and!; [vm_compute; reflexivity|exact Ht| |vm_compute; reflexivity..].
    intros Hall. eapply Forall_lookup_1 in Hall; [|exact Ht]. simpl in Hall.
    apply Hall. left.
  - vm_compute. split_and!; reflexivity.
Qed.

End runs.

End updates.


(** * Further properties of the applier and the reverter *)
Module tracing.
Import wallet updateSpec traceSpec.

(** ** Rules for [wp] *)
Section rules.
Context {S : Type}.
Implicit Types t : list (Call * option error).

Lemma wp_ret {A} (a : A) (Q : _ -> outcome A -> Prop) t :
  Q t (Val a) -> wp (mret a : M S A) Q t.
Proof. intros H s. unfold traceOf, outcomeOf. simpl. by rewrite app_nil_r. Qed.

Lemma wp_fail {A} e (Q : _ -> outcome A -> Prop) t :
  Q t (Err e) -> wp (fail e : M S A) Q t.
Proof. intros H s. unfold traceOf, outcomeOf. simpl. by rewrite app_nil_r. Qed.

Lemma wp_panic {A} p (Q : _ -> outcome A -> Prop) t :
  Q t (Panic p) -> wp (panic p : M S A) Q t.
Proof. intros H s. unfold traceOf, outcomeOf. simpl. by rewrite app_nil_r. Qed.

Lemma wp_lift {A} (o : outcome A) (Q : _ -> outcome A -> Prop) t :
  Q t o -> wp (lift o : M S A) Q t.
Proof. intros H s. unfold traceOf, outcomeOf. simpl. by rewrite app_nil_r. Qed.

Lemma wp_callV {A} c (f : S -> (error + A) * S) (Q : _ -> outcome (error + A) -> Prop) t :
  (forall s r s1, f s = (r, s1) -> Q (t ++ [(c, errorOf r)]) (Val r)) ->
  wp (callV c f) Q t.
Proof.
  intros H s. unfold callV, traceOf, outcomeOf.
  destruct (f s) as [r s1] eqn:E. simpl. by apply (H s r s1).
Qed.

Lemma wp_callE c (f : S -> option error * S) (Q : _ -> outcome (option error) -> Prop) t :
  (forall s r s1, f s = (r, s1) -> Q (t ++ [(c, r)]) (Val r)) ->
  wp (callE c f) Q t.
Proof.
  intros H s. unfold callE, traceOf, outcomeOf.
  destruct (f s) as [r s1] eqn:E. simpl. by apply (H s r s1).
Qed.

Lemma wp_bind {A B} (m : M S A) (f : A -> M S B) (Q : _ -> outcome B -> Prop) t :
  wp m (fun t' o => match o with
                    | Val a => wp (f a) Q t'
                    | Err e => Q t' (Err e)
                    | Panic p => Q t' (Panic p)
                    end) t ->
  wp (m ≫= f) Q t.
Proof.
  intros H s. specialize (H s).
  unfold mbind, M_bind, bind, traceOf, outcomeOf in *.
  destruct (m s) as [[[a|e|p] s1] t1]; simpl in *; try done.
  specialize (H s1). unfold traceOf, outcomeOf in H.
  destruct (f a s1) as [[o s2] t2]. simpl in *. by rewrite app_assoc.
Qed.

Lemma wp_conseq {A} (m : M S A) (Q1 Q2 : _ -> outcome A -> Prop) t :
  wp m Q1 t -> (forall t' o, Q1 t' o -> Q2 t' o) -> wp m Q2 t.
Proof. intros H HQ s. apply HQ, H. Qed.

Lemma wp_forEach {A V} (I : _ -> V -> Prop) (QE QP : _ -> error -> Prop)
    (body : V -> A -> M S V) (l : list A) :
  (forall t v a, a ∈ l -> I t v -> wp (body v a) (post I QE QP) t) ->
  forall t v, I t v -> wp (forEach body l v) (post I QE QP) t.
Proof.
  induction l as [|a l IH]; intros Hb t v Hv; simpl.
  - by apply wp_ret.
  - apply wp_bind. eapply wp_conseq; [apply Hb; [left|done]|].
    intros t' [v'|e|p] Ho; simpl in *; try done.
    apply IH; [|done]. intros t1 v1 a1 Ha1. apply Hb. by right.
Qed.
End rules.

Lemma wraps_refl e : wraps e e.
Proof. destruct e; by left. Qed.

Lemma wraps_wrap inner e msg : wraps inner e -> wraps inner (wrapError msg e).
Proof. intros H. by right. Qed.

Lemma clean_nil : clean [].
Proof. constructor. Qed.

Lemma clean_snoc_ok t c : clean t -> clean (t ++ [(c, None)]).
Proof. intros Ht. apply Forall_app. split; [done|]. repeat constructor. Qed.

Lemma clean_snoc_query t c r : clean t -> isAddressQuery c -> clean (t ++ [(c, r)]).
Proof. intros Ht Hc. apply Forall_app. split; [done|]. constructor; [by right|constructor]. Qed.

Lemma stoppedAt_snoc t c err : clean t -> stoppedAt (t ++ [(c, Some err)]) err.
Proof. intros Ht. exists t, c, err. split_and!; [done|apply wraps_refl|done]. Qed.

Lemma stoppedAt_wrap t e msg : stoppedAt t e -> stoppedAt t (wrapError msg e).
Proof.
  intros (t' & c & err & Ht & Hw & Hc). exists t', c, err.
  split_and!; [done|by apply wraps_wrap|done].
Qed.

(** Take a computation apart along its binds, calls and branches. *)
Ltac wp_auto :=
  repeat first
    [ apply wp_ret | apply wp_fail | apply wp_panic | apply wp_bind
    | apply wp_callV; intros ? ? ? ?
    | apply wp_callE; intros ? ? ? ?
    | apply wp_lift
    | progress (cbv beta iota)
    | match goal with
      | |- wp (match ?x with _ => _ end) _ _ => destruct x eqn:?
      | |- wp (let '(_, _) := ?x in _) _ _ => destruct x eqn:?
      | |- match ?x with Val _ => _ | Err _ => _ | Panic _ => _ end => destruct x eqn:?
      end ].

(** ** Errors come from the store *)

Lemma Currency_Add_noErr c v e : Currency_Add c v <> Err e.
Proof. unfold Currency_Add. by case_decide. Qed.
Lemma Currency_Sub_noErr c v e : Currency_Sub c v <> Err e.
Proof. unfold Currency_Sub. by case_decide. Qed.

Lemma applyMaturedFn_noErr se : noErr (applyMaturedFn se).
Proof.
  intros b e. unfold applyMaturedFn, Currency_Sub, Currency_Add.
  simpl. repeat (case_decide; simpl); done.
Qed.
Lemma applySiacoinFn_noErr h se spent : noErr (applySiacoinFn h se spent).
Proof.
  intros b e. unfold applySiacoinFn, Currency_Sub, Currency_Add.
  destruct spent; simpl; repeat (case_decide; simpl); done.
Qed.
Lemma applySiafundFn_noErr se spent : noErr (applySiafundFn se spent).
Proof. intros b e. unfold applySiafundFn. destruct spent; [case_decide|]; done. Qed.

Section errors.
Context `{Env} {S : Type}.
Implicit Types t : list (Call * option error).

(** [updateBalance] returns an error only when its [AddressBalance] failed. *)
Lemma updateBalance_err (tx : UpdateTx S) bal addr fn t :
  noErr fn -> clean t ->
  wp (updateBalance tx bal addr fn)
     (post (fun t r => tracked t r.1) (fun _ _ => False) (fun t _ => clean t)) t.
Proof.
  intros Hfn Ht. unfold updateBalance. destruct (bal !! addr) as [b0|].
  - apply wp_bind, wp_lift. destruct (fn b0) as [b1|e|p] eqn:E; simpl.
    + apply wp_ret. simpl. by split.
    + by apply Hfn in E.
    + done.
  - apply wp_bind, wp_callV. intros s r s1 _. destruct r as [err|b0]; simpl.
    + apply wp_ret. simpl. split; [by apply clean_snoc_query|].
      intros e [= <-]. by apply stoppedAt_wrap, stoppedAt_snoc.
    + apply wp_bind, wp_lift. destruct (fn b0) as [b1|e|p] eqn:E; simpl.
      * apply wp_ret. simpl. split; [by apply clean_snoc_ok|done].
      * by apply Hfn in E.
      * by apply clean_snoc_ok.
Qed.

Lemma maturedElement_err (tx : UpdateTx S) fn bal se t :
  (forall se, noErr (fn se)) -> clean t ->
  wp (maturedElement tx fn bal se)
     (post (fun t _ => clean t) stoppedAt (fun t _ => clean t)) t.
Proof.
  intros Hfn Ht. unfold maturedElement. apply wp_bind.
  eapply wp_conseq; [by apply updateBalance_err|].
  intros t' [[[e|] b]|e|p] Hr; simpl in *; try done.
  - apply wp_fail. simpl. apply stoppedAt_wrap. by apply Hr.
  - apply wp_ret. simpl. apply Hr.
Qed.

Lemma applySiacoinElement_err (tx : UpdateTx S) eph h v x t :
  tracked t v.2 ->
  wp (applySiacoinElement tx eph h v x)
     (post (fun t v' => tracked t v'.2) (fun _ _ => False) (fun t _ => clean t)) t.
Proof.
  destruct v as [[[b n] sp] err], x as [se spent]. simpl. intros Hv.
  destruct err as [e0|]; [by apply wp_ret|].
  destruct (getb eph _); [by apply wp_ret|].
  destruct Hv as [Ht _].
  apply wp_bind, wp_callV. intros s r s1 _.
  destruct r as [err|[|]]; simpl.
  - apply wp_ret. simpl. split; [by apply clean_snoc_query|].
    intros e [= <-]. by apply stoppedAt_wrap, stoppedAt_snoc.
  - assert (Ht' : clean (t ++ [(CAddressRelevant (scAddr se), None)]))
      by by apply clean_snoc_ok.
    destruct spent; simpl.
    + apply wp_bind.
      eapply wp_conseq; [apply updateBalance_err; [apply applySiacoinFn_noErr|done]|].
      intros t' [[[e|] b']|e|p] Hr; simpl in *; try done; destruct Hr as [Hc Hr]; apply wp_ret; simpl.
      * split; [done|]. intros e' [= <-]. apply stoppedAt_wrap. by apply Hr.
      * by split.
    + apply wp_bind.
      eapply wp_conseq; [apply updateBalance_err; [apply applySiacoinFn_noErr|done]|].
      intros t' [[[e|] b']|e|p] Hr; simpl in *; try done; destruct Hr as [Hc Hr]; apply wp_ret; simpl.
      * split; [done|]. intros e' [= <-]. apply stoppedAt_wrap. by apply Hr.
      * by split.
  - apply wp_ret. simpl. split; [by apply clean_snoc_ok|done].
Qed.

Lemma applySiafundElement_err (tx : UpdateTx S) eph v x t :
  clean t ->
  wp (applySiafundElement tx eph v x)
     (post (fun t _ => clean t) (fun _ _ => False) (fun t _ => clean t)) t.
Proof.
  destruct v as [[[b n] sp] err], x as [se spent]. simpl. intros Ht.
  destruct err as [e0|]; [by apply wp_ret|].
  destruct (getb eph _); [by apply wp_ret|].
  apply wp_bind, wp_callV. intros s r s1 _.
  destruct r as [err|[|]]; simpl.
  - apply wp_ret. simpl. by apply clean_snoc_query.
  - assert (Ht' : clean (t ++ [(CAddressRelevant (sfAddr se), None)]))
      by by apply clean_snoc_ok.
    destruct spent; simpl.
    + apply wp_bind.
      eapply wp_conseq; [apply updateBalance_err; [apply applySiafundFn_noErr|done]|].
      intros t' [[[e|] b']|e|p] Hr; simpl in *; try done; apply wp_ret; apply Hr.
    + apply wp_bind.
      eapply wp_conseq; [apply updateBalance_err; [apply applySiafundFn_noErr|done]|].
      intros t' [[[e|] b']|e|p] Hr; simpl in *; try done; apply wp_ret; apply Hr.
  - apply wp_ret. simpl. by apply clean_snoc_ok.
Qed.

Lemma runEventQuery_err (tx : UpdateTx S) q : forall t,
  clean t ->
  wp (runEventQuery tx q)
     (post (fun t _ => clean t) (fun _ _ => False) (fun t _ => clean t)) t.
Proof.
  induction q as [evs|addr k IH]; intros t Ht; simpl.
  - by apply wp_ret.
  - apply wp_bind, wp_callV. intros s r s1 _. destruct r as [err|b]; simpl.
    + apply wp_panic. simpl. by apply clean_snoc_query.
    + apply IH. by apply clean_snoc_ok.
Qed.


Lemma write_err {B} c (f : S -> option error * S) msg (k : M S B) t :
  clean t ->
  (forall t', clean t' -> wp k propagates t') ->
  wp (callE c f ≫= (fun r => orReturnE msg r ≫= (fun _ => k))) propagates t.
Proof.
  intros Ht Hk. apply wp_bind, wp_callE. intros s r s1 _. apply wp_bind.
  destruct r as [err|]; simpl.
  - apply wp_fail. by apply stoppedAt_wrap, stoppedAt_snoc.
  - apply wp_ret. apply Hk. by apply clean_snoc_ok.
Qed.

Lemma applyUpdate_err (tx : UpdateTx S) v cau t :
  clean t ->
  wp (applyUpdate tx v cau) (post (fun t _ => clean t) stoppedAt (fun t _ => clean t)) t.
Proof.
  intros Ht. unfold applyUpdate.
  apply wp_bind, wp_callV. intros s r s1 _. simpl.
  apply wp_bind. destruct r as [err|matured]; simpl.
  { apply wp_fail. by apply stoppedAt_wrap, stoppedAt_snoc. }
  apply wp_ret, wp_bind.
  eapply wp_conseq.
  { apply (wp_forEach (fun t _ => clean t) stoppedAt (fun t _ => clean t));
      [|by apply clean_snoc_ok].
    intros t' b se _ Ht'. apply maturedElement_err; [apply applyMaturedFn_noErr|done]. }
  intros t1 [b1|e|p] Hb; simpl in *; try done.
  apply wp_bind. eapply wp_conseq.
  { apply (wp_forEach (fun t v' => tracked t v'.2)
                      (fun _ _ => False) (fun t _ => clean t)); [|by split].
    intros t' v' x _ Hv'. by apply applySiacoinElement_err. }
  intros t2 [[[[b2 n2] sp2] err2]|e|p] Hsc; simpl in *; try done.
  destruct Hsc as [Hc2 Hsc].
  apply wp_bind. destruct err2 as [e2|].
  { apply wp_fail. apply stoppedAt_wrap. by apply Hsc. }
  apply wp_ret, wp_bind. eapply wp_conseq.
  { apply (wp_forEach (fun t _ => clean t) (fun _ _ => False) (fun t _ => clean t));
      [|done].
    intros t' v' x _ Ht'. by apply applySiafundElement_err. }
  intros t3 [[[[b3 n3] sp3] err3]|e|p] Hsf; simpl in *; try done.
  apply wp_bind. eapply wp_conseq; [by apply runEventQuery_err|].
  intros t4 [evs|e|p] Hev; simpl in *; try done.
  by apply wp_ret.
Qed.

Lemma flush_err (tx : ApplyTx S) v t : clean t -> wp (flush tx v) propagates t.
Proof.
  unfold flush. revert t. repeat (intros ? ?; apply write_err; [done|]).
  intros tn Ht. apply wp_bind, wp_callE. intros s r s1 _.
  destruct r as [err|]; simpl.
  - apply wp_fail. by apply stoppedAt_wrap, stoppedAt_snoc.
  - apply wp_ret. by apply clean_snoc_ok.
Qed.

Lemma apply_err (tx : ApplyTx S) updates t :
  clean t -> wp (ApplyChainUpdates tx updates) propagates t.
Proof.
  intros Ht. unfold ApplyChainUpdates, gather.
  apply wp_bind, wp_bind, wp_callV. intros s0 r s1 _. simpl.
  apply wp_bind. destruct r as [err|l1]; simpl.
  { apply wp_fail. by apply stoppedAt_wrap, stoppedAt_snoc. }
  apply wp_ret, wp_bind, wp_callV. intros s2 r s3 _. simpl.
  apply wp_bind. destruct r as [err|l2]; simpl.
  { apply wp_fail. apply stoppedAt_wrap, stoppedAt_snoc. by apply clean_snoc_ok. }
  apply wp_ret. eapply wp_conseq.
  { apply (wp_forEach (fun t _ => clean t) stoppedAt (fun t _ => clean t)).
    - intros t' v' cau _ Ht'. by apply applyUpdate_err.
    - by do 2 apply clean_snoc_ok. }
  intros t1 [v1|e|p] Hv; simpl in *; try done.
  by apply flush_err.
Qed.

(** X1. When [ApplyChainUpdates] returns an error, the store call it made
    last had failed and the error is or wraps the error of that call. When
    it returns nil or panics, no store call has failed but for
    [AddressRelevant] and [AddressBalance]: the failure of any other call
    stops it with an error. *)
Theorem apply_propagates_store_errors (tx : ApplyTx S) updates s :
  propagates (traceOf (ApplyChainUpdates tx updates s))
             (outcomeOf (ApplyChainUpdates tx updates s)).
Proof. apply (apply_err tx updates [] clean_nil s). Qed.





End errors.

End tracing.

(** * Further properties of the funding closures *)
Module fundingMore.
Import api fundingSpec selectionSpec funding.

(** ** The siafund funding contract *)

Lemma sfGreedyFrom_prefix amount cands : forall sum,
  exists k, sfGreedyFrom amount sum cands = take k cands.
Proof.
  induction cands as [|c rest IH]; intros sum; simpl.
  - by exists 0%nat.
  - case_decide.
    + exists 1%nat. simpl. by rewrite take_0.
    + destruct (IH (sum + sfo_Value (sfe_SiafundOutput c))) as [k Hk].
      exists (Datatypes.S k). simpl. by rewrite Hk.
Qed.

Lemma sfGreedyFrom_minimal amount cands : forall sum pre last,
  sum < amount ->
  sfGreedyFrom amount sum cands = pre ++ [last] -> sum + sfTotal pre < amount.
Proof.
  induction cands as [|c rest IH]; intros sum pre last Hsum; simpl.
  - by destruct pre.
  - case_decide as Hge.
    + destruct pre as [|p [|q pre]]; simpl; intros [= ]; lia.
    + destruct pre as [|p pre]; simpl.
      * intros [= -> Hnil]. lia.
      * intros [= -> Hrest]. apply IH in Hrest; lia.
Qed.

Lemma sfGreedyFrom_short amount cands : forall sum,
  sum + sfTotal (sfGreedyFrom amount sum cands) < amount ->
  sfGreedyFrom amount sum cands = cands.
Proof.
  induction cands as [|c rest IH]; intros sum; simpl; [done|].
  case_decide; simpl; [lia|]. intros Hlt. f_equal. apply IH. lia.
Qed.

Lemma sfGreedyFrom_total amount cands : forall sum,
  sfTotal (sfGreedyFrom amount sum cands) <= sfTotal cands.
Proof.
  induction cands as [|c rest IH]; intros sum; simpl; [done|].
  case_decide; simpl; [lia|].
  specialize (IH (sum + sfo_Value (sfe_SiafundOutput c))). lia.
Qed.

(** As long as the candidates together stay below 2^64, the [uint64] sum of
    the scan does not wrap and the scan selects greedily. *)
Lemma sfScan_greedy used pool amount utxos : forall s0 f0,
  s0 + sfTotal (filter (sfCandidate used pool) utxos) < u64 ->
  sfScan used (sfInPool pool) amount utxos s0 f0 =
  (s0 + sfTotal (sfGreedyFrom amount s0 (filter (sfCandidate used pool) utxos)),
   f0 ++ sfGreedyFrom amount s0 (filter (sfCandidate used pool) utxos)).
Proof.
  induction utxos as [|sfe rest IH]; intros s0 f0 Hmax.
  - simpl. rewrite ?filter_nil. simpl. rewrite app_nil_r. f_equal. lia.
  - destruct (decide (sfCandidate used pool sfe)) as [Hc|Hn].
    + rewrite filter_cons_True in * by done. simpl in Hmax.
      pose proof Hc as Hs. apply sfSkip_spec in Hs. unfold sfID in Hs.
      simpl. rewrite Hs. unfold add64. rewrite N.mod_small by lia.
      case_decide as Hge.
      * simpl. f_equal. lia.
      * rewrite IH by lia. rewrite <- app_assoc. simpl. f_equal. lia.
    + rewrite filter_cons_False in * by done.
      simpl. destruct (getb used _ || getb (sfInPool pool) _) eqn:E.
      * by apply IH.
      * exfalso. by apply Hn, sfSkip_spec.
Qed.

Lemma sub64_fits a b : b <= a -> a < u64 -> sub64 a b = a - b.
Proof.
  intros Hle Hlt. unfold sub64. rewrite (N.mod_small b) by lia.
  replace (a + u64 - b) with ((a - b) + 1 * u64) by lia.
  rewrite N.Div0.mod_add. apply N.mod_small. lia.
Qed.

(** X3. For a fundsf request with a positive amount, when the candidates
    (outputs neither reserved nor spent in the pool) are together worth less
    than 2^64: the handler selects candidates of the shuffled list in order
    until their sum is at least the amount; it fails with the
    insufficient-balance error exactly when all candidates together are
    worth less than the amount; when the selected sum exceeds the amount it
    fails with the change-address error for the void address, leaving
    transaction and reservations as they were, and otherwise appends one
    change output of the difference to the change address; and every input
    it appends carries the claim address of the request. *)
Theorem fundsf_contract shuffle used txn amount utxos changeAddr claimAddr pool :
  0 < amount -> amount < u64 -> shuffle utxos ≡ₚ utxos ->
  sfTotal (filter (sfCandidate used pool) utxos) < u64 ->
  let cands := filter (sfCandidate used pool) (shuffle utxos) in
  let sel := sfGreedy amount cands in
  let sum := sfTotal sel in
  let r := fundTxnSF shuffle used txn amount utxos changeAddr claimAddr pool in
  (exists k, sel = take k cands) /\
  (forall pre last, sel = pre ++ [last] -> sfTotal pre < amount) /\
  (sum < amount -> sel = cands) /\
  (fr_ret r = Err errInsufficientBalance <->
   sfTotal (filter (sfCandidate used pool) utxos) < amount) /\
  (amount < sum ->
   (changeAddr = VoidAddress ->
    r = {| fr_ret := Err errChangeAddress; fr_txn := txn; fr_used := used |}) /\
   (changeAddr <> VoidAddress ->
    fr_ret r = Val (sfID <$> sel) /\
    SiafundOutputs (fr_txn r) =
      SiafundOutputs txn ++ [{| sfo_Value := sum - amount; sfo_Address := changeAddr |}] /\
    SiafundInputs (fr_txn r) =
      SiafundInputs txn ++ (sfInputOf claimAddr <$> (sfID <$> sel)))) /\
  (sum = amount ->
   fr_ret r = Val (sfID <$> sel) /\
   SiafundOutputs (fr_txn r) = SiafundOutputs txn /\
   SiafundInputs (fr_txn r) =
     SiafundInputs txn ++ (sfInputOf claimAddr <$> (sfID <$> sel))).
Proof.
  intros Hpos Hamt Hperm Hfit cands sel sum r.
  assert (Htot : sfTotal cands = sfTotal (filter (sfCandidate used pool) utxos)).
  { apply sfTotal_perm. subst cands. by rewrite Hperm. }
  assert (Hsum : sum <= sfTotal cands) by apply sfGreedyFrom_total.
  assert (Hrun : sfScan used (sfInPool pool) amount (shuffle utxos) 0 [] = (sum, sel)).
  { rewrite sfScan_greedy by (fold cands; simpl; lia). done. }
  assert (Hshort : sum < amount -> sel = cands).
  { intros Hlt. by apply sfGreedyFrom_short. }
  assert (Hr : r = fundTxnSF shuffle used txn amount utxos changeAddr claimAddr pool)
    by done.
  unfold fundTxnSF in Hr. rewrite bool_decide_eq_false_2 in Hr by lia.
  rewrite Hrun in Hr. simpl in Hr.
  split_and!.
  - apply sfGreedyFrom_prefix.
  - intros pre last Hsel. by apply (sfGreedyFrom_minimal amount cands 0 pre last).
  - done.
  - rewrite Hr. split.
    + case_decide as Hlt; simpl.
      * intros _. rewrite <- Htot. by rewrite <- (Hshort Hlt).
      * case_decide; [case_decide; [done|]|];
          rewrite sfSign_fold; simpl; done.
    + intros Hlt. rewrite decide_True by lia. done.
  - intros Hgt. rewrite Hr. rewrite decide_False by lia. rewrite decide_True by done.
    split.
    + intros ->. by rewrite decide_True by done.
    + intros Hne. rewrite decide_False by done.
      rewrite sfSign_fold. simpl. rewrite sub64_fits by lia. done.
  - intros Heq. rewrite Hr. rewrite decide_False by lia. rewrite decide_False by lia.
    rewrite sfSign_fold. simpl. done.
Qed.

Lemma fundsf_contract_witness :
  fr_ret (fundTxnSF reverse ∅ emptyTransaction 60 exFunds 9 8 []) = Val [23; 22] /\
  SiafundOutputs (fr_txn (fundTxnSF reverse ∅ emptyTransaction 60 exFunds 9 8 [])) =
    [{| sfo_Value := 15; sfo_Address := 9 |}].
Proof.
  assert (Hp : 0 < 60) by lia.
  assert (Ha : 60 < u64) by (vm_compute; reflexivity).
  assert (Hperm : reverse exFunds ≡ₚ exFunds) by apply reverse_Permutation.
  assert (Hfit : sfTotal (filter (sfCandidate ∅ []) exFunds) < u64)
    by (vm_compute; reflexivity).
  destruct (fundsf_contract reverse ∅ emptyTransaction 60 exFunds 9 8 [] Hp Ha Hperm Hfit)
    as (_ & _ & _ & _ & Hchange & _).
  destruct Hchange as [_ Hc]; [vm_compute; reflexivity|].
  destruct Hc as (Hret & Hout & _); [vm_compute; discriminate|].
  split; [exact Hret|exact Hout].
Defined.


(** ** What a call leaves behind *)

Lemma setSiacoin_id txn :
  setSiacoinInputs (setSiacoinOutputs txn (SiacoinOutputs txn ++ []))
                   (SiacoinInputs txn ++ []) = txn.
Proof. destruct txn. unfold setSiacoinInputs, setSiacoinOutputs. simpl. by rewrite !app_nil_r. Qed.

(** A successful siacoin funding, in full: what was selected, the change
    and the transaction. *)
Lemma fundTxn_val shuffle used txn amount utxos changeAddr pool toSign :
  fr_ret (fundTxn shuffle used txn amount utxos changeAddr pool) = Val toSign ->
  exists k change,
    let sel := filter (scCandidate used pool) (take k (shuffle utxos)) in
    toSign = scID <$> sel /\
    scTotal sel = amount + outputsTotal change /\
    (length change <= 1)%nat /\
    Forall (fun o => sco_Address o = changeAddr /\ changeAddr <> VoidAddress /\
                     0 < sco_Value o) change /\
    fr_txn (fundTxn shuffle used txn amount utxos changeAddr pool) =
      setSiacoinInputs (setSiacoinOutputs txn (SiacoinOutputs txn ++ change))
                       (SiacoinInputs txn ++ (scInputOf <$> toSign)).
Proof.
  unfold fundTxn, Currency_IsZero. case_bool_decide as Hz.
  { simpl. intros [= <-]. exists 0%nat, []. simpl. rewrite ?filter_nil. simpl.
    split_and!; [done|lia|lia|done|]. by rewrite setSiacoin_id. }
  destruct (scScan used (scInPool pool) amount (shuffle utxos) 0 [])
    as [[s sel]|e|p] eqn:Hscan; simpl; [|done|done].
  apply scScan_val in Hscan as (k & -> & -> & _ & _). simpl.
  case_decide as Hlt; simpl; [done|].
  case_decide as Hgt; [case_decide as Hvoid; [done|]|].
  - unfold Currency_Sub. case_decide; [|done].
    rewrite scSign_fold. simpl. intros [= <-].
    exists k, [{| sco_Value := scTotal (filter (scCandidate used pool)
                                            (take k (shuffle utxos))) - amount;
                  sco_Address := changeAddr |}].
    simpl. split_and!; [done|lia|lia| |done].
    constructor; [|done]. simpl. split_and!; [done|done|lia].
  - rewrite scSign_fold. simpl. intros [= <-].
    exists k, []. simpl. split_and!; [done|lia|lia|done|].
    by rewrite app_nil_r; destruct txn.
Qed.

Lemma fundTxnSF_selected shuffle used txn amount utxos changeAddr claimAddr pool toSign :
  fr_ret (fundTxnSF shuffle used txn amount utxos changeAddr claimAddr pool) = Val toSign ->
  exists k, toSign = sfID <$> filter (sfCandidate used pool) (take k (shuffle utxos)).
Proof.
  unfold fundTxnSF. case_bool_decide as Hz.
  { simpl. intros [= <-]. exists 0%nat. simpl. by rewrite ?filter_nil. }
  destruct (sfScan used (sfInPool pool) amount (shuffle utxos) 0 [])
    as [s sel] eqn:Hscan.
  apply sfScan_sel in Hscan as (k & ->). simpl.
  case_decide; simpl; [done|].
  case_decide; [case_decide; [done|]|];
    rewrite sfSign_fold; simpl; intros [= <-]; by exists k.
Qed.

Lemma filter_take_sublist {A} (P : A -> Prop) `{forall x, Decision (P x)} k (l : list A) :
  filter P (take k l) `sublist_of` l.
Proof.
  etrans; [apply sublist_filter|]. apply sublist_take.
Qed.

Lemma runFund_failure (used : gmap N bool) (c : FundCall) :
  (forall toSign, fr_ret (runFund used c) <> Val toSign) ->
  fr_txn (runFund used c) = txnOf c /\ fr_used (runFund used c) = used.
Proof.
  destruct c as [sh txn amount utxos ca pool|sh txn amount utxos ca cl pool]; simpl.
  - unfold fundTxn. destruct (Currency_IsZero amount); [done|].
    destruct (scScan _ _ _ _ _ _) as [[s sel]|e|p]; [|done|done].
    case_decide; [done|].
    case_decide; [case_decide; [done|]|].
    + destruct (Currency_Sub s amount); [|done|done].
      destruct (foldl scSign _ sel) as [[ts t2] u2]. simpl.
      intros Hn. by destruct (Hn ts).
    + destruct (foldl scSign _ sel) as [[ts t2] u2]. simpl.
      intros Hn. by destruct (Hn ts).
  - unfold fundTxnSF. destruct (bool_decide (amount = 0)); [done|].
    destruct (sfScan _ _ _ _ _ _) as [s sel].
    case_decide; [done|].
    case_decide; [case_decide; [done|]|];
      destruct (foldl (sfSign cl) _ sel) as [[ts t2] u2]; simpl;
      intros Hn; by destruct (Hn ts).
Qed.

(** X4. A fund or fundsf call that does not succeed, because it returns an
    error or panics, leaves the transaction and the reservations exactly as
    it found them. *)
Theorem failed_funding_changes_nothing (used : gmap N bool) (c : FundCall) :
  (forall toSign, fr_ret (runFund used c) <> Val toSign) ->
  fr_txn (runFund used c) = txnOf c /\ fr_used (runFund used c) = used.
Proof. intros Hfail. split; by apply runFund_failure. Qed.

Lemma failed_funding_witness :
  fr_txn (runFund exUsed (Fund reverse emptyTransaction 100 exUtxos 9 exPool))
    = emptyTransaction /\
  fr_used (runFund exUsed (Fund reverse emptyTransaction 100 exUtxos 9 exPool)) = exUsed.
Proof.
  apply (failed_funding_changes_nothing exUsed
           (Fund reverse emptyTransaction 100 exUtxos 9 exPool)).
  intros toSign. vm_compute. discriminate.
Defined.

(** X5. A successful fund call conserves value: the outputs it selected, of
    which it appends one input each, are candidates of the list it was
    given and are worth the amount asked for plus the change; the change is
    at most one output, of a positive value, to a change address that is not
    void; and the rest of the transaction is as it was. *)
Theorem fund_conserves_value shuffle used txn amount utxos changeAddr pool toSign :
  let r := fundTxn shuffle used txn amount utxos changeAddr pool in
  fr_ret r = Val toSign ->
  exists sel change,
    sel `sublist_of` shuffle utxos /\
    Forall (scCandidate used pool) sel /\
    toSign = scID <$> sel /\
    SiacoinInputs (fr_txn r) = SiacoinInputs txn ++ (scInputOf <$> toSign) /\
    SiacoinOutputs (fr_txn r) = SiacoinOutputs txn ++ change /\
    scTotal sel = amount + outputsTotal change /\
    (length change <= 1)%nat /\
    Forall (fun o => sco_Address o = changeAddr /\ changeAddr <> VoidAddress /\
                     0 < sco_Value o) change /\
    SiafundInputs (fr_txn r) = SiafundInputs txn /\
    SiafundOutputs (fr_txn r) = SiafundOutputs txn /\
    txn_Rest (fr_txn r) = txn_Rest txn.
Proof.
  intros r Hret. subst r.
  destruct (fundTxn_val _ _ _ _ _ _ _ _ Hret) as (k & change & Hts & Hsum & Hlen & Hch & Htxn).
  exists (filter (scCandidate used pool) (take k (shuffle utxos))), change.
  rewrite Htxn. simpl. split_and!; try done.
  - apply filter_take_sublist.
  - apply Forall_forall. intros x Hx. by apply list_elem_of_filter in Hx as [? _].
Qed.

Lemma fund_conserves_value_witness :
  exists sel change,
    [13; 11] = scID <$> sel /\
    SiacoinOutputs (fr_txn (fundTxn reverse exUsed emptyTransaction 60 exUtxos 9 exPool))
      = [] ++ change /\
    scTotal sel = 60 + outputsTotal change.
Proof.
  assert (Hret : fr_ret (fundTxn reverse exUsed emptyTransaction 60 exUtxos 9 exPool)
                 = Val [13; 11]) by (vm_compute; reflexivity).
  destruct (fund_conserves_value reverse exUsed emptyTransaction 60 exUtxos 9 exPool
              [13; 11] Hret)
    as (sel & change & _ & _ & Hts & _ & Hout & Hsum & _).
  exists sel, change. split_and!; [exact Hts|exact Hout|exact Hsum].
Defined.

(** X6. A successful fund or fundsf call signs only for outputs of the list
    the wallet manager gave it, and, when the ids of that list are distinct,
    for each at most once. *)
Theorem funding_signs_each_output_once (used : gmap N bool) (c : FundCall)
    (toSign : list Hash256) :
  fr_ret (runFund used c) = Val toSign ->
  toSign `sublist_of` utxoIDs c /\ (NoDup (utxoIDs c) -> NoDup toSign).
Proof.
  intros Hret.
  assert (Hsub : toSign `sublist_of` utxoIDs c).
  { destruct c as [sh txn amount utxos ca pool|sh txn amount utxos ca cl pool];
      simpl in *.
    - destruct (fundTxn_val _ _ _ _ _ _ _ _ Hret) as (k & change & -> & _).
      apply fmap_sublist, filter_take_sublist.
    - destruct (fundTxnSF_selected _ _ _ _ _ _ _ _ _ Hret) as (k & ->).
      apply fmap_sublist, filter_take_sublist. }
  split; [done|]. intros Hnd. by apply (sublist_NoDup _ _ Hnd).
Qed.

Lemma funding_signs_each_output_once_witness :
  [13; 11] `sublist_of` utxoIDs exCall /\ (NoDup (utxoIDs exCall) -> NoDup [13; 11]).
Proof.
  apply (funding_signs_each_output_once exUsed exCall [13; 11]).
  vm_compute. reflexivity.
Defined.

(** ** Releasing what a call reserved *)

Lemma getb_delete (m : gmap N bool) (i j : N) :
  getb (delete i m) j = if decide (i = j) then false else getb m j.
Proof.
  unfold getb. case_decide as E.
  - subst. by rewrite lookup_delete_eq.
  - by rewrite lookup_delete_ne.
Qed.

Lemma getb_release ids : forall (used : gmap N bool) j,
  getb (foldl (fun u id => delete id u) used ids) j =
  if decide (j ∈ ids) then false else getb used j.
Proof.
  induction ids as [|i ids IH]; intros used j; simpl.
  - done.
  - rewrite IH, getb_delete.
    destruct (decide (j ∈ ids)) as [Hin|Hin].
    + rewrite decide_True; [done|]. by right.
    + destruct (decide (i = j)) as [->|Hne].
      * rewrite decide_True; [done|]. by left.
      * rewrite decide_False; [done|].
        intros [->|?]%elem_of_cons; done.
Qed.

(** The release handler frees the ids listed and no other. *)
Lemma release_frees_listed decodeName decodeRelease jc used name wrr j :
  decodeName jc = Some name -> decodeRelease (jc_body jc) = Some wrr ->
  getb (server.walletsReleaseHandler decodeName decodeRelease jc used).2 j =
  if decide (j ∈ server.wrr_SiacoinOutputs wrr ++ server.wrr_SiafundOutputs wrr)
  then false else getb used j.
Proof.
  intros Hn Hr. unfold server.walletsReleaseHandler. rewrite Hn, Hr. simpl.
  rewrite !getb_release.
  destruct (decide (j ∈ server.wrr_SiafundOutputs wrr)) as [H2|H2].
  - rewrite decide_True; [done|]. apply elem_of_app. by right.
  - destruct (decide (j ∈ server.wrr_SiacoinOutputs wrr)) as [H1|H1].
    + rewrite decide_True; [done|]. apply elem_of_app. by left.
    + rewrite decide_False; [done|]. intros [?|?]%elem_of_app; done.
Qed.

(** X7. Releasing what a funding call signed for undoes its reservations:
    after a successful fund or fundsf call, a release request whose two
    lists together hold the ids of [toSign] leaves every id reserved or free
    as it was before the funding call, whatever the wallet named in the
    request. *)
Theorem release_undoes_funding (used : gmap N bool) (c : FundCall) (toSign : list Hash256)
    decodeName decodeRelease jc name wrr :
  fr_ret (runFund used c) = Val toSign ->
  decodeName jc = Some name -> decodeRelease (jc_body jc) = Some wrr ->
  server.wrr_SiacoinOutputs wrr ++ server.wrr_SiafundOutputs wrr ≡ₚ toSign ->
  forall id,
    getb (server.walletsReleaseHandler decodeName decodeRelease jc
            (fr_used (runFund used c))).2 id = getb used id.
Proof.
  intros Hret Hn Hr Hperm id.
  destruct (runFund_success _ _ _ Hret) as (Hfree & Hused & _).
  rewrite (release_frees_listed _ _ _ _ _ _ _ Hn Hr). rewrite Hused.
  case_decide as Hin.
  - rewrite Hperm in Hin. symmetry. by apply Hfree.
  - rewrite Hperm in Hin.
    destruct (getb (reserve used toSign) id) eqn:E.
    + apply getb_reserve in E as [?|E]; [done|by rewrite E].
    + destruct (getb used id) eqn:E2; [|done].
      assert (getb (reserve used toSign) id = true)
        by (apply getb_reserve; by right).
      congruence.
Qed.

Lemma release_undoes_funding_witness :
  getb (server.walletsReleaseHandler (fun _ => Some EmptyString)
          (fun _ => Some {| server.wrr_SiacoinOutputs := [11; 13];
                            server.wrr_SiafundOutputs := [] |})
          {| jc_id := EmptyString; jc_body := EmptyString |}
          (fr_used (runFund exUsed exCall))).2 11 = getb exUsed 11.
Proof.
  apply (release_undoes_funding exUsed exCall [13; 11] _ _ _ EmptyString
           {| server.wrr_SiacoinOutputs := [11; 13]; server.wrr_SiafundOutputs := [] |}).
  - vm_compute. reflexivity.
  - reflexivity.
  - reflexivity.
  - simpl. apply Permutation_swap.
Defined.

(** ** The handlers around the closures *)

(** X11. The fund and fundsf handlers change the reservations only when
    they reply with a funded transaction: then the reservations are those
    before with the ids of the reply's [toSign] marked, none of which was
    reserved, the transaction of the reply has one input more for each of
    them, and [dependsOn] is what the chain manager gives as the unconfirmed
    parents of that transaction. With any other reply (a request that does
    not decode, an error of the wallet manager, an error or a panic of the
    funding) the reservations are as they were. *)
Theorem fund_handlers_reserve_on_success_only :
  (forall W (wm : WalletManager W) cm decodeID decodeFund shuffle jc used st,
     let out := walletsFundHandler wm cm decodeID decodeFund shuffle jc used st in
     match out.1 with
     | RespFund r =>
         out.2 = reserve used (resp_ToSign r) /\
         (forall id, id ∈ resp_ToSign r -> getb used id = false) /\
         (exists wfr, decodeFund (jc_body jc) = Some wfr /\
            SiacoinInputs (resp_Transaction r) =
              SiacoinInputs (wfr_Transaction wfr) ++ (scInputOf <$> resp_ToSign r)) /\
         resp_DependsOn r = UnconfirmedParents cm (resp_Transaction r)
     | _ => out.2 = used
     end) /\
  (forall W (wm : WalletManager W) cm decodeID decodeFundSF shuffle jc used st,
     let out := walletsFundSFHandler wm cm decodeID decodeFundSF shuffle jc used st in
     match out.1 with
     | RespFund r =>
         out.2 = reserve used (resp_ToSign r) /\
         (forall id, id ∈ resp_ToSign r -> getb used id = false) /\
         (exists wfr, decodeFundSF (jc_body jc) = Some wfr /\
            SiafundInputs (resp_Transaction r) =
              SiafundInputs (wfsr_Transaction wfr) ++
              (sfInputOf (wfsr_ClaimAddress wfr) <$> resp_ToSign r)) /\
         resp_DependsOn r = UnconfirmedParents cm (resp_Transaction r)
     | _ => out.2 = used
     end).
Proof.
  split.
  - intros W wm cm decodeID decodeFund shuffle jc used st. simpl.
    unfold walletsFundHandler.
    destruct (decodeID (jc_id jc)) as [id|]; [|done].
    destruct (decodeFund (jc_body jc)) as [wfr|]; [|done].
    destruct (UnspentSiacoinOutputs wm id 0 1000 st) as [err|utxos]; [done|].
    set (c := Fund shuffle (wfr_Transaction wfr) (wfr_Amount wfr) utxos
                (wfr_ChangeAddress wfr) (PoolTransactions cm)).
    change (fundTxn shuffle used (wfr_Transaction wfr) (wfr_Amount wfr) utxos
              (wfr_ChangeAddress wfr) (PoolTransactions cm)) with (runFund used c).
    destruct (fr_ret (runFund used c)) as [toSign|e|p] eqn:Hret; simpl.
    + destruct (runFund_success _ _ _ Hret) as (Hfree & Hused & Hin & _).
      split_and!; [done|done| |done]. by exists wfr.
    + refine (proj2 (runFund_failure used c _)). intros ts. by rewrite Hret.
    + refine (proj2 (runFund_failure used c _)). intros ts. by rewrite Hret.
  - intros W wm cm decodeID decodeFundSF shuffle jc used st. simpl.
    unfold walletsFundSFHandler.
    destruct (decodeID (jc_id jc)) as [id|]; [|done].
    destruct (decodeFundSF (jc_body jc)) as [wfr|]; [|done].
    destruct (UnspentSiafundOutputs wm id 0 1000 st) as [err|utxos]; [done|].
    set (c := FundSF shuffle (wfsr_Transaction wfr) (wfsr_Amount wfr) utxos
                (wfsr_ChangeAddress wfr) (wfsr_ClaimAddress wfr) (PoolTransactions cm)).
    change (fundTxnSF shuffle used (wfsr_Transaction wfr) (wfsr_Amount wfr) utxos
              (wfsr_ChangeAddress wfr) (wfsr_ClaimAddress wfr) (PoolTransactions cm))
      with (runFund used c).
    destruct (fr_ret (runFund used c)) as [toSign|e|p] eqn:Hret; simpl.
    + destruct (runFund_success _ _ _ Hret) as (Hfree & Hused & Hin & _).
      split_and!; [done|done| |done]. by exists wfr.
    + refine (proj2 (runFund_failure used c _)). intros ts. by rewrite Hret.
    + refine (proj2 (runFund_failure used c _)). intros ts. by rewrite Hret.
Qed.

(** ** The broadcast handler *)

(** X12. [txpoolBroadcastHandler] tells the syncer to relay a transaction
    set only when the set is one of the two of the request, is not empty,
    and the chain manager has just accepted it; the v2 set is submitted at
    the tip index read after the v1 set was added. When the chain manager
    rejects the v1 set, the handler replies with that error, relays nothing
    and never submits the v2 set. When the handler replies with no error,
    it has relayed every set of the request that is not empty. *)
Theorem broadcast_relays_accepted_sets {C} (cm : server.PoolManager C)
    decodeBroadcast jc (c : C) tbr :
  decodeBroadcast (jc_body jc) = Some tbr ->
  let out := server.txpoolBroadcastHandler cm decodeBroadcast jc c in
  let v1 := server.tbr_Transactions tbr in
  let v2 := server.tbr_V2Transactions tbr in
  let added := server.AddPoolTransactions cm v1 c in
  (forall txns, server.BroadcastTransactionSet txns ∈ out.2 ->
     txns = v1 /\ v1 <> [] /\ added.1.2 = None) /\
  (forall index txns, server.BroadcastV2TransactionSet index txns ∈ out.2 ->
     txns = v2 /\ v2 <> [] /\
     exists c1, (c1 = c /\ v1 = [] \/ c1 = added.2 /\ v1 <> []) /\
                index = server.TipIndex cm c1 /\
                (server.AddV2PoolTransactions cm index v2 c1).1.2 = None) /\
  (forall err, v1 <> [] -> added.1.2 = Some err ->
     out = (server.replyCheck "invalid transaction set" err, added.2, [])) /\
  (out.1.1 = server.ReplyNothing ->
     (v1 <> [] -> server.BroadcastTransactionSet v1 ∈ out.2) /\
     (v2 <> [] -> exists index, server.BroadcastV2TransactionSet index v2 ∈ out.2)).
Proof.
  intros Hdec out v1 v2 added. subst out. unfold server.txpoolBroadcastHandler.
  rewrite Hdec. fold v1 v2.
  assert (Hlen : forall {A} (l : list A), length l <> 0%nat <-> l <> [])
    by (intros A [|? ?]; simpl; split; congruence).
  destruct (decide (length v1 <> 0%nat)) as [H1|H1].
  - apply Hlen in H1. fold added.
    destruct added as [[known [err|]] c1] eqn:Hadd; simpl.
    + split_and!.
      * intros txns Hin. by apply elem_of_nil in Hin.
      * intros index txns Hin. by apply elem_of_nil in Hin.
      * by intros err' _ [= <-].
      * done.
    + destruct (decide (length v2 <> 0%nat)) as [H2|H2].
      * apply Hlen in H2.
        destruct (server.AddV2PoolTransactions cm (server.TipIndex cm c1) v2 c1)
          as [[known2 [err2|]] c2] eqn:Hadd2; simpl.
        -- split_and!.
           ++ intros txns [= ->]%list_elem_of_singleton. done.
           ++ intros index txns [=]%list_elem_of_singleton.
           ++ done.
           ++ done.
        -- split_and!.
           ++ intros txns [[= ->]|[=]%list_elem_of_singleton]%elem_of_cons. done.
           ++ intros index txns [[=]|[= -> ->]%list_elem_of_singleton]%elem_of_cons.
              split_and!; [done|done|]. exists c1. rewrite Hadd2. split_and!; [|done|done].
              right. done.
           ++ done.
           ++ intros _. split; [intros _; left|].
              intros _. eexists. right. left.
      * split_and!.
        -- intros txns [= ->]%list_elem_of_singleton. done.
        -- intros index txns [=]%list_elem_of_singleton.
        -- done.
        -- intros _. split; [intros _; left|].
           intros H2'. apply Hlen in H2'. done.
  - assert (Hnil : v1 = []) by (destruct v1; [done|]; exfalso; by apply H1).
    simpl.
    destruct (decide (length v2 <> 0%nat)) as [H2|H2].
    + apply Hlen in H2.
      destruct (server.AddV2PoolTransactions cm (server.TipIndex cm c) v2 c)
        as [[known2 [err2|]] c2] eqn:Hadd2; simpl.
      * split_and!.
        -- intros txns Hin. by apply elem_of_nil in Hin.
        -- intros index txns Hin. by apply elem_of_nil in Hin.
        -- done.
        -- done.
      * split_and!.
        -- intros txns [=]%list_elem_of_singleton.
        -- intros index txns [= -> ->]%list_elem_of_singleton.
           split_and!; [done|done|]. exists c. rewrite Hadd2. split_and!; [|done|done].
           by left.
        -- done.
        -- intros _. split; [done|]. intros _. eexists. left.
    + split_and!.
      * intros txns Hin. by apply elem_of_nil in Hin.
      * intros index txns Hin. by apply elem_of_nil in Hin.
      * done.
      * intros _. split; [done|]. intros H2'. apply Hlen in H2'. done.
Qed.

Lemma broadcast_relays_witness :
  server.txpoolBroadcastHandler
    {| server.TipIndex := fun _ : unit => {| Height := 0; ci_ID := 0 |};
       server.AddPoolTransactions := fun _ c => (false, Some errInsufficientBalance, c);
       server.AddV2PoolTransactions := fun _ _ c => (false, None, c) |}
    (fun _ => Some {| server.tbr_Transactions := [emptyTransaction];
                      server.tbr_V2Transactions := [] |})
    {| jc_id := EmptyString; jc_body := EmptyString |} tt =
  (server.replyCheck "invalid transaction set" errInsufficientBalance, tt, []).
Proof.
  pose proof (broadcast_relays_accepted_sets
    {| server.TipIndex := fun _ : unit => {| Height := 0; ci_ID := 0 |};
       server.AddPoolTransactions := fun _ c => (false, Some errInsufficientBalance, c);
       server.AddV2PoolTransactions := fun _ _ c => (false, None, c) |}
    (fun _ => Some {| server.tbr_Transactions := [emptyTransaction];
                      server.tbr_V2Transactions := [] |})
    {| jc_id := EmptyString; jc_body := EmptyString |} tt
    {| server.tbr_Transactions := [emptyTransaction]; server.tbr_V2Transactions := [] |}
    eq_refl) as (_ & _ & Hrej & _).
  apply (Hrej errInsufficientBalance); [discriminate|reflexivity].
Defined.

(** ** Reserving through the wallet manager *)

Lemma foldl_snoc {A} (l : list A) : forall acc,
  foldl (fun ids id => ids ++ [id]) acc l = acc ++ l.
Proof.
  induction l as [|x l IH]; intros acc; simpl; [by rewrite app_nil_r|].
  by rewrite IH, <- app_assoc.
Qed.

(** X15. [walletsReserveHandler] hands the ids of the request, siacoin
    outputs first, to the wallet manager's [Reserve] and leaves the
    server's own reservations [s.used] as they are. The fund handler reads
    no reservation but [s.used]: after a reserve request, a fund request is
    answered as it would have been before it, with the same reply and the
    same reservations, whenever the wallet manager lists the same unspent
    outputs for the wallet. *)
Theorem reserve_handler_leaves_used {W} (wm : WalletManager W) cm
    (reserve : list Hash256 -> Z -> W -> option error * W)
    decodeReserve decodeID decodeFund shuffle jc1 jc2 used st wrr id :
  decodeReserve (jc_body jc1) = Some wrr ->
  decodeID (jc_id jc2) = Some id ->
  let ids := server.wrsv_SiacoinOutputs wrr ++ server.wrsv_SiafundOutputs wrr in
  let reserved := reserve ids (server.wrsv_Duration wrr) st in
  let out := server.walletsReserveHandler reserve decodeReserve jc1 used st in
  out.1.2 = used /\ out.2 = reserved.2 /\
  (out.1.1 = server.ReplyNothing <-> reserved.1 = None) /\
  (UnspentSiacoinOutputs wm id 0 1000 reserved.2 = UnspentSiacoinOutputs wm id 0 1000 st ->
   walletsFundHandler wm cm decodeID decodeFund shuffle jc2 out.1.2 out.2 =
   walletsFundHandler wm cm decodeID decodeFund shuffle jc2 used st).
Proof.
  intros Hdec Hid ids reserved out. subst out. unfold server.walletsReserveHandler.
  rewrite Hdec. rewrite !foldl_snoc. simpl. fold ids. fold reserved.
  destruct reserved as [[err|] st'] eqn:Hres; simpl.
  - split_and!; [done|done|split; done|].
    intros Hsame. unfold walletsFundHandler. rewrite Hid.
    destruct (decodeFund (jc_body jc2)); [|done]. by rewrite Hsame.
  - split_and!; [done|done|split; done|].
    intros Hsame. unfold walletsFundHandler. rewrite Hid.
    destruct (decodeFund (jc_body jc2)); [|done]. by rewrite Hsame.
Qed.

Lemma reserve_handler_witness :
  (server.walletsReserveHandler (fun _ _ (st : manager.State) => (None, st))
     (fun _ => Some {| server.wrsv_SiacoinOutputs := [1; 2];
                       server.wrsv_SiafundOutputs := [];
                       server.wrsv_Duration := 0 |})
     {| jc_id := EmptyString; jc_body := EmptyString |} ∅ bigWallet).1.2 = ∅.
Proof.
  apply (reserve_handler_leaves_used manager.walletManager emptyPool
           (fun _ _ (st : manager.State) => (None, st))
           (fun _ => Some {| server.wrsv_SiacoinOutputs := [1; 2];
                             server.wrsv_SiafundOutputs := [];
                             server.wrsv_Duration := 0 |})
           (fun _ => Some 1) (fun _ => None) (fun l => l)
           {| jc_id := EmptyString; jc_body := EmptyString |}
           {| jc_id := EmptyString; jc_body := EmptyString |} ∅ bigWallet
           {| server.wrsv_SiacoinOutputs := [1; 2];
              server.wrsv_SiafundOutputs := [];
              server.wrsv_Duration := 0 |} 1 eq_refl eq_refl).
Defined.

End fundingMore.

(** * Further properties of update.go: balances, ephemeral outputs, the order of the reverter *)
Module updatesMore.
Import wallet updateSpec traceSpec updates tracing.

(** ** The balance functions of revert against those of apply *)

Lemma Balance_eq (b1 b2 : Balance) :
  Siacoins b1 = Siacoins b2 -> ImmatureSiacoins b1 = ImmatureSiacoins b2 ->
  Siafunds b1 = Siafunds b2 -> b1 = b2.
Proof. destruct b1, b2. simpl. by intros -> -> ->. Qed.

Lemma add64_sub64 a v : a < u64 -> v < u64 -> sub64 (add64 a v) v = a.
Proof.
  intros Ha Hv. unfold sub64, add64. rewrite (N.mod_small v) by done.
  destruct (decide (a + v < u64)) as [Hs|Hs].
  - rewrite (N.mod_small (a + v)) by done.
    replace (a + v + u64 - v) with (a + 1 * u64) by lia.
    rewrite N.Div0.mod_add. by apply N.mod_small.
  - assert (Hm : (a + v) mod u64 = a + v - u64).
    { replace (a + v) with ((a + v - u64) + 1 * u64) at 1 by lia.
      rewrite N.Div0.mod_add. apply N.mod_small. lia. }
    rewrite Hm. replace (a + v - u64 + u64 - v) with a by lia.
    by apply N.mod_small.
Qed.

Lemma sub64_add64 a v : v <= a -> a < u64 -> add64 (sub64 a v) v = a.
Proof.
  intros Hv Ha. unfold sub64, add64. rewrite (N.mod_small v) by lia.
  replace (a + u64 - v) with ((a - v) + 1 * u64) by lia.
  rewrite N.Div0.mod_add. rewrite (N.mod_small (a - v)) by lia.
  replace (a - v + v) with a by lia. by apply N.mod_small.
Qed.

(** X8. On a balance whose fields fit their types, the balance functions of
    [RevertChainUpdate] undo those of [ApplyChainUpdates]: when the function
    that apply runs for an element returns a balance, the function that
    revert runs for the same element takes that balance back to the one
    before. For a siacoin element, apply runs at the height of the block
    and revert at the height below; the two then agree unless the element
    matures exactly at the height of the block. *)
Theorem revert_fn_undoes_apply_fn (b : Balance) :
  wfBalance b ->
  (forall se b', applyMaturedFn se b = Val b' -> revertMaturedFn se b' = Val b) /\
  (forall h se spent b',
     MaturityHeight se <> h + 1 ->
     applySiacoinFn (h + 1) se spent b = Val b' ->
     revertSiacoinFn h se spent b' = Val b) /\
  (forall se spent b',
     sfValue se < u64 ->
     applySiafundFn se spent b = Val b' -> revertSiafundFn se spent b' = Val b).
Proof.
  intros (Hsc & Him & Hsf). unfold wfCurrency in *. split_and!.
  - intros se b'. unfold applyMaturedFn, revertMaturedFn, Currency_Sub, Currency_Add.
    case_decide; simpl; [|done]. case_decide; simpl; [|done]. intros [= <-]. simpl.
    rewrite decide_True by lia. simpl. rewrite decide_True by lia. simpl.
    f_equal. apply Balance_eq; simpl; lia.
  - intros h se spent b' Hne.
    unfold applySiacoinFn, revertSiacoinFn, Currency_Sub, Currency_Add.
    destruct (decide (h + 1 < MaturityHeight se)) as [Hlt|Hge].
    + rewrite (decide_True (P := h < MaturityHeight se)) by lia.
      case_decide; simpl; [|done]. intros [= <-]. simpl.
      rewrite decide_True by lia. simpl. f_equal. apply Balance_eq; simpl; lia.
    + rewrite (decide_False (P := h < MaturityHeight se)) by lia. destruct spent.
      * case_decide; simpl; [|done]. intros [= <-]. simpl.
        rewrite decide_True by lia. simpl. f_equal. apply Balance_eq; simpl; lia.
      * case_decide; simpl; [|done]. intros [= <-]. simpl.
        rewrite decide_True by lia. simpl. f_equal. apply Balance_eq; simpl; lia.
  - intros se spent b' Hv. unfold applySiafundFn, revertSiafundFn. destruct spent.
    + case_decide; [done|]. intros [= <-]. simpl. f_equal.
      apply Balance_eq; simpl; try done. apply sub64_add64; lia.
    + intros [= <-]. simpl. f_equal.
      apply Balance_eq; simpl; try done. by apply add64_sub64.
Qed.

Lemma revert_fn_undoes_apply_fn_witness :
  revertSiacoinFn 5 examples.tracked true
    {| Siacoins := 95; ImmatureSiacoins := 0; Siafunds := 0 |} =
  Val {| Siacoins := 100; ImmatureSiacoins := 0; Siafunds := 0 |}.
Proof.
  assert (Hwf : wfBalance {| Siacoins := 100; ImmatureSiacoins := 0; Siafunds := 0 |})
    by (vm_compute; split_and!; try discriminate; reflexivity).
  destruct (revert_fn_undoes_apply_fn _ Hwf) as (_ & Hsc & _).
  apply (Hsc 5 examples.tracked true).
  - vm_compute. discriminate.
  - vm_compute. reflexivity.
Defined.

(** ** What the detection of ephemeral outputs flags *)
Section flagged.
Context `{Env}.

Lemma ephemeral_fold_true {I : Type} (pid : I -> N) (created : gmap N bool) (l : list I) :
  forall (e : gmap N bool) id,
  getb (foldl (fun e inp => <[pid inp := getb created (pid inp)]> e) e l) id = true ->
  getb e id = true \/ (getb created id = true /\ exists inp, inp ∈ l /\ pid inp = id).
Proof.
  induction l as [|inp l IH]; intros e id; simpl; [by left|].
  intros [He|(Hc & i & Hi & Hp)]%IH.
  - rewrite getb_insert in He. case_decide as E; [|by left].
    right. subst id. split; [done|]. exists inp. split; [left|done].
  - right. split; [done|]. exists i. split; [by right|done].
Qed.

Lemma mark_created_inv t ce id :
  getb (markTransaction ce t).1 id = true -> getb ce.1 id = true \/ createdBy t id.
Proof.
  destruct ce as [created ephemeral]. simpl.
  intros [[Hc|(k & Hk & Hid)]%created_fold|(k & Hk & Hid)]%created_fold.
  - by left.
  - right. left. exists k. split; [|done]. apply elem_of_seq in Hk. lia.
  - right. right. exists k. split; [|done]. apply elem_of_seq in Hk. lia.
Qed.

Lemma mark_sound t ce id :
  getb (markTransaction ce t).2 id = true ->
  getb ce.2 id = true \/ (spentBy t id /\ (getb ce.1 id = true \/ createdBy t id)).
Proof.
  destruct ce as [created ephemeral]. simpl.
  intros [[He|(Hc & i & Hi & Hp)]%ephemeral_fold_true|(Hc & i & Hi & Hp)]%ephemeral_fold_true.
  - by left.
  - right. split; [left; by exists i|].
    apply created_fold in Hc as [Hc|(k & Hk & Hid)]; [by left|].
    right. left. exists k. split; [|done]. apply elem_of_seq in Hk. lia.
  - right. split; [right; by exists i|].
    apply (mark_created_inv t (created, ephemeral) id). simpl. done.
Qed.

Lemma fold_mark_sound l :
  let ce := foldl markTransaction (∅, ∅) l in
  (forall id, getb ce.1 id = true -> exists t, t ∈ l /\ createdBy t id) /\
  (forall id, getb ce.2 id = true ->
     (exists pre t1 mid t2 post,
        l = pre ++ t1 :: mid ++ t2 :: post /\ createdBy t1 id /\ spentBy t2 id) \/
     (exists t, t ∈ l /\ createdBy t id /\ spentBy t id)).
Proof.
  induction l as [|t l IH] using rev_ind; simpl.
  - split; intros id; unfold getb; rewrite lookup_empty; done.
  - destruct IH as [IHc IHe]. rewrite foldl_app. simpl. split.
    + intros id [Hc|Hc]%mark_created_inv.
      * destruct (IHc id Hc) as (t' & Hin & Hcr). exists t'.
        split; [apply elem_of_app; by left|done].
      * exists t. split; [apply elem_of_app; right; left|done].
    + intros id [He|(Hs & [Hc|Hc])]%mark_sound.
      * destruct (IHe id He) as [(pre & t1 & mid & t2 & post & -> & Hc & Hs)
                                 |(t' & Hin & Hc & Hs)].
        -- left. exists pre, t1, mid, t2, (post ++ [t]).
           split; [|done]. by rewrite <- !app_assoc, <- !app_comm_cons, <- app_assoc.
        -- right. exists t'. split; [apply elem_of_app; by left|done].
      * destruct (IHc id Hc) as (t' & Hin & Hcr).
        apply list_elem_of_split in Hin as (pre & mid & ->).
        left. exists pre, t', mid, t, []. split; [|done].
        by rewrite <- app_assoc, <- app_comm_cons.
      * right. exists t. split; [apply elem_of_app; right; left|done].
Qed.

(** X9. The detection of ephemeral outputs flags no other output than one
    that a v1 transaction of the block creates and that the same or a later
    v1 transaction of the block spends: never an output the block did not
    create, never one it does not spend, and never one spent before the
    transaction that creates it. *)
Theorem flagged_outputs_are_created_then_spent (b : Block) (id : Hash256) :
  getb (ephemeralElements b) id = true ->
  ephemeralV1 b id \/
  exists t, t ∈ Transactions b /\ createdBy t id /\ spentBy t id.
Proof.
  intros Hf. destruct (fold_mark_sound (Transactions b)) as [_ He].
  apply He in Hf as [(pre & t1 & mid & t2 & post & Hb & Hc & Hs)|Hself].
  - left. by exists pre, t1, mid, t2, post.
  - by right.
Qed.

End flagged.

Lemma flagged_outputs_witness :
  ephemeralV1 examples.v1Block 7000 \/
  exists t, t ∈ Transactions examples.v1Block /\ createdBy t 7000 /\ spentBy t 7000.
Proof.
  apply (flagged_outputs_are_created_then_spent examples.v1Block 7000).
  vm_compute. reflexivity.
Defined.

(** ** The order of the calls of the reverter *)
Section order.
Context `{Env} {S : Type}.
Implicit Types t : list (Call * option error).

(** From what a computation calls and returns to its [wp]. *)
Lemma wp_reads {A} (Q : A -> Prop) (m : M S A) t :
  callsOnly isRead m -> ensures Q m -> readsOnly t ->
  wp m (post (fun t a => readsOnly t /\ Q a) (fun t _ => readsOnly t)
             (fun t _ => readsOnly t)) t.
Proof.
  intros Hc He Ht s. specialize (Hc s). specialize (He s).
  assert (Hall : readsOnly (t ++ traceOf (m s))) by (apply Forall_app; by split).
  destruct (outcomeOf (m s)) as [a|e|p] eqn:E; simpl; [|done|done].
  split; [done|]. by apply He.
Qed.

Lemma seqPost_failed reads full n c t err e :
  full !! n = Some c -> t.*1 = reads ++ take n full ->
  seqPost reads full (t ++ [(c, err)]) (Err e).
Proof.
  intros Hn Ht. exists (take (Datatypes.S n) full). split_and!.
  - rewrite fmap_app, Ht. simpl. rewrite (take_S_r _ _ _ Hn). by rewrite app_assoc.
  - apply prefix_take.
  - done.
Qed.

Lemma seq_stepE reads full n c (f : S -> option error * S) msg (k : M S unit) t :
  full !! n = Some c -> t.*1 = reads ++ take n full ->
  (forall t', t'.*1 = reads ++ take (Datatypes.S n) full -> wp k (seqPost reads full) t') ->
  wp (callE c f ≫= (fun r => orReturnE msg r ≫= (fun _ => k))) (seqPost reads full) t.
Proof.
  intros Hn Ht Hk. apply wp_bind, wp_callE. intros s r s1 _. apply wp_bind.
  destruct r as [err|]; simpl.
  - apply wp_fail. by apply (seqPost_failed _ _ n).
  - apply wp_ret. apply Hk.
    rewrite fmap_app, Ht. simpl. rewrite (take_S_r _ _ _ Hn). by rewrite app_assoc.
Qed.

Lemma seq_stepV {A} reads full n c (f : S -> (error + A) * S) msg (k : A -> M S unit) t :
  full !! n = Some c -> t.*1 = reads ++ take n full ->
  (forall a t', t'.*1 = reads ++ take (Datatypes.S n) full ->
                wp (k a) (seqPost reads full) t') ->
  wp (callV c f ≫= (fun r => orReturn msg r ≫= k)) (seqPost reads full) t.
Proof.
  intros Hn Ht Hk. apply wp_bind, wp_callV. intros s r s1 _. apply wp_bind.
  destruct r as [err|a]; simpl.
  - apply wp_fail. by apply (seqPost_failed _ _ n).
  - apply wp_ret. apply Hk.
    rewrite fmap_app, Ht. simpl. rewrite (take_S_r _ _ _ Hn). by rewrite app_assoc.
Qed.

Lemma seq_last reads full n c (f : S -> option error * S) t :
  full !! n = Some c -> length full = Datatypes.S n -> t.*1 = reads ++ take n full ->
  wp (callE c f ≫= (fun r => match r with
                              | Some err => fail err
                              | None => mret tt
                              end)) (seqPost reads full) t.
Proof.
  intros Hn Hlen Ht. apply wp_bind, wp_callE. intros s r s1 _.
  destruct r as [err|]; simpl.
  - apply wp_fail. by apply (seqPost_failed _ _ n).
  - apply wp_ret. exists full. split_and!; [|done|done].
    rewrite fmap_app, Ht. simpl. rewrite <- app_assoc. f_equal.
    rewrite <- (take_S_r _ _ _ Hn). apply take_ge. lia.
Qed.

Lemma maturedElement_reads (tx : UpdateTx S) fn bal se :
  callsOnly isRead (maturedElement tx fn bal se).
Proof. unfold maturedElement, updateBalance. calls_only; done. Qed.

Lemma revertSiacoinElement_reads (tx : UpdateTx S) eph h v x :
  callsOnly isRead (revertSiacoinElement tx eph h v x).
Proof. unfold revertSiacoinElement, updateBalance. calls_only; done. Qed.

Lemma revertSiafundElement_reads (tx : UpdateTx S) eph v x :
  callsOnly isRead (revertSiafundElement tx eph v x).
Proof. unfold revertSiafundElement, updateBalance. calls_only; done. Qed.

(** The lists that the two callbacks of the reverter build. *)
Lemma revertSiacoinElement_lists (tx : UpdateTx S) eph h l v x :
  x ∈ l ->
  reAdds l v.1.1.2 /\ removesCreated (fun e => ID (sce_StateElement e)) l v.1.2 ->
  ensures (fun v' => reAdds l v'.1.1.2 /\
                     removesCreated (fun e => ID (sce_StateElement e)) l v'.1.2)
          (revertSiacoinElement tx eph h v x).
Proof.
  destruct v as [[[b a] d] err], x as [se spent]. simpl. intros Hx [Ha Hd].
  destruct err; [by apply ensures_ret|].
  skip_bind. destruct a0 as [e|[|]]; [by apply ensures_ret| |by apply ensures_ret].
  destruct (getb eph _); [by apply ensures_ret|].
  destruct spent; simpl; skip_bind; destruct a0 as [e' b']; apply ensures_ret; simpl.
  - split; [|done]. apply Forall_app. split; [done|]. by constructor.
  - split; [done|]. apply Forall_app. split; [done|]. constructor; [|done]. by exists se.
Qed.

Lemma revertSiafundElement_lists (tx : UpdateTx S) eph l v x :
  x ∈ l ->
  reAdds l v.1.1.1.2 /\ removesCreated (fun e => ID (sfe_StateElement e)) l v.1.1.2 ->
  ensures (fun v' => reAdds l v'.1.1.1.2 /\
                     removesCreated (fun e => ID (sfe_StateElement e)) l v'.1.1.2)
          (revertSiafundElement tx eph v x).
Proof.
  destruct v as [[[[b a] d] err1] err2], x as [se spent]. simpl. intros Hx [Ha Hd].
  destruct err2; [by apply ensures_ret|].
  skip_bind. destruct a0 as [e|[|]]; [by apply ensures_ret| |by apply ensures_ret].
  destruct (getb eph _); [by apply ensures_ret|].
  destruct spent; simpl; skip_bind; destruct a0 as [e' b']; apply ensures_ret; simpl.
  - split; [|done]. apply Forall_app. split; [done|]. by constructor.
  - split; [done|]. apply Forall_app. split; [done|]. constructor; [|done]. by exists se.
Qed.

Lemma revertShape_reads cru t (o : outcome unit) :
  readsOnly t -> o <> Val tt -> revertShape cru t o.
Proof.
  intros Ht Ho. exists t.*1, []. rewrite app_nil_r. split_and!; [done| | |done].
  - by apply Forall_fmap.
  - apply prefix_nil.
Qed.

Lemma revert_shape (tx : RevertTx S) cru :
  wp (RevertChainUpdate tx cru) (revertShape cru) [].
Proof.
  unfold RevertChainUpdate.
  apply wp_bind, wp_callV. intros s0 r s1 _. simpl.
  assert (Ht0 : readsOnly [(CMaturedSiacoinElements (revertedIndexOf cru), errorOf r)])
    by by repeat constructor.
  apply wp_bind. destruct r as [err|matured]; simpl.
  { apply wp_fail. by apply revertShape_reads. }
  apply wp_ret, wp_bind. eapply wp_conseq.
  { apply (wp_reads (fun _ => True)); [|apply ensures_any|exact Ht0].
    apply callsOnly_forEach. intros v a. apply maturedElement_reads. }
  intros t1 [b1|e|p] H1; simpl in *; [|by apply revertShape_reads..].
  destruct H1 as [Ht1 _].
  apply wp_bind. eapply wp_conseq.
  { apply (wp_reads (fun v' => reAdds (ru_SiacoinElements cru) v'.1.1.2 /\
                               removesCreated (fun e => ID (sce_StateElement e))
                                 (ru_SiacoinElements cru) v'.1.2));
      [| |exact Ht1].
    - apply callsOnly_forEach. intros v a. apply revertSiacoinElement_reads.
    - apply (ensures_forEach _ _ (ru_SiacoinElements cru)).
      + intros v a Ha Hv. by apply revertSiacoinElement_lists.
      + simpl. split; constructor. }
  intros t2 [[[[b2 a2] d2] err2]|e|p] H2; simpl in *; [|by apply revertShape_reads..].
  destruct H2 as (Ht2 & Ha2 & Hd2).
  apply wp_bind. destruct err2 as [e2|]; [apply wp_fail; by apply revertShape_reads|].
  apply wp_ret, wp_bind. eapply wp_conseq.
  { apply (wp_reads (fun v' => reAdds (ru_SiafundElements cru) v'.1.1.1.2 /\
                               removesCreated (fun e => ID (sfe_StateElement e))
                                 (ru_SiafundElements cru) v'.1.1.2));
      [| |exact Ht2].
    - apply callsOnly_forEach. intros v a. apply revertSiafundElement_reads.
    - apply (ensures_forEach _ _ (ru_SiafundElements cru)).
      + intros v a Ha Hv. by apply revertSiafundElement_lists.
      + simpl. split; constructor. }
  intros t3 [[[[[b3 a3] d3] err3] err4]|e|p] H3; simpl in *;
    [|by apply revertShape_reads..].
  destruct H3 as (Ht3 & Ha3 & Hd3).
  apply wp_bind. destruct err4 as [e4|]; [apply wp_fail; by apply revertShape_reads|].
  apply wp_ret.
  set (full := revertCalls cru (toBalanceChanges b3) a2 d2 a3 d3).
  apply (wp_conseq _ (seqPost t3.*1 full)).
  - apply (seq_stepE _ full 0); [done|by rewrite app_nil_r|intros ? ?].
    apply (seq_stepE _ full 1); [done|done|intros ? ?].
    apply (seq_stepE _ full 2); [done|done|intros ? ?].
    apply (seq_stepV _ full 3); [done|done|intros ? ? ?].
    apply (seq_stepE _ full 4); [done|done|intros ? ?].
    apply (seq_stepE _ full 5); [done|done|intros ? ?].
    apply (seq_stepV _ full 6); [done|done|intros ? ? ?].
    by apply (seq_last _ full 7).
  - intros t' o (tail & Ht' & Hpre & Hval). exists t3.*1, tail. split_and!.
    + done.
    + by apply Forall_fmap.
    + change revertOrder with (methodOf <$> full).
      destruct Hpre as [rest ->]. exists (methodOf <$> rest). by rewrite fmap_app.
    + intros Ho. exists (toBalanceChanges b3), a2, d2, a3, d3.
      rewrite (Hval Ho). done.
Qed.

Lemma trace_starts_with_call {A B} c (f : S -> (error + A) * S) (k : error + A -> M S B) s :
  head (traceOf ((callV c f ≫= k) s)).*1 = Some c.
Proof.
  unfold mbind, M_bind, bind, callV, traceOf.
  destruct (f s) as [r s1]. simpl. by destruct (k r s1) as [[o s2] t].
Qed.

(** X10. [RevertChainUpdate] first asks the store for the siacoin elements
    matured at the index of the reverted block, which is one above the
    height of the state reverted to and has the id of the block. Every call
    it makes before [UpdateBalances] is a read. From there it calls, in this
    order, UpdateBalances, AddSiacoinElements, RemoveSiacoinElements,
    SiacoinStateElements, AddSiafundElements, RemoveSiafundElements,
    SiafundStateElements and RevertEvents at the index of the reverted
    block: a prefix of these when a call fails, all eight when it returns
    nil. It adds back only elements that the update lists as spent, and
    removes only ids of elements that the update lists as created. *)
Theorem revert_calls_in_order (tx : RevertTx S) (cru : RevertUpdate) (s : S) :
  head (traceOf (RevertChainUpdate tx cru s)).*1
    = Some (CMaturedSiacoinElements (revertedIndexOf cru)) /\
  revertShape cru (traceOf (RevertChainUpdate tx cru s))
                  (outcomeOf (RevertChainUpdate tx cru s)).
Proof.
  split.
  - unfold RevertChainUpdate. apply trace_starts_with_call.
  - apply (revert_shape tx cru s).
Qed.

End order.

(** ** The balances read from the store *)
Section cache.
Context `{Env} {S : Type}.
Implicit Types t : list (Call * option error).

Lemma wp_ext {A} (m : M S A) (Q : _ -> outcome A -> Prop) t :
  wp m Q t -> wp m (fun t' o => Q t' o /\ exists t2, t' = t ++ t2) t.
Proof. intros Hm s. split; [apply Hm|]. by eexists. Qed.

Lemma cached_NoDup t bal : cached t bal -> NoDup (balanceReads t).
Proof. intros Hc. unfold cached in Hc. rewrite Hc. apply NoDup_fst_map_to_list. Qed.

Lemma cached_other t bal c r :
  balanceRead (c, r) = None -> cached t bal -> cached (t ++ [(c, r)]) bal.
Proof.
  intros Hn Hc. unfold cached, balanceReads in *. rewrite omap_app.
  assert (Hnil : omap balanceRead [(c, r)] = []) by (destruct c, r; by simpl in * ).
  by rewrite Hnil, app_nil_r.
Qed.

Lemma cached_new t bal addr b :
  bal !! addr = None -> cached t bal ->
  cached (t ++ [(CAddressBalance addr, None)]) (<[addr := b]> bal).
Proof.
  intros Hn Hc. unfold cached, balanceReads in *. rewrite omap_app. simpl.
  rewrite map_to_list_insert by done. simpl. rewrite Hc.
  by rewrite <- Permutation_cons_append.
Qed.

Lemma cached_old t bal addr b0 b :
  bal !! addr = Some b0 -> cached t bal -> cached t (<[addr := b]> bal).
Proof.
  intros Hs Hc. unfold cached in *. rewrite Hc.
  rewrite <- (insert_delete_id bal addr b0) at 1 by done.
  rewrite <- (insert_delete_eq bal addr b).
  rewrite !map_to_list_insert by apply lookup_delete_eq. done.
Qed.

Lemma balanceReads_nil t : Forall notBalanceCall t.*1 -> balanceReads t = [].
Proof.
  induction t as [|[c r] t IH]; [done|]. simpl.
  intros [Hc Ht]%Forall_cons. unfold balanceReads in *. simpl.
  rewrite (IH Ht). by destruct c, r.
Qed.

Lemma prefix_Forall {A} (P : A -> Prop) (l1 l2 : list A) :
  l1 `prefix_of` l2 -> Forall P l2 -> Forall P l1.
Proof. intros [k ->] [H1 _]%Forall_app. done. Qed.

Abbreviation okReads := (fun t (_ : error) => NoDup (balanceReads t)).

Lemma updateBalance_cached (tx : UpdateTx S) bal addr fn t :
  cached t bal ->
  wp (updateBalance tx bal addr fn) (post (fun t r => cached t r.2) okReads okReads) t.
Proof.
  intros Hc. pose proof (cached_NoDup _ _ Hc) as Hnd.
  unfold updateBalance. destruct (bal !! addr) as [b0|] eqn:Hl.
  - apply wp_bind, wp_lift. destruct (fn b0) as [b1|e|p]; simpl; [|done|done].
    apply wp_ret. simpl. by apply (cached_old _ _ _ b0).
  - apply wp_bind, wp_callV. intros s r s1 _. destruct r as [err|b0]; simpl.
    + apply wp_ret. simpl. by apply cached_other.
    + pose proof (cached_new _ _ _ b0 Hl Hc) as Hc1.
      apply wp_bind, wp_lift. destruct (fn b0) as [b1|e|p]; simpl.
      * apply wp_ret. simpl. by apply cached_new.
      * by apply cached_NoDup in Hc1.
      * by apply cached_NoDup in Hc1.
Qed.

Lemma maturedElement_cached (tx : UpdateTx S) fn bal se t :
  cached t bal ->
  wp (maturedElement tx fn bal se) (post cached okReads okReads) t.
Proof.
  intros Hc. unfold maturedElement. apply wp_bind.
  eapply wp_conseq; [by apply updateBalance_cached|].
  intros t' [[[e|] b]|e|p] Hr; simpl in *; try done.
  - apply wp_fail. simpl. by apply cached_NoDup in Hr.
  - by apply wp_ret.
Qed.

Lemma applySiacoinElement_cached (tx : UpdateTx S) eph h v x t :
  cached t v.1.1.1 ->
  wp (applySiacoinElement tx eph h v x)
     (post (fun t v' => cached t v'.1.1.1) okReads okReads) t.
Proof.
  destruct v as [[[b n] sp] err], x as [se spent]. simpl. intros Hc.
  destruct err as [e0|]; [by apply wp_ret|].
  destruct (getb eph _); [by apply wp_ret|].
  apply wp_bind, wp_callV. intros s r s1 _.
  assert (Hc1 : cached (t ++ [(CAddressRelevant (scAddr se), errorOf r)]) b)
    by by apply cached_other.
  destruct r as [err|[|]]; simpl; [by apply wp_ret| |by apply wp_ret].
  destruct spent; simpl; apply wp_bind;
    (eapply wp_conseq; [by apply updateBalance_cached|]);
    intros t' [[[e|] b']|e|p] Hr; simpl in *; try done; by apply wp_ret.
Qed.

Lemma applySiafundElement_cached (tx : UpdateTx S) eph v x t :
  cached t v.1.1.1 ->
  wp (applySiafundElement tx eph v x)
     (post (fun t v' => cached t v'.1.1.1) okReads okReads) t.
Proof.
  destruct v as [[[b n] sp] err], x as [se spent]. simpl. intros Hc.
  destruct err as [e0|]; [by apply wp_ret|].
  destruct (getb eph _); [by apply wp_ret|].
  apply wp_bind, wp_callV. intros s r s1 _.
  assert (Hc1 : cached (t ++ [(CAddressRelevant (sfAddr se), errorOf r)]) b)
    by by apply cached_other.
  destruct r as [err|[|]]; simpl; [by apply wp_ret| |by apply wp_ret].
  destruct spent; simpl; apply wp_bind;
    (eapply wp_conseq; [by apply updateBalance_cached|]);
    intros t' [[[e|] b']|e|p] Hr; simpl in *; try done; by apply wp_ret.
Qed.

Lemma runEventQuery_cached (tx : UpdateTx S) bal q : forall t,
  cached t bal ->
  wp (runEventQuery tx q)
     (post (fun t _ => cached t bal) okReads okReads) t.
Proof.
  induction q as [evs|addr k IH]; intros t Hc; simpl.
  - by apply wp_ret.
  - apply wp_bind, wp_callV. intros s r s1 _.
    assert (Hc1 : cached (t ++ [(CAddressRelevant addr, errorOf r)]) bal)
      by by apply cached_other.
    destruct r as [err|b]; simpl.
    + apply wp_panic. simpl. by apply cached_NoDup in Hc1.
    + by apply IH.
Qed.

Lemma applyUpdate_cached (tx : UpdateTx S) v cau t :
  cached t (balances v) ->
  wp (applyUpdate tx v cau)
     (post (fun t v' => cached t (balances v')) okReads okReads) t.
Proof.
  intros Hc. unfold applyUpdate.
  apply wp_bind, wp_callV. intros s r s1 _. simpl.
  assert (Hc1 : cached (t ++ [(CMaturedSiacoinElements (Index (au_State cau)),
                               errorOf r)]) (balances v))
    by by apply cached_other.
  apply wp_bind. destruct r as [err|matured]; simpl.
  { apply wp_fail. simpl. by apply cached_NoDup in Hc1. }
  apply wp_ret, wp_bind. eapply wp_conseq.
  { apply (wp_forEach cached okReads okReads); [|exact Hc1].
    intros t' b se _ Ht'. by apply maturedElement_cached. }
  intros t1 [b1|e|p] Hb; simpl in *; try done.
  apply wp_bind. eapply wp_conseq.
  { apply (wp_forEach (fun t v' => cached t v'.1.1.1) okReads okReads); [|exact Hb].
    intros t' v' x _ Hv'. by apply applySiacoinElement_cached. }
  intros t2 [[[[b2 n2] sp2] err2]|e|p] Hsc; simpl in *; try done.
  apply wp_bind. destruct err2 as [e2|].
  { apply wp_fail. simpl. by apply cached_NoDup in Hsc. }
  apply wp_ret, wp_bind. eapply wp_conseq.
  { apply (wp_forEach (fun t v' => cached t v'.1.1.1) okReads okReads); [|exact Hsc].
    intros t' v' x _ Hv'. by apply applySiafundElement_cached. }
  intros t3 [[[[b3 n3] sp3] err3]|e|p] Hsf; simpl in *; try done.
  apply wp_bind. eapply wp_conseq; [by apply (runEventQuery_cached tx b3)|].
  intros t4 [evs|e|p] Hev; simpl in *; try done.
  by apply wp_ret.
Qed.

Lemma gather_cached (tx : UpdateTx S) updates :
  wp (gather tx updates) (post (fun t v => cached t (balances v)) okReads okReads) [].
Proof.
  assert (H0 : cached [] ∅).
  { unfold cached, balanceReads. simpl. by rewrite map_to_list_empty. }
  unfold gather.
  apply wp_bind, wp_callV. intros s0 r s1 _. simpl.
  assert (H1 : cached [(CSiacoinStateElements, errorOf r)] ∅)
    by by apply (cached_other []).
  apply wp_bind. destruct r as [err|l1]; simpl.
  { apply wp_fail. simpl. by apply cached_NoDup in H1. }
  apply wp_ret, wp_bind, wp_callV. intros s2 r s3 _. simpl.
  assert (H2 : cached [(CSiacoinStateElements, None); (CSiafundStateElements, errorOf r)] ∅)
    by by apply (cached_other [_]).
  apply wp_bind. destruct r as [err|l2]; simpl.
  { apply wp_fail. simpl. by apply cached_NoDup in H2. }
  apply wp_ret.
  apply (wp_forEach (fun t v => cached t (balances v)) okReads okReads); [|exact H2].
  intros t' v' cau _ Ht'. by apply applyUpdate_cached.
Qed.

Lemma toBalanceChanges_addresses (bal : gmap N Balance) :
  ab_Address <$> toBalanceChanges bal = (map_to_list bal).*1.
Proof. unfold toBalanceChanges. rewrite <- list_fmap_compose. done. Qed.

Lemma writes_keep_reads t t2 (full : list Call) tail :
  (t ++ t2).*1 = t.*1 ++ tail -> tail `prefix_of` full -> Forall notBalanceCall full ->
  balanceReads (t ++ t2) = balanceReads t.
Proof.
  intros Heq Hpre Hall. rewrite fmap_app in Heq. apply app_inv_head in Heq.
  assert (Hnil : balanceReads t2 = []).
  { apply balanceReads_nil. rewrite Heq. by apply (prefix_Forall _ _ full). }
  unfold balanceReads in *. by rewrite omap_app, Hnil, app_nil_r.
Qed.

(** X13. [ApplyChainUpdates] reads the balance of an address from the store
    at most once, however many elements of the batch touch the address:
    later changes work on the balance it holds. When it returns nil it has
    called [UpdateBalances] with one row for each address whose balance it
    read, and for no other address. *)
Theorem apply_reads_each_balance_once (tx : ApplyTx S) updates s :
  readOnce (traceOf (ApplyChainUpdates tx updates s))
           (outcomeOf (ApplyChainUpdates tx updates s)).
Proof.
  pose proof (gather_cached tx updates s) as Hg. simpl in Hg.
  unfold ApplyChainUpdates, mbind, M_bind, bind, traceOf, outcomeOf in *.
  destruct (gather tx updates s) as [[[v|e|p] s1] t1]; simpl in *.
  - destruct (flush_writesInOrder tx v s1) as (Hpre & Hall & _).
    unfold traceOf, outcomeOf in *.
    destruct (flush tx v s1) as [[o s2] t2]. simpl in *.
    assert (Hr : balanceReads (t1 ++ t2) = balanceReads t1).
    { apply (writes_keep_reads _ _ (flushCalls v) t2.*1);
        [by rewrite fmap_app|done|]. unfold flushCalls. by repeat constructor. }
    split.
    + rewrite Hr. by apply cached_NoDup in Hg.
    + intros ->. exists (toBalanceChanges (balances v)). split.
      * rewrite fmap_app, (Hall eq_refl). apply elem_of_app. right. left.
      * rewrite toBalanceChanges_addresses, Hr. by symmetry.
  - split; [done|done].
  - split; [done|done].
Qed.

Lemma revertSiacoinElement_cached (tx : UpdateTx S) eph h v x t :
  cached t v.1.1.1 ->
  wp (revertSiacoinElement tx eph h v x)
     (post (fun t v' => cached t v'.1.1.1) okReads okReads) t.
Proof.
  destruct v as [[[b a] d] err], x as [se spent]. simpl. intros Hc.
  destruct err as [e0|]; [by apply wp_ret|].
  apply wp_bind, wp_callV. intros s r s1 _.
  assert (Hc1 : cached (t ++ [(CAddressRelevant (scAddr se), errorOf r)]) b)
    by by apply cached_other.
  destruct r as [err|[|]]; simpl; [by apply wp_ret| |by apply wp_ret].
  destruct (getb eph _); [by apply wp_ret|].
  destruct spent; simpl; apply wp_bind;
    (eapply wp_conseq; [by apply updateBalance_cached|]);
    intros t' [[e b']|e|p] Hr; simpl in *; try done; by apply wp_ret.
Qed.

Lemma revertSiafundElement_cached (tx : UpdateTx S) eph v x t :
  cached t v.1.1.1.1 ->
  wp (revertSiafundElement tx eph v x)
     (post (fun t v' => cached t v'.1.1.1.1) okReads okReads) t.
Proof.
  destruct v as [[[[b a] d] err1] err2], x as [se spent]. simpl. intros Hc.
  destruct err2 as [e0|]; [by apply wp_ret|].
  apply wp_bind, wp_callV. intros s r s1 _.
  assert (Hc1 : cached (t ++ [(CAddressRelevant (sfAddr se), errorOf r)]) b)
    by by apply cached_other.
  destruct r as [err|[|]]; simpl; [by apply wp_ret| |by apply wp_ret].
  destruct (getb eph _); [by apply wp_ret|].
  destruct spent; simpl; apply wp_bind;
    (eapply wp_conseq; [by apply updateBalance_cached|]);
    intros t' [[e b']|e|p] Hr; simpl in *; try done; by apply wp_ret.
Qed.

Lemma readOnce_failed t (o : outcome unit) :
  NoDup (balanceReads t) -> o <> Val tt -> readOnce t o.
Proof. intros Hnd Ho. split; [done|]. intros ->. done. Qed.

Lemma revert_cached (tx : RevertTx S) cru :
  wp (RevertChainUpdate tx cru) readOnce [].
Proof.
  assert (H0 : cached [] ∅).
  { unfold cached, balanceReads. simpl. by rewrite map_to_list_empty. }
  unfold RevertChainUpdate.
  apply wp_bind, wp_callV. intros s0 r s1 _. simpl.
  assert (H1 : cached [(CMaturedSiacoinElements (revertedIndexOf cru), errorOf r)] ∅)
    by by apply (cached_other []).
  apply wp_bind. destruct r as [err|matured]; simpl.
  { apply wp_fail. apply readOnce_failed; [by apply cached_NoDup in H1|done]. }
  apply wp_ret, wp_bind. eapply wp_conseq.
  { apply (wp_forEach cached okReads okReads); [|exact H1].
    intros t' b se _ Ht'. by apply maturedElement_cached. }
  intros t1 [b1|e|p] Hb; simpl in *; [|by apply readOnce_failed..].
  apply wp_bind. eapply wp_conseq.
  { apply (wp_forEach (fun t v' => cached t v'.1.1.1) okReads okReads); [|exact Hb].
    intros t' v' x _ Hv'. by apply revertSiacoinElement_cached. }
  intros t2 [[[[b2 a2] d2] err2]|e|p] Hsc; simpl in *; [|by apply readOnce_failed..].
  pose proof (cached_NoDup _ _ Hsc) as Hnd2.
  apply wp_bind. destruct err2 as [e2|]; [apply wp_fail; by apply readOnce_failed|].
  apply wp_ret, wp_bind. eapply wp_conseq.
  { apply (wp_forEach (fun t v' => cached t v'.1.1.1.1) okReads okReads); [|exact Hsc].
    intros t' v' x _ Hv'. by apply revertSiafundElement_cached. }
  intros t3 [[[[[b3 a3] d3] err3] err4]|e|p] Hsf; simpl in *;
    [|by apply readOnce_failed..].
  pose proof (cached_NoDup _ _ Hsf) as Hnd3.
  apply wp_bind. destruct err4 as [e4|]; [apply wp_fail; by apply readOnce_failed|].
  apply wp_ret.
  set (full := revertCalls cru (toBalanceChanges b3) a2 d2 a3 d3).
  eapply wp_conseq.
  - apply wp_ext.
    apply (seq_stepE t3.*1 full 0); [done|by rewrite app_nil_r|intros ? ?].
    apply (seq_stepE _ full 1); [done|done|intros ? ?].
    apply (seq_stepE _ full 2); [done|done|intros ? ?].
    apply (seq_stepV _ full 3); [done|done|intros ? ? ?].
    apply (seq_stepE _ full 4); [done|done|intros ? ?].
    apply (seq_stepE _ full 5); [done|done|intros ? ?].
    apply (seq_stepV _ full 6); [done|done|intros ? ? ?].
    by apply (seq_last _ full 7).
  - intros t' o [(tail & Ht' & Hpre & Hval) (t4 & ->)].
    assert (Hr : balanceReads (t3 ++ t4) = balanceReads t3).
    { apply (writes_keep_reads _ _ full tail); [done|done|].
      unfold full, revertCalls. by repeat constructor. }
    split; [by rewrite Hr|].
    intros Ho. exists (toBalanceChanges b3). split.
    + rewrite Ht', (Hval Ho). apply elem_of_app. right. left.
    + rewrite toBalanceChanges_addresses, Hr. by symmetry.
Qed.

(** X14. [RevertChainUpdate] reads the balance of an address from the store
    at most once; when it returns nil it has called [UpdateBalances] with
    one row for each address whose balance it read, and for no other
    address. *)
Theorem revert_reads_each_balance_once (tx : RevertTx S) cru s :
  readOnce (traceOf (RevertChainUpdate tx cru s))
           (outcomeOf (RevertChainUpdate tx cru s)).
Proof. apply (revert_cached tx cru s). Qed.

End cache.

(** ** What the applier removes *)
Section spent.
Context `{Env} {S : Type}.

Lemma ensures_callV {A} (Q : error + A -> Prop) c (f : S -> (error + A) * S) :
  (forall s r s1, f s = (r, s1) -> Q r) -> ensures Q (callV c f).
Proof.
  intros Hf s a. unfold callV, outcomeOf. destruct (f s) as [r s1] eqn:E. simpl.
  intros [= <-]. by apply (Hf s r s1).
Qed.

(** A loop in which one round establishes [P] and every round keeps it. *)
Lemma ensures_forEach_hit {A V} (I P : V -> Prop) (body : V -> A -> M S V)
    (l : list A) (x0 : A) :
  x0 ∈ l ->
  (forall v a, a ∈ l -> I v -> ensures I (body v a)) ->
  (forall v, I v -> ensures P (body v x0)) ->
  (forall v a, a ∈ l -> P v -> ensures P (body v a)) ->
  forall v, I v -> ensures P (forEach body l v).
Proof.
  induction l as [|a l IH]; intros Hin HI Hhit Hkeep v Hv.
  - by apply elem_of_nil in Hin.
  - simpl. apply elem_of_cons in Hin as [<-|Hin].
    + apply (ensures_bind P); [by apply Hhit|].
      intros v' Hv'. apply (ensures_forEach P); [|done].
      intros v0 a0 Ha0. apply Hkeep. by right.
    + apply (ensures_bind I); [apply HI; [left|done]|].
      intros v' Hv'. apply IH; try done.
      * intros v0 a0 Ha0. apply HI. by right.
      * intros v0 a0 Ha0. apply Hkeep. by right.
Qed.

Lemma updateBalance_answers (tx : UpdateTx S) bal addr fn :
  answersQueries tx -> ensures (fun r => r.1 = None) (updateBalance tx bal addr fn).
Proof.
  intros [_ Hbal]. unfold updateBalance. destruct (bal !! addr) as [b0|].
  - apply (ensures_bind (fun _ => True)); [apply ensures_any|intros b1 _].
    by apply ensures_ret.
  - apply (ensures_bind (fun r => exists b, r = inr b)).
    + apply ensures_callV. intros s r s1 Hf.
      destruct (Hbal addr s) as [b Hb]. rewrite Hf in Hb. by exists b.
    + intros r [b ->].
      apply (ensures_bind (fun _ => True)); [apply ensures_any|intros b1 _].
      by apply ensures_ret.
Qed.

(** *** The siacoin callback *)

Lemma applySiacoinElement_marks (tx : UpdateTx S) eph h v se :
  getb eph (ID (sce_StateElement se)) = false -> answersRelevant tx (scAddr se) ->
  ensures (marked (ID (sce_StateElement se))) (applySiacoinElement tx eph h v (se, true)).
Proof.
  destruct v as [[[b n] sp] err]. simpl. intros Heph Hrel.
  destruct err as [e0|]; [by apply ensures_ret|]. rewrite Heph.
  apply (ensures_bind (fun r => r = inr true)).
  - apply ensures_callV. intros s r s1 Hf.
    specialize (Hrel s). rewrite Hf in Hrel. done.
  - intros r ->. simpl.
    apply (ensures_bind (fun _ => True)); [apply ensures_any|intros [e' b'] _].
    destruct e'; apply ensures_ret; [done|].
    intros _. simpl. rewrite lookup_insert_eq. by eexists.
Qed.

Lemma applySiacoinElement_keeps (tx : UpdateTx S) eph h v x id :
  marked id v -> ensures (marked id) (applySiacoinElement tx eph h v x).
Proof.
  destruct v as [[[b n] sp] err], x as [se spent]. unfold marked. simpl. intros Hm.
  destruct err as [e0|]; [by apply ensures_ret|]. specialize (Hm eq_refl).
  destruct (getb eph _); [by apply ensures_ret|].
  apply (ensures_bind (fun _ => True)); [apply ensures_any|intros r _].
  destruct r as [e|[|]]; [by apply ensures_ret| |by apply ensures_ret].
  destruct spent; simpl;
    (apply (ensures_bind (fun _ => True)); [apply ensures_any|intros [e' b'] _]);
    destruct e'; apply ensures_ret; try done; intros _; simpl.
  destruct (decide (ID (sce_StateElement se) = id)) as [->|Hne].
  - rewrite lookup_insert_eq. by eexists.
  - by rewrite lookup_insert_ne.
Qed.

Lemma applySiacoinElement_only (tx : UpdateTx S) eph h v x updates cau :
  cau ∈ updates -> x ∈ au_SiacoinElements cau ->
  (forall id, is_Some (v.1.2 !! id) -> scSpentInBatch updates id) ->
  ensures (fun v' => forall id, is_Some (v'.1.2 !! id) -> scSpentInBatch updates id)
          (applySiacoinElement tx eph h v x).
Proof.
  destruct v as [[[b n] sp] err], x as [se spent]. simpl. intros Hcau Hx Hsp.
  destruct err as [e0|]; [by apply ensures_ret|].
  destruct (getb eph _); [by apply ensures_ret|].
  apply (ensures_bind (fun _ => True)); [apply ensures_any|intros r _].
  destruct r as [e|[|]]; [by apply ensures_ret| |by apply ensures_ret].
  destruct spent; simpl;
    (apply (ensures_bind (fun _ => True)); [apply ensures_any|intros [e' b'] _]);
    destruct e'; apply ensures_ret; simpl; try done;
    intros id; (destruct (decide (ID (sce_StateElement se) = id)) as [<-|Hne];
      [intros _; by exists cau, se|rewrite lookup_insert_ne by done; apply Hsp]).
Qed.

(** *** The siafund callback *)

Lemma applySiafundElement_noerr (tx : UpdateTx S) eph v x :
  answersQueries tx -> v.2 = None ->
  ensures (fun v' => v'.2 = None) (applySiafundElement tx eph v x).
Proof.
  destruct v as [[[b n] sp] err], x as [se spent]. simpl. intros Hq ->.
  destruct (getb eph _); [by apply ensures_ret|].
  apply (ensures_bind (fun r => exists b, r = inr b)).
  - apply ensures_callV. intros s r s1 Hf.
    destruct (proj1 Hq (sfAddr se) s) as [b0 Hb]. rewrite Hf in Hb. by exists b0.
  - intros r [[|] ->]; [|by apply ensures_ret].
    destruct spent; simpl;
      (apply (ensures_bind (fun r => r.1 = None)); [by apply updateBalance_answers|]);
      intros [e' b'] He; simpl in He; subst e'; by apply ensures_ret.
Qed.

Lemma applySiafundElement_marks (tx : UpdateTx S) eph v se :
  answersQueries tx -> v.2 = None ->
  getb eph (ID (sfe_StateElement se)) = false -> answersRelevant tx (sfAddr se) ->
  ensures (markedNoError (ID (sfe_StateElement se)))
          (applySiafundElement tx eph v (se, true)).
Proof.
  destruct v as [[[b n] sp] err]. simpl. intros Hq -> Heph Hrel. rewrite Heph.
  apply (ensures_bind (fun r => r = inr true)).
  - apply ensures_callV. intros s r s1 Hf.
    specialize (Hrel s). rewrite Hf in Hrel. done.
  - intros r ->. simpl.
    apply (ensures_bind (fun r => r.1 = None)); [by apply updateBalance_answers|].
    intros [e' b'] He. simpl in He. subst e'. apply ensures_ret.
    split; [done|]. simpl. rewrite lookup_insert_eq. by eexists.
Qed.

Lemma applySiafundElement_keeps (tx : UpdateTx S) eph v x id :
  answersQueries tx -> markedNoError id v ->
  ensures (markedNoError id) (applySiafundElement tx eph v x).
Proof.
  intros Hq [Herr Hm].
  apply (ensures_weaken (fun v' => v'.2 = None /\ is_Some (v'.1.2 !! id))); [|done].
  intros s v' Hv'. split.
  { by apply (applySiafundElement_noerr tx eph v x Hq Herr s). }
  revert s v' Hv'. change (ensures (fun v' => is_Some (v'.1.2 !! id))
                                   (applySiafundElement tx eph v x)).
  destruct v as [[[b n] sp] err], x as [se spent]. simpl in *. subst err.
  destruct (getb eph _); [by apply ensures_ret|].
  apply (ensures_bind (fun _ => True)); [apply ensures_any|intros r _].
  destruct r as [e|[|]]; [by apply ensures_ret| |by apply ensures_ret].
  destruct spent; simpl;
    (apply (ensures_bind (fun _ => True)); [apply ensures_any|intros [e' b'] _]);
    destruct e'; apply ensures_ret; simpl; try done.
  - destruct (decide (ID (sfe_StateElement se) = id)) as [->|Hne].
    + rewrite lookup_insert_eq. by eexists.
    + by rewrite lookup_insert_ne.
  - destruct (decide (ID (sfe_StateElement se) = id)) as [->|Hne].
    + rewrite lookup_insert_eq. by eexists.
    + by rewrite lookup_insert_ne.
Qed.

Lemma applySiafundElement_only (tx : UpdateTx S) eph v x updates cau :
  cau ∈ updates -> x ∈ au_SiafundElements cau ->
  (forall id, is_Some (v.1.2 !! id) -> sfSpentInBatch updates id) ->
  ensures (fun v' => forall id, is_Some (v'.1.2 !! id) -> sfSpentInBatch updates id)
          (applySiafundElement tx eph v x).
Proof.
  destruct v as [[[b n] sp] err], x as [se spent]. simpl. intros Hcau Hx Hsp.
  destruct err as [e0|]; [by apply ensures_ret|].
  destruct (getb eph _); [by apply ensures_ret|].
  apply (ensures_bind (fun _ => True)); [apply ensures_any|intros r _].
  destruct r as [e|[|]]; [by apply ensures_ret| |by apply ensures_ret].
  destruct spent; simpl;
    (apply (ensures_bind (fun _ => True)); [apply ensures_any|intros [e' b'] _]);
    destruct e'; apply ensures_ret; simpl; try done;
    intros id; (destruct (decide (ID (sfe_StateElement se) = id)) as [<-|Hne];
      [intros _; by exists cau, se|rewrite lookup_insert_ne by done; apply Hsp]).
Qed.

End spent.

(** ** What the applier removes: the batch *)
Section removed.
Context `{Env} {S : Type}.

Local Ltac any_bind x :=
  apply (ensures_bind (fun _ => True)); [apply ensures_any|intros x _].

(** [applyUpdate] by its two element loops, as far as the maps of spent
    ids go. *)
Lemma applyUpdate_spentMaps (tx : UpdateTx S) v cau
    (QSC : gmap N Balance * gmap N SiacoinElement * gmap N bool * option error -> Prop)
    (QSF : gmap N Balance * gmap N SiafundElement * gmap N bool * option error -> Prop)
    (R : gmap N bool -> gmap N bool -> Prop) :
  (forall b0,
     ensures QSC
       (forEach (applySiacoinElement tx (ephemeralElements (au_Block cau))
                   (Height (Index (au_State cau))))
          (au_SiacoinElements cau)
          (b0, newSiacoinElements v, spentSiacoinElements v, None))) ->
  (forall b0,
     ensures QSF
       (forEach (applySiafundElement tx (ephemeralElements (au_Block cau)))
          (au_SiafundElements cau)
          (b0, newSiafundElements v, spentSiafundElements v, None))) ->
  (forall v1 v2, QSC v1 -> v1.2 = None -> QSF v2 -> R v1.1.2 v2.1.2) ->
  ensures (fun v' => R (spentSiacoinElements v') (spentSiafundElements v'))
          (applyUpdate tx v cau).
Proof.
  intros Hsc Hsf HR. unfold applyUpdate.
  any_bind r. any_bind matured. any_bind b0.
  apply (ensures_bind QSC); [apply Hsc|]. intros [[[b1 n1] sp1] err1] H1.
  apply (ensures_bind (fun _ => err1 = None)).
  { destruct err1; [apply ensures_fail|by apply ensures_ret]. }
  intros _ ->.
  apply (ensures_bind QSF); [apply Hsf|]. intros [[[b2 n2] sp2] err2] H2.
  any_bind evs. apply ensures_ret. simpl.
  by apply (HR (b1, n1, sp1, None) (b2, n2, sp2, err2)).
Qed.

Lemma applyUpdate_marks_sc (tx : UpdateTx S) v cau se :
  (se, true) ∈ au_SiacoinElements cau ->
  getb (ephemeralElements (au_Block cau)) (ID (sce_StateElement se)) = false ->
  answersRelevant tx (scAddr se) ->
  ensures (fun v' => is_Some (spentSiacoinElements v' !! ID (sce_StateElement se)))
          (applyUpdate tx v cau).
Proof.
  intros Hin Heph Hrel.
  apply (applyUpdate_spentMaps tx v cau (marked (ID (sce_StateElement se)))
           (fun _ => True) (fun sp1 _ => is_Some (sp1 !! ID (sce_StateElement se)))).
  - intros b0.
    apply (ensures_forEach_hit (fun _ => True) _ _ _ (se, true)).
    + done.
    + intros v0 a _ _. apply ensures_any.
    + intros v0 _. by apply applySiacoinElement_marks.
    + intros v0 a _ Hv0. by apply applySiacoinElement_keeps.
    + done.
  - intros b0. apply ensures_any.
  - intros v1 v2 H1 Hnone _. by apply H1.
Qed.

Lemma applyUpdate_keeps_sc (tx : UpdateTx S) v cau id :
  is_Some (spentSiacoinElements v !! id) ->
  ensures (fun v' => is_Some (spentSiacoinElements v' !! id)) (applyUpdate tx v cau).
Proof.
  intros Hv.
  apply (applyUpdate_spentMaps tx v cau (marked id)
           (fun _ => True) (fun sp1 _ => is_Some (sp1 !! id))).
  - intros b0. apply (ensures_forEach (marked id)).
    + intros v0 a _ Hv0. by apply applySiacoinElement_keeps.
    + intros _. done.
  - intros b0. apply ensures_any.
  - intros v1 v2 H1 Hnone _. by apply H1.
Qed.

Lemma applyUpdate_marks_sf (tx : UpdateTx S) v cau se :
  answersQueries tx ->
  (se, true) ∈ au_SiafundElements cau ->
  getb (ephemeralElements (au_Block cau)) (ID (sfe_StateElement se)) = false ->
  answersRelevant tx (sfAddr se) ->
  ensures (fun v' => is_Some (spentSiafundElements v' !! ID (sfe_StateElement se)))
          (applyUpdate tx v cau).
Proof.
  intros Hq Hin Heph Hrel.
  apply (applyUpdate_spentMaps tx v cau (fun _ => True)
           (markedNoError (ID (sfe_StateElement se)))
           (fun _ sp2 => is_Some (sp2 !! ID (sfe_StateElement se)))).
  - intros b0. apply ensures_any.
  - intros b0.
    apply (ensures_forEach_hit (fun v0 => v0.2 = None) _ _ _ (se, true)).
    + done.
    + intros v0 a _ Hv0. by apply applySiafundElement_noerr.
    + intros v0 Hv0. by apply applySiafundElement_marks.
    + intros v0 a _ Hv0. by apply applySiafundElement_keeps.
    + done.
  - intros v1 v2 _ _ [_ H2]. done.
Qed.

Lemma applyUpdate_keeps_sf (tx : UpdateTx S) v cau id :
  answersQueries tx ->
  is_Some (spentSiafundElements v !! id) ->
  ensures (fun v' => is_Some (spentSiafundElements v' !! id)) (applyUpdate tx v cau).
Proof.
  intros Hq Hv.
  apply (applyUpdate_spentMaps tx v cau (fun _ => True) (markedNoError id)
           (fun _ sp2 => is_Some (sp2 !! id))).
  - intros b0. apply ensures_any.
  - intros b0. apply (ensures_forEach (markedNoError id)).
    + intros v0 a _ Hv0. by apply applySiafundElement_keeps.
    + by split.
  - intros v1 v2 _ _ [_ H2]. done.
Qed.

Lemma applyUpdate_only (tx : UpdateTx S) v cau updates :
  cau ∈ updates ->
  (forall id, is_Some (spentSiacoinElements v !! id) -> scSpentInBatch updates id) /\
  (forall id, is_Some (spentSiafundElements v !! id) -> sfSpentInBatch updates id) ->
  ensures (fun v' =>
             (forall id, is_Some (spentSiacoinElements v' !! id) ->
                         scSpentInBatch updates id) /\
             (forall id, is_Some (spentSiafundElements v' !! id) ->
                         sfSpentInBatch updates id))
          (applyUpdate tx v cau).
Proof.
  intros Hcau [Hsc Hsf].
  apply (applyUpdate_spentMaps tx v cau
           (fun v1 => forall id, is_Some (v1.1.2 !! id) -> scSpentInBatch updates id)
           (fun v2 => forall id, is_Some (v2.1.2 !! id) -> sfSpentInBatch updates id)
           (fun sp1 sp2 =>
              (forall id, is_Some (sp1 !! id) -> scSpentInBatch updates id) /\
              (forall id, is_Some (sp2 !! id) -> sfSpentInBatch updates id))).
  - intros b0. apply (ensures_forEach
      (fun v1 : gmap N Balance * gmap N SiacoinElement * gmap N bool * option error =>
         forall id, is_Some (v1.1.2 !! id) -> scSpentInBatch updates id)).
    + intros v0 a Ha Hv0. by apply (applySiacoinElement_only _ _ _ _ _ _ cau).
    + done.
  - intros b0. apply (ensures_forEach
      (fun v2 : gmap N Balance * gmap N SiafundElement * gmap N bool * option error =>
         forall id, is_Some (v2.1.2 !! id) -> sfSpentInBatch updates id)).
    + intros v0 a Ha Hv0. by apply (applySiafundElement_only _ _ _ _ _ cau).
    + done.
  - intros v1 v2 H1 _ H2. by split.
Qed.

Lemma gather_marks_sc (tx : UpdateTx S) updates cau se :
  cau ∈ updates -> (se, true) ∈ au_SiacoinElements cau ->
  getb (ephemeralElements (au_Block cau)) (ID (sce_StateElement se)) = false ->
  answersRelevant tx (scAddr se) ->
  ensures (fun v => is_Some (spentSiacoinElements v !! ID (sce_StateElement se)))
          (gather tx updates).
Proof.
  intros Hcau Hin Heph Hrel. unfold gather.
  any_bind r1. any_bind l1. any_bind r2. any_bind l2.
  apply (ensures_forEach_hit (fun _ => True) _ _ _ cau).
  - done.
  - intros v a _ _. apply ensures_any.
  - intros v _. by apply applyUpdate_marks_sc.
  - intros v a _ Hv. by apply applyUpdate_keeps_sc.
  - done.
Qed.

Lemma gather_marks_sf (tx : UpdateTx S) updates cau se :
  answersQueries tx ->
  cau ∈ updates -> (se, true) ∈ au_SiafundElements cau ->
  getb (ephemeralElements (au_Block cau)) (ID (sfe_StateElement se)) = false ->
  answersRelevant tx (sfAddr se) ->
  ensures (fun v => is_Some (spentSiafundElements v !! ID (sfe_StateElement se)))
          (gather tx updates).
Proof.
  intros Hq Hcau Hin Heph Hrel. unfold gather.
  any_bind r1. any_bind l1. any_bind r2. any_bind l2.
  apply (ensures_forEach_hit (fun _ => True) _ _ _ cau).
  - done.
  - intros v a _ _. apply ensures_any.
  - intros v _. by apply applyUpdate_marks_sf.
  - intros v a _ Hv. by apply applyUpdate_keeps_sf.
  - done.
Qed.

Lemma gather_only (tx : UpdateTx S) updates :
  ensures (fun v =>
             (forall id, is_Some (spentSiacoinElements v !! id) ->
                         scSpentInBatch updates id) /\
             (forall id, is_Some (spentSiafundElements v !! id) ->
                         sfSpentInBatch updates id))
          (gather tx updates).
Proof.
  unfold gather. any_bind r1. any_bind l1. any_bind r2. any_bind l2.
  apply (ensures_forEach
    (fun v => (forall id, is_Some (spentSiacoinElements v !! id) ->
                          scSpentInBatch updates id) /\
              (forall id, is_Some (spentSiafundElements v !! id) ->
                          sfSpentInBatch updates id))).
  - intros v cau Hcau Hv. by apply applyUpdate_only.
  - simpl. split; intros id; rewrite lookup_empty; by intros [? ?].
Qed.

Lemma keys_is_Some {A} (m : gmap N A) (k : N) :
  k ∈ (map_to_list m).*1 <-> is_Some (m !! k).
Proof.
  rewrite <- not_eq_None_Some, lookup_None_keys.
  split; [by intros ? ?|]. intros Hnn. by destruct (decide (k ∈ (map_to_list m).*1)).
Qed.

(** X17. When [ApplyChainUpdates] returns nil, it has called
    [RemoveSiacoinElements] and [RemoveSiafundElements] with lists of ids
    such that: every id removed is the id of an element that an update of
    the batch lists as spent; no state element written back by
    [UpdateSiacoinStateElements] or [UpdateSiafundStateElements] has a
    removed id; every siacoin element that an update lists as spent, that
    the detection of its block does not flag as ephemeral, and whose address
    the store answers is relevant, is removed; and so is every such siafund
    element, on a store whose queries [AddressRelevant] and [AddressBalance]
    never fail. *)
Theorem apply_removes_what_the_batch_spends (tx : ApplyTx S) updates s :
  outcomeOf (ApplyChainUpdates tx updates s) = Val tt ->
  exists removedSC removedSF keptSC keptSF,
    CRemoveSiacoinElements removedSC ∈ (traceOf (ApplyChainUpdates tx updates s)).*1 /\
    CRemoveSiafundElements removedSF ∈ (traceOf (ApplyChainUpdates tx updates s)).*1 /\
    CUpdateSiacoinStateElements keptSC ∈ (traceOf (ApplyChainUpdates tx updates s)).*1 /\
    CUpdateSiafundStateElements keptSF ∈ (traceOf (ApplyChainUpdates tx updates s)).*1 /\
    (forall id, id ∈ removedSC -> scSpentInBatch updates id) /\
    (forall id, id ∈ removedSF -> sfSpentInBatch updates id) /\
    (forall id, id ∈ removedSC -> id ∉ ID <$> keptSC) /\
    (forall id, id ∈ removedSF -> id ∉ ID <$> keptSF) /\
    (forall cau se,
       cau ∈ updates -> (se, true) ∈ au_SiacoinElements cau ->
       getb (ephemeralElements (au_Block cau)) (ID (sce_StateElement se)) = false ->
       answersRelevant tx (scAddr se) ->
       ID (sce_StateElement se) ∈ removedSC) /\
    (answersQueries tx ->
     forall cau se,
       cau ∈ updates -> (se, true) ∈ au_SiafundElements cau ->
       getb (ephemeralElements (au_Block cau)) (ID (sfe_StateElement se)) = false ->
       answersRelevant tx (sfAddr se) ->
       ID (sfe_StateElement se) ∈ removedSF).
Proof.
  intros Hval.
  pose proof (gather_only tx updates s) as Honly.
  assert (Hsc : forall cau se,
            cau ∈ updates -> (se, true) ∈ au_SiacoinElements cau ->
            getb (ephemeralElements (au_Block cau)) (ID (sce_StateElement se)) = false ->
            answersRelevant tx (scAddr se) ->
            forall v, outcomeOf (gather tx updates s) = Val v ->
            is_Some (spentSiacoinElements v !! ID (sce_StateElement se))).
  { intros cau se H1 H2 H3 H4 v. by apply (gather_marks_sc tx updates cau se). }
  assert (Hsf : answersQueries tx -> forall cau se,
            cau ∈ updates -> (se, true) ∈ au_SiafundElements cau ->
            getb (ephemeralElements (au_Block cau)) (ID (sfe_StateElement se)) = false ->
            answersRelevant tx (sfAddr se) ->
            forall v, outcomeOf (gather tx updates s) = Val v ->
            is_Some (spentSiafundElements v !! ID (sfe_StateElement se))).
  { intros Hq cau se H1 H2 H3 H4 v. by apply (gather_marks_sf tx updates cau se). }
  unfold ApplyChainUpdates, mbind, M_bind, bind, traceOf, outcomeOf in *.
  destruct (gather tx updates s) as [[[v|e|p] s1] t1]; simpl in *; [|done|done].
  destruct (flush_writesInOrder tx v s1) as (_ & Hall & _).
  unfold traceOf, outcomeOf in *.
  destruct (flush tx v s1) as [[o s2] t2]. simpl in *. subst o.
  specialize (Hall eq_refl). destruct (Honly v eq_refl) as [Hosc Hosf].
  exists (map_to_list (spentSiacoinElements v)).*1,
         (map_to_list (spentSiafundElements v)).*1,
         (filter (fun se => spentSiacoinElements v !! ID se = None)
                 (siacoinStateElements v)),
         (filter (fun se => spentSiafundElements v !! ID se = None)
                 (siafundStateElements v)).
  rewrite fmap_app, Hall. unfold flushCalls. split_and!.
  - apply elem_of_app. right. do 2 right. left.
  - apply elem_of_app. right. do 4 right. left.
  - apply elem_of_app. right. do 6 right. left.
  - apply elem_of_app. right. do 7 right. left.
  - intros id Hid. by apply Hosc, keys_is_Some.
  - intros id Hid. by apply Hosf, keys_is_Some.
  - intros id Hid (se & -> & Hf)%list_elem_of_fmap.
    apply list_elem_of_filter in Hf as [Hnone _].
    apply keys_is_Some in Hid. rewrite Hnone in Hid. by destruct Hid.
  - intros id Hid (se & -> & Hf)%list_elem_of_fmap.
    apply list_elem_of_filter in Hf as [Hnone _].
    apply keys_is_Some in Hid. rewrite Hnone in Hid. by destruct Hid.
  - intros cau se H1 H2 H3 H4. apply keys_is_Some. by apply (Hsc cau se).
  - intros Hq cau se H1 H2 H3 H4. apply keys_is_Some. by apply (Hsf Hq cau se).
Qed.

End removed.

Lemma apply_removes_witness :
  exists removedSF,
    CRemoveSiafundElements removedSF ∈
      (traceOf (ApplyChainUpdates examples.walletApplyTx [examples.spendUpdate]
                  examples.store4)).*1 /\
    20 ∈ removedSF.
Proof.
  destruct (apply_removes_what_the_batch_spends examples.walletApplyTx
              [examples.spendUpdate] examples.store4)
    as (rsc & rsf & ksc & ksf & _ & Hin & _ & _ & _ & _ & _ & _ & _ & Hsf).
  { vm_compute. reflexivity. }
  exists rsf. split; [exact Hin|].
  apply (Hsf (conj (fun addr s => ex_intro _ _ eq_refl)
                   (fun addr s => ex_intro _ _ eq_refl))
             examples.spendUpdate examples.fundOutput).
  - left.
  - left.
  - vm_compute. reflexivity.
  - intros s. reflexivity.
Defined.

End updatesMore.
